(** * Carbono_Calculator: the route catalog and the emission engine

    A shallow embedding of [RoutesDB] (js/routes-data.js), of the
    [CONFIG] tables, of [Calculator], of [handleFormSubmit] (its
    validation, its calculation and its [catch] block) and of the
    renderers of [UI] as far as the way they complete and the colour of
    a bar, followed by the properties of the specification that were
    checked against them and by further properties of the code.

    Strings are sequences of UTF-16 code units. Numbers are an
    interface, so that what does not depend on rounding is stated for
    any arithmetic, with IEEE 754 binary64 as the implementation the
    program runs on: every example is evaluated in it, and the order of
    the results of [calculateAllModes] and of the three prices of
    [estimateCreditPrice] is proved of it. *)

From Stdlib Require Import ZArith NArith Lia.
From Stdlib Require Import List String Ascii Bool Permutation Sorted.
From Stdlib Require Import Floats.SpecFloat.
Import ListNotations.

Set Implicit Arguments.

(* ================================================================== *)
(** * JavaScript strings *)
(* ================================================================== *)

(** A JavaScript string is a finite sequence of UTF-16 code units. *)
Module JSString.

Definition t := list N.

(** [a === b] on strings. *)
Fixpoint eqb (a b : t) : bool :=
  match a, b with
  | [], [] => true
  | x :: a', y :: b' => (x =? y)%N && eqb a' b'
  | _, _ => false
  end.

(** [js "..."] reads a literal of this (UTF-8 encoded) file as the
    JavaScript string with the same characters. *)
Fixpoint utf16_of_utf8 (bs : list N) : t :=
  match bs with
  | [] => []
  | b0 :: r0 =>
      if b0 <? 128 then b0 :: utf16_of_utf8 r0
      else if b0 <? 224 then
        match r0 with
        | b1 :: r1 =>
            (N.land b0 31 * 64 + N.land b1 63) :: utf16_of_utf8 r1
        | [] => [65533]
        end
      else if b0 <? 240 then
        match r0 with
        | b1 :: b2 :: r2 =>
            (N.land b0 15 * 4096 + N.land b1 63 * 64 + N.land b2 63)
              :: utf16_of_utf8 r2
        | _ => [65533]
        end
      else
        match r0 with
        | b1 :: b2 :: b3 :: r3 =>
            let cp := N.land b0 7 * 262144 + N.land b1 63 * 4096
                      + N.land b2 63 * 64 + N.land b3 63 in
            let v := cp - 65536 in
            (55296 + v / 1024) :: (56320 + v mod 1024) :: utf16_of_utf8 r3
        | _ => [65533]
        end
  end%N.

Definition js (s : string) : t :=
  utf16_of_utf8 (map (fun b => N_of_ascii b) (list_ascii_of_string s)).

(** The code units removed by [String.prototype.trim]: WhiteSpace and
    LineTerminator of ECMA-262, all of them in the Basic Multilingual
    Plane. *)
Definition isWhiteSpace (c : N) : bool :=
  ((9 <=? c) && (c <=? 13) || (c =? 32) || (c =? 160) || (c =? 5760)
   || (8192 <=? c) && (c <=? 8202) || (c =? 8232) || (c =? 8233)
   || (c =? 8239) || (c =? 8287) || (c =? 12288) || (c =? 65279))%N.

Fixpoint trimStart (s : t) : t :=
  match s with
  | c :: s' => if isWhiteSpace c then trimStart s' else s
  | [] => []
  end.

Definition trimEnd (s : t) : t := rev (trimStart (rev s)).

Definition trim (s : t) : t := trimEnd (trimStart s).

(** [s.split(',')[0]]: the code units before the first comma, the whole
    string when it has none. *)
Fixpoint split_comma_first (s : t) : t :=
  match s with
  | [] => []
  | c :: s' => if (c =? 44)%N then [] else c :: split_comma_first s'
  end.

(** Lower case of one Latin-1 code unit (Unicode simple case mapping:
    A-Z and the capital letters of the Latin-1 Supplement other than the
    multiplication sign); code units from U+0100 on are not covered. *)
Definition lower_latin1 (c : N) : N :=
  if ((65 <=? c) && (c <=? 90)
      || (192 <=? c) && (c <=? 222) && negb (c =? 215))%N
  then (c + 32)%N else c.

Definition isLatin1 (s : t) : bool := forallb (fun c => c <? 256)%N s.

Definition toLowerCase_latin1 (s : t) : t := map lower_latin1 s.

End JSString.

Import JSString.

(* ================================================================== *)
(** * RoutesDB (js/routes-data.js) *)
(* ================================================================== *)

(** A route of the catalog. [distanceKm] is the integer literal of the
    source; [findDistance] hands it back without computing on it. *)
Record Route := mkRoute {
  origin : JSString.t;
  destination : JSString.t;
  distanceKm : Z
}.

Module RoutesDB.

Definition route (o d : string) (km : Z) : Route := mkRoute (js o) (js d) km.

Definition routes : list Route := [
  route "São Paulo, SP" "Rio de Janeiro, RJ" 430;
  route "São Paulo, SP" "Brasília, DF" 1015;
  route "Rio de Janeiro, RJ" "Brasília, DF" 1148;
  route "São Paulo, SP" "Belo Horizonte, MG" 586;
  route "Rio de Janeiro, RJ" "Belo Horizonte, MG" 716;
  route "São Paulo, SP" "Salvador, BA" 1945;
  route "Rio de Janeiro, RJ" "Salvador, BA" 1959;
  route "São Paulo, SP" "Curitiba, PR" 408;
  route "São Paulo, SP" "Manaus, AM" 3150;
  route "São Paulo, SP" "Recife, PE" 2430;
  route "São Paulo, SP" "Campinas, SP" 95;
  route "São Paulo, SP" "Santos, SP" 70;
  route "São Paulo, SP" "Sorocaba, SP" 108;
  route "São Paulo, SP" "Ribeirão Preto, SP" 312;
  route "Campinas, SP" "Ribeirão Preto, SP" 217;
  route "Rio de Janeiro, RJ" "Niterói, RJ" 13;
  route "Rio de Janeiro, RJ" "Duque de Caxias, RJ" 35;
  route "Rio de Janeiro, RJ" "Petrópolis, RJ" 68;
  route "Rio de Janeiro, RJ" "Angra dos Reis, RJ" 165;
  route "Belo Horizonte, MG" "Ouro Preto, MG" 100;
  route "Belo Horizonte, MG" "Montes Claros, MG" 418;
  route "Belo Horizonte, MG" "Juiz de Fora, MG" 290;
  route "Belo Horizonte, MG" "Uberaba, MG" 467;
  route "Curitiba, PR" "Londrina, PR" 398;
  route "Curitiba, PR" "Maringá, PR" 409;
  route "Curitiba, PR" "Foz do Iguaçu, PR" 645;
  route "Salvador, BA" "Feira de Santana, BA" 110;
  route "Salvador, BA" "Vitória da Conquista, BA" 710;
  route "Salvador, BA" "Camaçari, BA" 52;
  route "Fortaleza, CE" "Sobral, CE" 240;
  route "Fortaleza, CE" "Juazeiro do Norte, CE" 530;
  route "Recife, PE" "Olinda, PE" 8;
  route "Recife, PE" "Caruaru, PE" 134;
  route "Brasília, DF" "Goiânia, GO" 209;
  route "Goiânia, GO" "Anápolis, GO" 54;
  route "Vitória, ES" "Vila Velha, ES" 25;
  route "Vitória, ES" "Cachoeiro de Itapemirim, ES" 115;
  route "Porto Alegre, RS" "Caxias do Sul, RS" 230;
  route "Porto Alegre, RS" "Pelotas, RS" 280
]%Z.

Section FindDistance.

(** [String.prototype.toLowerCase] is the host's Unicode lower-casing;
    the development only relies on what it does to Latin-1 text
    ([toLowerCase_on_latin1] below), which is all the catalog holds. *)
Variable toLowerCase : JSString.t -> JSString.t.

(** The body of the [for (const route of this.routes)] loop: [Some d]
    when one of its four [return route.distanceKm] is taken. *)
Definition matchRoute (normalizedOrigin normalizedDestination : JSString.t)
    (route : Route) : option Z :=
  let routeOrigin := toLowerCase (origin route) in
  let routeDestination := toLowerCase (destination route) in
  if eqb routeOrigin normalizedOrigin
     && eqb routeDestination normalizedDestination
  then Some (distanceKm route)
  else if eqb routeOrigin normalizedDestination
          && eqb routeDestination normalizedOrigin
  then Some (distanceKm route)
  else
    let routeOriginCity := trim (split_comma_first routeOrigin) in
    let routeDestinationCity := trim (split_comma_first routeDestination) in
    let originCity := trim (split_comma_first normalizedOrigin) in
    let destinationCity := trim (split_comma_first normalizedDestination) in
    if eqb routeOriginCity originCity
       && eqb routeDestinationCity destinationCity
    then Some (distanceKm route)
    else if eqb routeOriginCity destinationCity
            && eqb routeDestinationCity originCity
    then Some (distanceKm route)
    else None.

Fixpoint findDistance_loop (rs : list Route)
    (normalizedOrigin normalizedDestination : JSString.t) : option Z :=
  match rs with
  | [] => None
  | route :: rs' =>
      match matchRoute normalizedOrigin normalizedDestination route with
      | Some d => Some d
      | None => findDistance_loop rs' normalizedOrigin normalizedDestination
      end
  end.

(** [findDistance] over a catalog [rs]; [None] is the source's [null]. *)
Definition findDistance_in (rs : list Route) (origin destination : JSString.t)
    : option Z :=
  let normalizedOrigin := toLowerCase (trim origin) in
  let normalizedDestination := toLowerCase (trim destination) in
  findDistance_loop rs normalizedOrigin normalizedDestination.

Definition findDistance : JSString.t -> JSString.t -> option Z :=
  findDistance_in routes.

End FindDistance.

End RoutesDB.

(* ================================================================== *)
(** * JavaScript numbers *)
(* ================================================================== *)

(** The operations of the Number type that the calculator uses.
    [lit n d] is the value of the numeric literal that denotes [n/d]
    ([0.12] is [lit 12 100]); [lt] and [le] are the operators [<] and
    [<=], false as soon as an operand is NaN. *)
Class Number (T : Type) := {
  lit : Z -> positive -> T;
  NaN : T;
  mul : T -> T -> T;
  div : T -> T -> T;
  add : T -> T -> T;
  sub : T -> T -> T;
  Math_round : T -> T;
  lt : T -> T -> bool;
  le : T -> T -> bool
}.

Declare Scope js_scope.
Delimit Scope js_scope with js.
Infix "*" := mul : js_scope.
Infix "/" := div : js_scope.
Infix "+" := add : js_scope.
Infix "-" := sub : js_scope.
Notation "x > y" := (lt y x) : js_scope.
Notation "x < y" := (lt x y) : js_scope.
Notation "x <= y" := (le x y) : js_scope.

(** An integer literal. *)
Definition int {T} `{Number T} (n : Z) : T := lit n 1.

(** [!x] for a number [x]: true for [0], [-0] and NaN. *)
Definition falsy {T} `{Number T} (x : T) : bool :=
  negb (lt x (int 0) || lt (int 0) x).

(** ** IEEE 754 binary64, the Number type of ECMAScript *)
Module Binary64.

Definition prec : Z := 53.
Definition emax : Z := 1024.

Definition t := spec_float.

Definition of_Z (n : Z) : t := binary_normalize prec emax n 0 false.

(** A decimal literal denotes the double nearest to its value, which is
    what the correctly rounded quotient of two exactly representable
    integers gives. *)
Definition literal (n : Z) (d : positive) : t :=
  SFdiv prec emax (of_Z n) (of_Z (Zpos d)).

(** [Math.round]: the integer nearest to [x], ties towards +Infinity;
    a result of zero keeps the sign of [x]. For [x = (-1)^s m 2^e] with
    [e < 0] this is the floor of [(2 (-1)^s m + 2^-e) / 2^(1-e)]. *)
Definition round (x : t) : t :=
  match x with
  | S754_finite s m e =>
      if (0 <=? e)%Z then x
      else
        let twice := (if s then Zneg m~0 else Zpos m~0) in
        let n := Z.shiftr (twice + 2 ^ (- e)) (1 - e) in
        if (n =? 0)%Z then S754_zero s else of_Z n
  | _ => x
  end.

#[global] Instance number : Number t := {|
  lit := literal;
  NaN := S754_nan;
  mul := SFmul prec emax;
  div := SFdiv prec emax;
  add := SFadd prec emax;
  sub := SFsub prec emax;
  Math_round := round;
  lt := SFltb;
  le := SFleb
|}.

(** ** What the proofs say of a number *)

(** A proper number: not NaN, and with a mantissa and an exponent of the
    format, as every double is. *)
Definition proper (x : t) : Prop :=
  match x with
  | S754_nan => False
  | _ => valid_binary prec emax x = true
  end.

(** A proper number that is not an infinity: what [parseFloat] returns
    for a numeral. *)
Definition finite (x : t) : Prop :=
  match x with
  | S754_zero _ | S754_finite _ _ _ => proper x
  | _ => False
  end.

Definition is_zero (x : t) : Prop :=
  match x with S754_zero _ => True | _ => False end.

Definition is_infinity (x : t) : Prop :=
  match x with S754_infinity _ => True | _ => False end.

Definition has_mantissa (x : t) : Prop :=
  match x with S754_finite _ _ _ => True | _ => False end.

Definition has_sign (s : bool) (x : t) : Prop :=
  match x with
  | S754_zero s' | S754_infinity s' | S754_finite s' _ _ => s' = s
  | S754_nan => False
  end.

Definition nonzero (x : t) : Prop :=
  match x with
  | S754_infinity _ | S754_finite _ _ _ => True
  | _ => False
  end.

(** A proper number as a whole multiple of [2^-1074], the infinities
    standing beyond every finite number. *)
Definition big : Z := 2 ^ 3000.

Definition scaled (x : t) : Z :=
  match x with
  | S754_zero _ => 0
  | S754_infinity s => cond_Zopp s big
  | S754_finite s m e => cond_Zopp s (Zpos m * 2 ^ (e + 1074))
  | S754_nan => 0
  end.

Local Open Scope Z_scope.

(** ** Rounding, counted in units of [2^-1074]

    An exact result is a quotient [N / D] of integers, in units of
    [2^-1074]; the number an operation returns is compared with it
    through [scaled]. *)

(** The number 1, and the least power of two beyond the finite
    numbers, [2^1024]. *)
Definition one : Z := 2 ^ 1074.
Definition top : Z := 2 ^ 2098.

(** [R] is within a relative error of [2^-53] and half a unit of the
    quotient [N / D]. *)
Definition near (N D R : Z) : Prop :=
  - (N + 2 ^ 52 * D) <= 2 ^ 53 * (D * R - N) <= N + 2 ^ 52 * D.

(** The quotient [N / D] is beyond the numbers that round to a finite
    number. *)
Definition over (N D : Z) : Prop :=
  2 ^ 53 * (D * top) <= (2 ^ 53 + 1) * N + 2 ^ 52 * D.

(** [n] is the integer nearest to [P], the greater one on a tie. *)
Definition half_up (n P : Z) : Prop :=
  0 <= n /\ (2 * n - 1) * one <= 2 * P < (2 * n + 1) * one.

(** A number that is not negative: a zero, a positive number or
    [+Infinity]. *)
Definition nonneg (x : t) : Prop :=
  proper x /\
  match x with
  | S754_zero _ | S754_finite false _ _ | S754_infinity false => True
  | _ => False
  end.

(** [r] is the rounding of the exact value [N / D >= 0]: near it, or
    [+Infinity] when the value is beyond the finite numbers. *)
Definition rounded (N D : Z) (r : t) : Prop :=
  proper r /\
  match r with
  | S754_zero _ | S754_finite false _ _ => near N D (scaled r)
  | S754_infinity false => over N D
  | _ => False
  end.

(** The exact mantissa [N / D] stands where the record of a right
    shift says: between [m] and [m + 1], on the side of the middle that
    the round bit tells, and on [m] or on the middle when the sticky
    bit is clear. *)
Definition recorded (N D : Z) (mrs : shr_record) : Prop :=
  let m := shr_m mrs in
  0 <= m /\ m * D <= N <= (m + 1) * D
  /\ (shr_r mrs = false -> 2 * N <= (2 * m + 1) * D)
  /\ (shr_r mrs = true -> (2 * m + 1) * D <= 2 * N)
  /\ (shr_s mrs = false ->
      2 * N = (2 * m + (if shr_r mrs then 1 else 0)) * D).

Definition located (N D m : Z) (l : location) : Prop :=
  recorded N D (shr_record_of_loc m l).

Local Close Scope Z_scope.

End Binary64.

(* ================================================================== *)
(** * The console *)
(* ================================================================== *)

(** A computation that may write lines to [console.error]: its value
    and the lines written, in order. Nothing here throws. *)
Definition Console (A : Type) : Type := (A * list JSString.t)%type.

Definition ret {A} (a : A) : Console A := (a, []).

Definition bind {A B} (m : Console A) (k : A -> Console B) : Console B :=
  let (a, out1) := m in
  let (b, out2) := k a in
  (b, out1 ++ out2).

Definition console_error (msg : JSString.t) : Console unit := (tt, [msg]).

Notation "x <- m ;; k" := (bind m (fun x => k))
  (at level 61, m at next level, right associativity).
Notation "m ;; k" := (bind m (fun _ => k))
  (at level 61, right associativity).

(* ================================================================== *)
(** * Objects used as tables *)
(* ================================================================== *)

(** What [table[key]] evaluates to, for an object literal whose own
    properties are numbers: an own property, else what the literal
    inherits from [Object.prototype] (functions, and the prototype
    object itself for [__proto__]), else [undefined]. *)
Inductive Value (T : Type) : Type :=
| Undefined
| Num (x : T)
| Obj.
Arguments Undefined {T}.
Arguments Obj {T}.

Definition Object_prototype : list JSString.t :=
  map js [ "constructor"; "hasOwnProperty"; "isPrototypeOf";
           "propertyIsEnumerable"; "toLocaleString"; "toString";
           "valueOf"; "__proto__"; "__defineGetter__";
           "__defineSetter__"; "__lookupGetter__"; "__lookupSetter__" ]%string.

Fixpoint own {T} (table : list (JSString.t * T)) (key : JSString.t)
    : option T :=
  match table with
  | [] => None
  | (k, v) :: table' => if eqb k key then Some v else own table' key
  end.

Definition Get {T} (table : list (JSString.t * T)) (key : JSString.t)
    : Value T :=
  match own table key with
  | Some v => Num v
  | None => if existsb (eqb key) Object_prototype then Obj else Undefined
  end.

(** The keys that [for (const k in table)] visits: the own properties in
    the order the literal declares them ([Object.prototype] has nothing
    enumerable). *)
Definition keys {T} (table : list (JSString.t * T)) : list JSString.t :=
  map fst table.

(** [ToNumber], applied by [*] to its operands. *)
Definition ToNumber {T} `{Number T} (v : Value T) : T :=
  match v with
  | Num x => x
  | Undefined | Obj => NaN
  end.

Fixpoint forIn {A} (ks : list JSString.t)
    (body : JSString.t -> A -> Console A) (acc : A) : Console A :=
  match ks with
  | [] => ret acc
  | k :: ks' => acc' <- body k acc ;; forIn ks' body acc'
  end.

(** [Array.prototype.sort(comparefn)]: stable, an element moves behind
    another only when [comparefn] says so with a result above zero (a
    result of NaN counts as zero). For a consistent [comparefn] every
    conforming sort returns this list. *)
Section ArraySort.
Context {T} `{Number T} {A : Type}.
Variable comparefn : A -> A -> T.

Fixpoint insert (x : A) (l : list A) : list A :=
  match l with
  | [] => [x]
  | y :: l' =>
      if (comparefn x y > int 0)%js then y :: insert x l' else x :: l
  end.

Definition Array_sort (l : list A) : list A := fold_right insert [] l.

End ArraySort.

(* ================================================================== *)
(** * RoutesDB.getAllCities *)
(* ================================================================== *)

(** [RoutesDB.getAllCities]: the labels of the catalog, each once, in
    the order of the host's collation. *)
Section Cities.
Context {T} `{Number T}.

(** [a.localeCompare(b, 'pt-BR')]: the collation of the host, a number
    below, at or above zero. *)
Variable localeCompare : JSString.t -> JSString.t -> T.

(** [cities.add(x)] on a [Set] of strings, which keeps the order of
    insertion. *)
Definition Set_add (cities : list JSString.t) (x : JSString.t)
    : list JSString.t :=
  if existsb (eqb x) cities then cities else cities ++ [x].

Definition getAllCities_in (rs : list Route) : list JSString.t :=
  let cities :=
    fold_left (fun cities route =>
                 Set_add (Set_add cities (origin route)) (destination route))
              rs [] in
  Array_sort localeCompare cities.

Definition getAllCities : list JSString.t := getAllCities_in RoutesDB.routes.

End Cities.

(* ================================================================== *)
(** * CONFIG *)
(* ================================================================== *)

Module CONFIG.
Section Tables.
Context {T} `{Number T}.

Definition EMISSION_FACTORS : list (JSString.t * T) :=
  [ (js "bicycle", int 0);
    (js "car", lit 12 100);
    (js "bus", lit 89 1000);
    (js "truck", lit 96 100) ].

Definition KG_PER_CREDIT : T := int 1000.
Definition PRICE_MIN_BRL : T := int 50.
Definition PRICE_MAX_BRL : T := int 150.

End Tables.

(** What the views show of a mode. *)
Record ModeData := mkModeData {
  label : JSString.t;
  icon : JSString.t;
  color : JSString.t
}.

Definition TRANSPORT_MODES : list (JSString.t * ModeData) :=
  [ (js "bicycle", mkModeData (js "Bicicleta") (js "🚴") (js "#3b82f6"));
    (js "car", mkModeData (js "Carro") (js "🚗") (js "#ef4444"));
    (js "bus", mkModeData (js "Ônibus") (js "🚌") (js "#f59e0b"));
    (js "truck", mkModeData (js "Caminhão") (js "🚚") (js "#8b5cf6")) ].

End CONFIG.

(* ================================================================== *)
(** * Calculator *)
(* ================================================================== *)

Module Calculator.
Section Engine.
Context {T} `{Number T}.
Local Open Scope js_scope.

Record ModeResult := mkModeResult {
  mode : JSString.t;
  emission : T;
  percentageVsCar : T
}.

Record SavingsResult := mkSavings {
  savedKg : T;
  percentage : T
}.

Record CreditPrice := mkCreditPrice {
  min : T;
  max : T;
  average : T
}.

Definition calculateEmission (distanceKm : T) (transportMode : JSString.t)
    : Console T :=
  let emissionFactor := Get CONFIG.EMISSION_FACTORS transportMode in
  match emissionFactor with
  | Undefined =>
      console_error (js "Invalid transport mode: " ++ transportMode) ;;
      ret (int 0)
  | _ =>
      let emission := distanceKm * ToNumber emissionFactor in
      ret (Math_round (emission * int 100) / int 100)
  end.

Definition calculateAllModes (distanceKm : T) : Console (list ModeResult) :=
  carEmission <- calculateEmission distanceKm (js "car") ;;
  results <- forIn (keys CONFIG.EMISSION_FACTORS)
    (fun mode results =>
       emission <- calculateEmission distanceKm mode ;;
       let percentageVsCar :=
         if carEmission > int 0
         then Math_round ((emission / carEmission) * int 10000) / int 100
         else int 0 in
       ret (results ++ [mkModeResult mode emission percentageVsCar]))
    [] ;;
  ret (Array_sort (fun a b => emission a - emission b) results).

Definition calculateSavings (emission baselineEmission : T) : SavingsResult :=
  let savedKg := Math_round ((baselineEmission - emission) * int 100) / int 100 in
  let percentage :=
    if baselineEmission > int 0
    then Math_round (((savedKg / baselineEmission) * int 100) * int 100) / int 100
    else int 0 in
  mkSavings savedKg percentage.

Definition calculateCarbonCredits (emissionKg : T) : T :=
  let credits := emissionKg / CONFIG.KG_PER_CREDIT in
  Math_round (credits * int 10000) / int 10000.

Definition estimateCreditPrice (credits : T) : CreditPrice :=
  let min := Math_round ((credits * CONFIG.PRICE_MIN_BRL) * int 100) / int 100 in
  let max := Math_round ((credits * CONFIG.PRICE_MAX_BRL) * int 100) / int 100 in
  let average := Math_round (((min + max) / int 2) * int 100) / int 100 in
  mkCreditPrice min max average.

End Engine.

Arguments ModeResult T : clear implicits.
Arguments SavingsResult T : clear implicits.
Arguments CreditPrice T : clear implicits.

End Calculator.

(* ================================================================== *)
(** * UI: how the renderers complete, and the colour of a bar *)
(* ================================================================== *)

Module UI.

(** [renderResults], [renderComparison] and [renderCarbonCredits] build
    markup from template literals. The markup is not modelled, only how
    a call completes: it returns its string, or it throws. The one
    expression of the three that can throw is [modeData.icon], a
    TypeError when [modeData] is [undefined]; [formatNumber] and
    [formatCurrency] return for every number, and [renderCarbonCredits]
    reads no [modeData]. *)
Inductive Completion : Type :=
| Returns
| Throws.

(** [modeData.icon] for [modeData = CONFIG.TRANSPORT_MODES[mode]]: the
    icon of a mode of the table, [undefined] when the name is inherited
    from [Object.prototype], and a TypeError when the table has nothing
    of that name. ([modeData.label], read next, throws in no other
    case.) *)
Definition modeData_icon (mode : JSString.t) : Completion :=
  match Get CONFIG.TRANSPORT_MODES mode with
  | Undefined => Throws
  | _ => Returns
  end.

(** [renderResults(data)], from [data.mode]. *)
Definition renderResults (mode : JSString.t) : Completion :=
  modeData_icon mode.

Section Comparison.
Context {T} `{Number T}.
Local Open Scope js_scope.

(** The helper [getBarColor] of [renderComparison]. *)
Definition getBarColor (percentageVsCar : T) : JSString.t :=
  if percentageVsCar <= int 25 then js "#10b981"
  else if percentageVsCar <= int 75 then js "#f59e0b"
  else if percentageVsCar <= int 100 then js "#f97316"
  else js "#ef4444".

(** [renderComparison(modesArray, selectedMode)]: the callback of
    [modesArray.map] reads [modeData.icon] for the mode of each
    entry. *)
Definition renderComparison (modesArray : list (Calculator.ModeResult T))
    (selectedMode : JSString.t) : Completion :=
  if forallb (fun m => match modeData_icon (Calculator.mode m) with
                       | Returns => true
                       | Throws => false
                       end) modesArray
  then Returns else Throws.

End Comparison.
End UI.

(* ================================================================== *)
(** * handleFormSubmit (app.js) *)
(* ================================================================== *)

Module App.
Section Submit.
Context {T} `{Number T}.
Local Open Scope js_scope.
Import Calculator.

(** What a submission ends in: one of the two [alert]s of the
    validation block, the [alert] of the [catch] block, or the values
    handed to the renderers when these return. *)
Inductive Outcome : Type :=
| Alert (message : JSString.t)
| Calculated (selectedModeEmission : T) (savings : SavingsResult T)
    (allModesComparison : list (ModeResult T)) (carbonCredits : T)
    (creditPricing : CreditPrice T).

(** [!s] for a string. *)
Definition empty (s : JSString.t) : bool :=
  match s with [] => true | _ => false end.

(** [handleFormSubmit] from the values read off the form: the two text
    inputs, [parseFloat] of the distance input and the checked radio.
    The document is taken to hold the elements that the function looks
    up by id. In the [try] block the calculator throws nothing; a
    renderer that throws leads to the [catch] block, which writes to
    [console.error] (the error object, whose text is the host's,
    follows the message on that line) and alerts. *)
Definition handleFormSubmit (originValue destinationValue : JSString.t)
    (distance : T) (selectedTransport : JSString.t) : Console Outcome :=
  let origin := trim originValue in
  let destination := trim destinationValue in
  if empty origin || empty destination then
    ret (Alert (js "⚠️ Por favor, preencha os campos de origem e destino."))
  else if falsy distance || (distance <= int 0) then
    ret (Alert (js
      "⚠️ Por favor, preencha a distância com um valor maior que zero."))
  else
    selectedModeEmission <- calculateEmission distance selectedTransport ;;
    carEmission <- calculateEmission distance (js "car") ;;
    let savings := calculateSavings selectedModeEmission carEmission in
    allModesComparison <- calculateAllModes distance ;;
    let carbonCredits := calculateCarbonCredits selectedModeEmission in
    let creditPricing := estimateCreditPrice carbonCredits in
    match UI.renderResults selectedTransport,
          UI.renderComparison allModesComparison selectedTransport with
    | UI.Returns, UI.Returns =>
        ret (Calculated selectedModeEmission savings allModesComparison
               carbonCredits creditPricing)
    | _, _ =>
        console_error (js "Erro ao processar cálculo:") ;;
        ret (Alert (js
          "❌ Ocorreu um erro ao processar o cálculo. Por favor, tente novamente."))
    end.

End Submit.
End App.


(* ================================================================== *)
(** * Vocabulary of the specification *)
(* ================================================================== *)

Import Calculator.

Section Rounding.
Context {T} `{Number T}.
Local Open Scope js_scope.

(** [round(x, k)] of the specification, with [scale = 10^k], the way
    every rounding site of the calculator writes it. *)
Definition round_to (scale : Z) (x : T) : T :=
  Math_round (x * int scale) / int scale.

(** The [results] array of [calculateAllModes] as it stands before the
    call of [sort]. *)
Definition unsortedResults (distanceKm : T) : list (ModeResult T) :=
  let carEmission := round_to 100 (distanceKm * lit 12 100) in
  map (fun entry : JSString.t * T =>
         let emission := round_to 100 (distanceKm * snd entry) in
         mkModeResult (fst entry) emission
           (if carEmission > int 0
            then Math_round ((emission / carEmission) * int 10000) / int 100
            else int 0))
      CONFIG.EMISSION_FACTORS.

Definition byEmission (a b : ModeResult T) : T := emission a - emission b.

End Rounding.

(** Elements compared by a numeric key, as [sort] does with
    [(a, b) => a.emission - b.emission]. *)
Section ByKey.
Context {T} `{Number T}.
Variable A : Type.
Variable key : A -> T.
Local Open Scope js_scope.

Definition byKey (a b : A) : T := key a - key b.

(** [a] stands before [b] in ascending order of the key. *)
Definition LeKey (a b : A) : Prop := (key a <= key b) = true.

(** The elements whose key equals [e]. *)
Definition keyIs (e : T) (a : A) : bool := (key a <= e) && (e <= key a).

End ByKey.

(** The matching policy of the specification, section 4.1: labels are
    compared trimmed and without regard to case; a first pass over the
    whole catalog looks for an exact match of the full labels in either
    direction and, only when that pass finds nothing, a second pass
    matches on the bare city names (the part of a label before its
    first comma). Each pass takes the earliest-declared route that
    matches. *)
Module Spec.
Section TwoPass.
Variable toLowerCase : JSString.t -> JSString.t.

Definition normalize (label : JSString.t) : JSString.t :=
  toLowerCase (trim label).

Definition bareCity (label : JSString.t) : JSString.t :=
  trim (split_comma_first (normalize label)).

Definition exactMatch (a b : JSString.t) (r : Route) : bool :=
  let o := normalize (origin r) in
  let d := normalize (destination r) in
  eqb o (normalize a) && eqb d (normalize b)
  || eqb o (normalize b) && eqb d (normalize a).

Definition cityMatch (a b : JSString.t) (r : Route) : bool :=
  let o := bareCity (origin r) in
  let d := bareCity (destination r) in
  eqb o (bareCity a) && eqb d (bareCity b)
  || eqb o (bareCity b) && eqb d (bareCity a).

Definition findDistance_two_pass (rs : list Route)
    (origin destination : JSString.t) : option Z :=
  match find (exactMatch origin destination) rs with
  | Some r => Some (distanceKm r)
  | None => option_map distanceKm (find (cityMatch origin destination) rs)
  end.

End TwoPass.
End Spec.

(** The tests of the loop of [findDistance], named for the proofs, and
    what the proofs need to know of a catalog. *)
Module Catalog.
Section Tests.
Variable toLowerCase : JSString.t -> JSString.t.

Definition city (lowered : JSString.t) : JSString.t :=
  trim (split_comma_first lowered).

(** The first two [if]s of the loop body. *)
Definition exactTest (a b : JSString.t) (r : Route) : bool :=
  eqb (toLowerCase (origin r)) a && eqb (toLowerCase (destination r)) b
  || eqb (toLowerCase (origin r)) b && eqb (toLowerCase (destination r)) a.

(** The last two. *)
Definition cityTest (a b : JSString.t) (r : Route) : bool :=
  eqb (city (toLowerCase (origin r))) (city a)
  && eqb (city (toLowerCase (destination r))) (city b)
  || eqb (city (toLowerCase (origin r))) (city b)
     && eqb (city (toLowerCase (destination r))) (city a).

Definition cityKeys (r : Route) : JSString.t * JSString.t :=
  (city (toLowerCase (origin r)), city (toLowerCase (destination r))).

Definition samePair (p q : JSString.t * JSString.t) : bool :=
  eqb (fst p) (fst q) && eqb (snd p) (snd q)
  || eqb (fst p) (snd q) && eqb (snd p) (fst q).

Definition sameRoute (r1 r2 : Route) : bool :=
  eqb (origin r1) (origin r2) && eqb (destination r1) (destination r2)
  && (distanceKm r1 =? distanceKm r2)%Z.

(** No two routes link the same two cities. *)
Definition distinct (rs : list Route) : bool :=
  forallb (fun r1 =>
    forallb (fun r2 =>
      implb (samePair (cityKeys r1) (cityKeys r2)) (sameRoute r1 r2)) rs) rs.

End Tests.

Definition labels_latin1 (r : Route) : bool :=
  isLatin1 (origin r) && isLatin1 (destination r).

Definition labels_trimmed (r : Route) : bool :=
  eqb (trim (origin r)) (origin r)
  && eqb (trim (destination r)) (destination r).

(** Cutting the region suffix off a label leaves Latin-1 text with the
    same bare city. *)
Definition suffix_free (label : JSString.t) : bool :=
  let bare := trim (split_comma_first label) in
  isLatin1 bare
  && eqb (city (toLowerCase_latin1 bare)) (city (toLowerCase_latin1 label)).

(** [variant] is [label] with the case of some letters changed. *)
Definition recased (variant label : JSString.t) : Prop :=
  map lower_latin1 variant = map lower_latin1 label.

(** A catalog with two towns of the same name, to compare the loop of
    the source with the two passes of the specification. *)
Definition homonyms : list Route := [
  RoutesDB.route "Springfield, IL" "Chicago, IL" 300;
  RoutesDB.route "Springfield, MO" "Chicago, IL" 800
]%Z.

End Catalog.

(* ================================================================== *)
(** * Facts about strings, tables and [sort] *)
(* ================================================================== *)

Lemma eqb_eq (a b : JSString.t) : eqb a b = true <-> a = b.
Proof.
  revert b. induction a as [|x a IH]; intros [|y b]; simpl;
    try (split; [discriminate | congruence]); [tauto|].
  rewrite andb_true_iff, N.eqb_eq, IH. split.
  - intros [-> ->]. reflexivity.
  - intros E. injection E. tauto.
Qed.

Lemma eqb_refl (a : JSString.t) : eqb a a = true.
Proof. now apply eqb_eq. Qed.

Section TableFacts.
Context {T} `{Number T}.

Lemma Get_Undefined (table : list (JSString.t * T)) (key : JSString.t) :
  own table key = None -> ~ In key Object_prototype ->
  Get table key = Undefined.
Proof.
  intros Hown Hproto. unfold Get. rewrite Hown.
  destruct (existsb (eqb key) Object_prototype) eqn:E; [|reflexivity].
  apply existsb_exists in E. destruct E as [k [Hin Hk]].
  apply eqb_eq in Hk. subst k. contradiction.
Qed.

Lemma Get_own (table : list (JSString.t * T)) (key : JSString.t) (v : T) :
  own table key = Some v -> Get table key = Num v.
Proof. intros Hown. unfold Get. now rewrite Hown. Qed.

End TableFacts.

Section SortFacts.
Context {T} `{Number T} {A : Type}.
Variable comparefn : A -> A -> T.

Lemma insert_Permutation (x : A) (l : list A) :
  Permutation (insert comparefn x l) (x :: l).
Proof.
  induction l as [|y l IH]; simpl; [reflexivity|].
  destruct (lt (int 0) (comparefn x y)); [|reflexivity].
  rewrite IH. apply perm_swap.
Qed.

Lemma Array_sort_Permutation (l : list A) :
  Permutation (Array_sort comparefn l) l.
Proof.
  induction l as [|x l IH]; simpl; [reflexivity|].
  rewrite insert_Permutation. now constructor.
Qed.

Lemma Array_sort_Forall (P : A -> Prop) (l : list A) :
  Forall P l -> Forall P (Array_sort comparefn l).
Proof.
  intros Hl. eapply Permutation_Forall; [|exact Hl].
  symmetry. apply Array_sort_Permutation.
Qed.

Lemma Array_sort_length (l : list A) :
  List.length (Array_sort comparefn l) = List.length l.
Proof. apply Permutation_length, Array_sort_Permutation. Qed.

End SortFacts.

(* ================================================================== *)
(** * IEEE binary64: proper numbers and their order

    [SpecFloat] computes on a sign, a mantissa and an exponent. The
    facts below are about these integers: the operations of the
    calculator return proper numbers, proper numbers are ordered as the
    integers [scaled] are, and the sign of a difference tells which
    operand is the greater. *)
Module Binary64Facts.
Import Binary64.
Local Open Scope Z_scope.
Local Unset Implicit Arguments.

Lemma fexp_eq (k : Z) : fexp prec emax k = Z.max (k - 53) (-1074).
Proof. reflexivity. Qed.

Lemma digits2_pos_size (p : positive) : digits2_pos p = Pos.size p.
Proof. induction p; simpl; congruence. Qed.

Lemma Zdigits2_log2 (m : Z) : 0 < m -> Zdigits2 m = Z.log2 m + 1.
Proof.
  destruct m as [|p|p]; try lia. intros _. simpl.
  rewrite digits2_pos_size. destruct p; simpl; lia.
Qed.

Lemma Zdigits2_bounds (m : Z) :
  0 < m -> 2 ^ (Zdigits2 m - 1) <= m < 2 ^ Zdigits2 m.
Proof.
  intros Hm. rewrite (Zdigits2_log2 m Hm).
  replace (Z.log2 m + 1 - 1) with (Z.log2 m) by lia.
  apply Z.log2_spec, Hm.
Qed.

Lemma Zdigits2_pos (m : Z) : 0 < m -> 0 < Zdigits2 m.
Proof.
  intros Hm. rewrite (Zdigits2_log2 m Hm). pose proof (Z.log2_nonneg m). lia.
Qed.

Lemma Zdigits2_unique (m d : Z) :
  2 ^ (d - 1) <= m < 2 ^ d -> 0 < d -> Zdigits2 m = d.
Proof.
  intros Hb Hd. assert (0 < m) by (pose proof (Z.pow_pos_nonneg 2 (d - 1)); lia).
  rewrite (Zdigits2_log2 m H).
  rewrite (Z.log2_unique m (d - 1)); try lia.
  replace (Z.succ (d - 1)) with d by lia. exact Hb.
Qed.

Lemma Zdigits2_shiftr (m n : Z) :
  0 < m -> 0 <= n -> n < Zdigits2 m ->
  0 < m / 2 ^ n /\ Zdigits2 (m / 2 ^ n) = Zdigits2 m - n.
Proof.
  intros Hm Hn Hlt. pose proof (Zdigits2_bounds m Hm) as [Hlo Hhi].
  assert (Hp : 0 < 2 ^ n) by (apply Z.pow_pos_nonneg; lia).
  assert (Hq : 2 ^ (Zdigits2 m - n - 1) <= m / 2 ^ n < 2 ^ (Zdigits2 m - n)).
  { split.
    - apply Z.div_le_lower_bound; [lia|].
      rewrite <- Z.pow_add_r by lia.
      replace (n + (Zdigits2 m - n - 1)) with (Zdigits2 m - 1) by lia. lia.
    - apply Z.div_lt_upper_bound; [lia|].
      rewrite <- Z.pow_add_r by lia.
      replace (n + (Zdigits2 m - n)) with (Zdigits2 m) by lia. lia. }
  split.
  - pose proof (Z.pow_pos_nonneg 2 (Zdigits2 m - n - 1)). lia.
  - apply Zdigits2_unique; [exact Hq | lia].
Qed.

(** shr *)
Lemma shr_1_m (mrs : shr_record) :
  0 <= shr_m mrs -> shr_m (shr_1 mrs) = shr_m mrs / 2.
Proof.
  destruct mrs as [m r s]. cbn [shr_m]. intros Hm.
  destruct m as [|[p|p|]|p]; cbn [shr_1 shr_m]; try lia;
    solve [ reflexivity
          | apply Z.div_unique with 1; lia
          | apply Z.div_unique with 0; lia ].
Qed.

Lemma iter_shr_1_m (p : positive) (mrs : shr_record) :
  0 <= shr_m mrs ->
  shr_m (iter_pos shr_1 p mrs) = shr_m mrs / 2 ^ Zpos p.
Proof.
  revert mrs. induction p as [p IH|p IH|]; intros mrs Hm; simpl iter_pos.
  - assert (H1 : 0 <= shr_m (shr_1 mrs))
      by (rewrite shr_1_m by lia; apply Z.div_pos; lia).
    assert (H2 : 0 <= shr_m (iter_pos shr_1 p (shr_1 mrs)))
      by (rewrite IH by lia; apply Z.div_pos; [lia|apply Z.pow_pos_nonneg; lia]).
    rewrite IH, IH, shr_1_m by lia.
    assert (Hp : 0 < 2 ^ Zpos p) by (apply Z.pow_pos_nonneg; lia).
    rewrite !Z.div_div by lia.
    f_equal.
    replace (Zpos p~1) with (1 + Zpos p + Zpos p) by lia.
    rewrite !Z.pow_add_r by lia. lia.
  - assert (H2 : 0 <= shr_m (iter_pos shr_1 p mrs))
      by (rewrite IH by lia; apply Z.div_pos; [lia|apply Z.pow_pos_nonneg; lia]).
    rewrite IH, IH by lia.
    assert (Hp : 0 < 2 ^ Zpos p) by (apply Z.pow_pos_nonneg; lia).
    rewrite !Z.div_div by lia.
    f_equal.
    replace (Zpos p~0) with (Zpos p + Zpos p) by lia.
    rewrite !Z.pow_add_r by lia. lia.
  - rewrite shr_1_m by lia. reflexivity.
Qed.

Lemma shr_record_of_loc_m (m : Z) (l : location) :
  shr_m (shr_record_of_loc m l) = m.
Proof. destruct l as [|[]]; reflexivity. Qed.

(** [shr_fexp] on a mantissa that is not too short. *)
Lemma shr_fexp_spec (m e : Z) (l : location) :
  0 <= m -> e <= fexp prec emax (Zdigits2 m + e) ->
  let n := fexp prec emax (Zdigits2 m + e) - e in
  shr_m (fst (shr_fexp prec emax m e l)) = m / 2 ^ n
  /\ snd (shr_fexp prec emax m e l) = e + n.
Proof.
  intros Hm He n. unfold shr_fexp. fold n. unfold shr.
  destruct n as [|p|p] eqn:En; simpl fst; simpl snd.
  - rewrite shr_record_of_loc_m, Z.div_1_r. lia.
  - rewrite iter_shr_1_m by (rewrite shr_record_of_loc_m; lia).
    rewrite shr_record_of_loc_m. lia.
  - lia.
Qed.

Lemma shr_fexp_zero (e : Z) (l : location) :
  e <= fexp prec emax e -> shr_m (fst (shr_fexp prec emax 0 e l)) = 0.
Proof.
  intros He. destruct (shr_fexp_spec 0 e l ltac:(lia) He) as [Hm _].
  rewrite Hm. apply Z.div_0_l.
  apply Z.pow_nonzero; [lia|]. simpl Zdigits2. simpl Z.add. lia.
Qed.

Lemma Zdigits2_le (a b : Z) : 0 < a -> a <= b -> Zdigits2 a <= Zdigits2 b.
Proof.
  intros Ha Hab. rewrite !Zdigits2_log2 by lia.
  pose proof (Z.log2_le_mono a b Hab). lia.
Qed.

Lemma round_nearest_even_bounds (m : Z) (l : location) :
  m <= round_nearest_even m l <= m + 1.
Proof.
  destruct l as [|[]]; simpl; try lia. destruct (Z.even m); lia.
Qed.

Lemma second_shift (m e m2 : Z) :
  0 <= m -> e <= fexp prec emax (Zdigits2 m + e) ->
  let e1 := fexp prec emax (Zdigits2 m + e) in
  m / 2 ^ (e1 - e) <= m2 -> 0 < m2 ->
  e1 <= fexp prec emax (Zdigits2 m2 + e1) < e1 + Zdigits2 m2.
Proof.
  intros Hm He e1 Hm2 Hpos. pose proof (Zdigits2_pos m2 Hpos) as Hd2.
  subst e1. rewrite !fexp_eq in *.
  destruct (Z_le_gt_dec (Zdigits2 m + e - 53) (-1074)) as [Hlt|Hge]; [lia|].
  (* the first shift leaves 53 digits *)
  assert (Hmpos : 0 < m).
  { destruct (Z.eq_dec m 0) as [Hz|]; [|lia]. rewrite Hz in *.
    simpl Zdigits2 in *. lia. }
  assert (Hn : 0 <= Zdigits2 m + e - 53 - e < Zdigits2 m) by lia.
  destruct (Zdigits2_shiftr m (Zdigits2 m + e - 53 - e) Hmpos
              (proj1 Hn) (proj2 Hn)) as [H1 H1d].
  replace (Z.max (Zdigits2 m + e - 53) (-1074)) with (Zdigits2 m + e - 53)
    in * by lia.
  pose proof (Zdigits2_le _ _ H1 Hm2). lia.
Qed.

Lemma first_shift_zero (m e : Z) :
  0 <= m -> e <= fexp prec emax (Zdigits2 m + e) ->
  m / 2 ^ (fexp prec emax (Zdigits2 m + e) - e) = 0 ->
  fexp prec emax (Zdigits2 m + e) = -1074.
Proof.
  intros Hm He Hz. rewrite !fexp_eq in *.
  destruct (Z_le_gt_dec (Zdigits2 m + e - 53) (-1074)) as [Hlt|Hge]; [lia|].
  assert (Hmpos : 0 < m).
  { destruct (Z.eq_dec m 0) as [H0|]; [|lia]. rewrite H0 in *.
    simpl Zdigits2 in *. lia. }
  replace (Z.max (Zdigits2 m + e - 53) (-1074)) with (Zdigits2 m + e - 53)
    in * by lia.
  destruct (Zdigits2_shiftr m (Zdigits2 m + e - 53 - e) Hmpos
              ltac:(lia) ltac:(lia)) as [H1 _].
  lia.
Qed.

Lemma binary_round_aux_proper (s : bool) (m e : Z) (l : location) :
  0 <= m -> e <= fexp prec emax (Zdigits2 m + e) ->
  proper (binary_round_aux prec emax s m e l).
Proof.
  intros Hm He. unfold binary_round_aux.
  destruct (shr_fexp_spec m e l Hm He) as [Hm1 He1].
  destruct (shr_fexp prec emax m e l) as [mrs' e'].
  cbn [fst snd] in Hm1, He1.
  set (m2 := round_nearest_even (shr_m mrs') (loc_of_shr_record mrs')).
  pose proof (round_nearest_even_bounds (shr_m mrs') (loc_of_shr_record mrs'))
    as Hrne. fold m2 in Hrne.
  assert (Hm1nn : 0 <= shr_m mrs').
  { rewrite Hm1. apply Z.div_pos; [lia|]. apply Z.pow_pos_nonneg; lia. }
  assert (He' : e' = fexp prec emax (Zdigits2 m + e)) by lia.
  destruct (Z.eq_dec m2 0) as [Hz|Hnz].
  - rewrite Hz.
    assert (Hz' : shr_m (fst (shr_fexp prec emax 0 e' loc_Exact)) = 0).
    { apply shr_fexp_zero.
      rewrite He', (first_shift_zero m e Hm He) by lia.
      rewrite fexp_eq. lia. }
    destruct (shr_fexp prec emax 0 e' loc_Exact) as [mrs'' e''].
    cbn [fst] in Hz'. rewrite Hz'. exact eq_refl.
  - assert (Hpos : 0 < m2) by lia.
    assert (Hle : m / 2 ^ (fexp prec emax (Zdigits2 m + e) - e) <= m2)
      by (rewrite <- Hm1; lia).
    pose proof (second_shift m e m2 Hm He Hle Hpos) as Hs.
    cbv zeta in Hs. rewrite <- He' in Hs.
    destruct (shr_fexp_spec m2 e' loc_Exact ltac:(lia) (proj1 Hs))
      as [Hmf Hef].
    destruct (shr_fexp prec emax m2 e' loc_Exact) as [mrs'' e''].
    cbn [fst snd] in Hmf, Hef.
    destruct (Zdigits2_shiftr m2 (fexp prec emax (Zdigits2 m2 + e') - e')
                Hpos ltac:(lia) ltac:(lia)) as [Hfpos Hfd].
    rewrite <- Hmf in Hfpos, Hfd.
    destruct (shr_m mrs'') as [|mf|mf]; try lia.
    destruct (e'' <=? emax - prec) eqn:Hb; [|exact eq_refl].
    cbn [proper valid_binary]. unfold bounded, canonical_mantissa.
    rewrite Hb, andb_true_r. apply Z.eqb_eq.
    change (Z.pos (digits2_pos mf)) with (Zdigits2 (Z.pos mf)).
    replace (Zdigits2 (Z.pos mf) + e'') with (Zdigits2 m2 + e') by lia.
    lia.
Qed.

(** The sign of a number that is not NaN, and whether it is not zero. *)
Lemma binary_round_aux_sign (s : bool) (m e : Z) (l : location) :
  0 <= m -> e <= fexp prec emax (Zdigits2 m + e) ->
  has_sign s (binary_round_aux prec emax s m e l)
  /\ (0 < m / 2 ^ (fexp prec emax (Zdigits2 m + e) - e) ->
      nonzero (binary_round_aux prec emax s m e l)).
Proof.
  intros Hm He.
  pose proof (binary_round_aux_proper s m e l Hm He) as Hgood.
  unfold binary_round_aux in *.
  destruct (shr_fexp_spec m e l Hm He) as [Hm1 He1].
  destruct (shr_fexp prec emax m e l) as [mrs' e'].
  cbn [fst snd] in Hm1, He1.
  set (m2 := round_nearest_even (shr_m mrs') (loc_of_shr_record mrs')) in *.
  pose proof (round_nearest_even_bounds (shr_m mrs') (loc_of_shr_record mrs'))
    as Hrne. fold m2 in Hrne.
  assert (He' : e' = fexp prec emax (Zdigits2 m + e)) by lia.
  split.
  - destruct (shr_fexp prec emax m2 e' loc_Exact) as [mrs'' e''].
    destruct (shr_m mrs'') as [|mf|mf]; [reflexivity| |contradiction].
    destruct (e'' <=? emax - prec); reflexivity.
  - intros H1. rewrite <- Hm1 in H1.
    assert (Hpos : 0 < m2) by lia.
    assert (Hle : m / 2 ^ (fexp prec emax (Zdigits2 m + e) - e) <= m2)
      by (rewrite <- Hm1; lia).
    pose proof (second_shift m e m2 Hm He Hle Hpos) as Hs.
    cbv zeta in Hs. rewrite <- He' in Hs.
    destruct (shr_fexp_spec m2 e' loc_Exact ltac:(lia) (proj1 Hs))
      as [Hmf Hef].
    destruct (shr_fexp prec emax m2 e' loc_Exact) as [mrs'' e''].
    cbn [fst snd] in Hmf, Hef.
    destruct (Zdigits2_shiftr m2 (fexp prec emax (Zdigits2 m2 + e') - e')
                Hpos ltac:(lia) ltac:(lia)) as [Hfpos _].
    rewrite <- Hmf in Hfpos.
    destruct (shr_m mrs'') as [|mf|mf]; try lia.
    destruct (e'' <=? emax - prec); exact I.
Qed.

Lemma iter_xO (m d : positive) :
  Zpos (Pos.iter xO m d) = Zpos m * 2 ^ Zpos d.
Proof.
  change (Pos.iter xO m d) with (shift_pos d m).
  rewrite shift_pos_correct. rewrite Z.mul_comm. reflexivity.
Qed.

Lemma Zdigits2_shiftl (m d : Z) :
  0 < m -> 0 <= d -> Zdigits2 (m * 2 ^ d) = Zdigits2 m + d.
Proof.
  intros Hm Hd. pose proof (Zdigits2_bounds m Hm) as [Hlo Hhi].
  pose proof (Zdigits2_pos m Hm).
  assert (Hp : 0 < 2 ^ d) by (apply Z.pow_pos_nonneg; lia).
  apply Zdigits2_unique; [|lia]. split.
  - replace (Zdigits2 m + d - 1) with (Zdigits2 m - 1 + d) by lia.
    rewrite Z.pow_add_r by lia. nia.
  - rewrite Z.pow_add_r by lia. nia.
Qed.

(** [binary_round] hands [binary_round_aux] a mantissa long enough. *)
Lemma shl_align_spec (m : positive) (e : Z) :
  let '(mz, ez) := shl_align m e (fexp prec emax (Zdigits2 (Zpos m) + e)) in
  ez <= fexp prec emax (Zdigits2 (Zpos mz) + ez)
  /\ (-1074 <= e ->
      0 < Zpos mz / 2 ^ (fexp prec emax (Zdigits2 (Zpos mz) + ez) - ez)).
Proof.
  unfold shl_align.
  destruct (fexp prec emax (Zdigits2 (Zpos m) + e) - e) as [|d|d] eqn:Ed.
  - split; [lia|]. intros _. rewrite Ed. rewrite Z.div_1_r. lia.
  - split; [lia|]. intros He. rewrite Ed.
    apply (Zdigits2_shiftr (Zpos m) (Zpos d)); try lia.
    rewrite fexp_eq in Ed.
    pose proof (Zdigits2_pos (Zpos m) ltac:(lia)). lia.
  - rewrite iter_xO.
    rewrite (Zdigits2_shiftl (Zpos m) (Zpos d)) by lia.
    replace (Zdigits2 (Zpos m) + Zpos d
             + fexp prec emax (Zdigits2 (Zpos m) + e))
      with (Zdigits2 (Zpos m) + e) by lia.
    split; [lia|]. intros _.
    rewrite Z.sub_diag, Z.div_1_r.
    apply Z.mul_pos_pos; [lia|]. apply Z.pow_pos_nonneg; lia.
Qed.

Lemma binary_round_proper (s : bool) (m : positive) (e : Z) :
  proper (binary_round prec emax s m e)
  /\ has_sign s (binary_round prec emax s m e)
  /\ (-1074 <= e -> nonzero (binary_round prec emax s m e)).
Proof.
  unfold binary_round. pose proof (shl_align_spec m e) as H.
  change (Zpos (digits2_pos m)) with (Zdigits2 (Zpos m)).
  destruct (shl_align m e (fexp prec emax (Zdigits2 (Zpos m) + e)))
    as [mz ez].
  destruct H as [Hpre Hnz].
  destruct (binary_round_aux_sign s (Zpos mz) ez loc_Exact ltac:(lia) Hpre)
    as [Hs Hn].
  split; [|split].
  - apply binary_round_aux_proper; lia.
  - exact Hs.
  - intros He. apply Hn, Hnz, He.
Qed.

Lemma valid_finite (s : bool) (m : positive) (e : Z) :
  valid_binary prec emax (S754_finite s m e) = true ->
  fexp prec emax (Zdigits2 (Zpos m) + e) = e /\ e <= 971.
Proof.
  cbn [valid_binary]. unfold bounded, canonical_mantissa.
  rewrite andb_true_iff, Z.eqb_eq, Z.leb_le.
  change (emax - prec) with 971. tauto.
Qed.

Lemma Zdigits2_pow2 (k : Z) : 0 <= k -> Zdigits2 (2 ^ k) = k + 1.
Proof.
  intros Hk. apply Zdigits2_unique; [|lia].
  replace (k + 1 - 1) with k by lia. split; [lia|].
  apply Z.pow_lt_mono_r; lia.
Qed.

Lemma Zdigits2_mul (a b : Z) :
  0 < a -> 0 < b -> Zdigits2 a + Zdigits2 b - 1 <= Zdigits2 (a * b).
Proof.
  intros Ha Hb.
  pose proof (Zdigits2_bounds a Ha) as [Hla _].
  pose proof (Zdigits2_bounds b Hb) as [Hlb _].
  pose proof (Zdigits2_pos a Ha). pose proof (Zdigits2_pos b Hb).
  assert (Hp : 2 ^ (Zdigits2 a + Zdigits2 b - 2) <= a * b).
  { replace (Zdigits2 a + Zdigits2 b - 2)
      with ((Zdigits2 a - 1) + (Zdigits2 b - 1)) by lia.
    rewrite Z.pow_add_r by lia.
    apply Z.mul_le_mono_nonneg; try lia; apply Z.pow_nonneg; lia. }
  assert (H2 : 0 < 2 ^ (Zdigits2 a + Zdigits2 b - 2))
    by (apply Z.pow_pos_nonneg; lia).
  pose proof (Zdigits2_le _ _ H2 Hp) as Hd.
  rewrite Zdigits2_pow2 in Hd by lia. lia.
Qed.

Lemma Zdigits2_div (a b : Z) :
  0 < a -> 0 < b -> Zdigits2 a - Zdigits2 b <= Zdigits2 (a / b).
Proof.
  intros Ha Hb.
  pose proof (Zdigits2_bounds a Ha) as [Hla Hha].
  pose proof (Zdigits2_bounds b Hb) as [Hlb Hhb].
  pose proof (Zdigits2_pos a Ha). pose proof (Zdigits2_pos b Hb).
  pose proof (Z.div_pos a b ltac:(lia) Hb) as Hq.
  pose proof (Z.mul_succ_div_gt a b Hb) as Hlt.
  destruct (Z.eq_dec (a / b) 0) as [Hz|Hnz].
  - rewrite Hz in *. simpl Zdigits2.
    pose proof (Zdigits2_le a b Ha ltac:(lia)). lia.
  - pose proof (Zdigits2_bounds (a / b) ltac:(lia)) as [_ Hhq].
    pose proof (Zdigits2_pos (a / b) ltac:(lia)).
    assert (Hprod : a < 2 ^ (Zdigits2 (a / b) + Zdigits2 b)).
    { rewrite Z.pow_add_r by lia.
      apply Z.lt_le_trans with (b * Z.succ (a / b)); [exact Hlt|].
      rewrite Z.mul_comm.
      apply Z.mul_le_mono_nonneg; lia. }
    assert (2 ^ (Zdigits2 a - 1) < 2 ^ (Zdigits2 (a / b) + Zdigits2 b))
      by lia.
    apply Z.pow_lt_mono_r_iff in H2; lia.
Qed.

Lemma SFmul_proper (x y : spec_float) :
  proper x -> proper y ->
  ~ (is_infinity x /\ is_zero y) -> ~ (is_zero x /\ is_infinity y) ->
  proper (SFmul prec emax x y).
Proof.
  intros Hx Hy Hiz Hzi.
  destruct x as [sx|sx| |sx mx ex], y as [sy|sy| |sy my ey];
    cbn [SFmul proper valid_binary is_zero is_infinity] in *;
    try tauto; try reflexivity.
  destruct (valid_finite sx _ _ Hx) as [Cx Bx].
  destruct (valid_finite sy _ _ Hy) as [Cy By].
  apply binary_round_aux_proper; [lia|].
  pose proof (Zdigits2_mul (Zpos mx) (Zpos my) ltac:(lia) ltac:(lia)) as Hd.
  change (Zpos (mx * my)) with (Zpos mx * Zpos my).
  pose proof (Zdigits2_pos (Zpos mx) ltac:(lia)).
  pose proof (Zdigits2_pos (Zpos my) ltac:(lia)).
  rewrite fexp_eq in *. lia.
Qed.

Lemma SFdiv_core_binary_spec (m1 m2 : positive) (e1 e2 : Z) :
  fexp prec emax (Zdigits2 (Zpos m1) + e1) = e1 ->
  fexp prec emax (Zdigits2 (Zpos m2) + e2) = e2 ->
  let '(q, e', l) := SFdiv_core_binary prec emax (Zpos m1) e1 (Zpos m2) e2 in
  0 <= q /\ e' <= fexp prec emax (Zdigits2 q + e').
Proof.
  intros C1 C2. unfold SFdiv_core_binary.
  set (d1 := Zdigits2 (Zpos m1)) in *. set (d2 := Zdigits2 (Zpos m2)) in *.
  assert (Hd1 : 0 < d1) by (apply Zdigits2_pos; lia).
  assert (Hd2 : 0 < d2) by (apply Zdigits2_pos; lia).
  set (e' := Z.min (fexp prec emax (d1 + e1 - (d2 + e2))) (e1 - e2)).
  set (s := e1 - e2 - e').
  assert (Hs : 0 <= s) by (unfold s, e'; lia).
  set (m' := match s with
             | 0 => Zpos m1
             | Zpos _ => Z.shiftl (Zpos m1) s
             | Zneg _ => 0
             end).
  assert (Hm' : m' = Zpos m1 * 2 ^ s).
  { unfold m'. destruct s as [|p|p] eqn:Es; try lia.
    apply Z.shiftl_mul_pow2. lia. }
  assert (Hm'pos : 0 < m').
  { rewrite Hm'. apply Z.mul_pos_pos; [lia|]. apply Z.pow_pos_nonneg; lia. }
  pose proof (Z_div_mod m' (Zpos m2) ltac:(lia)) as Hdm.
  unfold Z.div, Z.modulo in *.
  pose proof (Zdigits2_div m' (Zpos m2) Hm'pos ltac:(lia)) as Hdq.
  pose proof (Z.div_pos m' (Zpos m2) ltac:(lia) ltac:(lia)) as Hq.
  unfold Z.div in Hdq, Hq.
  destruct (Z.div_eucl m' (Zpos m2)) as [q r]. split; [exact Hq|].
  fold d2 in Hdq.
  assert (Hdm' : Zdigits2 m' = d1 + s)
    by (rewrite Hm'; apply Zdigits2_shiftl; lia).
  rewrite Hdm' in Hdq.
  rewrite fexp_eq in *. unfold s, e' in *. rewrite fexp_eq in *. lia.
Qed.

Lemma SFdiv_proper (x y : spec_float) :
  proper x -> proper y -> has_mantissa y -> proper (SFdiv prec emax x y).
Proof.
  intros Hx Hy Hf.
  destruct x as [sx|sx| |sx mx ex], y as [sy|sy| |sy my ey];
    cbn [SFdiv proper valid_binary has_mantissa] in *; try tauto; try reflexivity.
  destruct (valid_finite sx _ _ Hx) as [Cx Bx].
  destruct (valid_finite sy _ _ Hy) as [Cy By].
  pose proof (SFdiv_core_binary_spec mx my ex ey Cx Cy) as H.
  destruct (SFdiv_core_binary prec emax (Zpos mx) ex (Zpos my) ey)
    as [[q e'] l].
  destruct H as [Hq He]. now apply binary_round_aux_proper.
Qed.

Lemma binary_normalize_proper (n e : Z) (sz : bool) :
  proper (binary_normalize prec emax n e sz).
Proof.
  destruct n as [|p|p]; cbn [binary_normalize]; [reflexivity| |];
    apply binary_round_proper.
Qed.

(** ** Every number of the format is a whole multiple of 2^-1074 *)

Lemma valid_finite_range (s : bool) (m : positive) (e : Z) :
  valid_binary prec emax (S754_finite s m e) = true ->
  -1074 <= e <= 971
  /\ Zpos m < 2 ^ 53
  /\ (e = -1074 \/ 2 ^ 52 <= Zpos m).
Proof.
  intros Hv. destruct (valid_finite s m e Hv) as [Hc Hb].
  rewrite fexp_eq in Hc.
  pose proof (Zdigits2_bounds (Zpos m) ltac:(lia)) as [Hlo Hhi].
  pose proof (Zdigits2_pos (Zpos m) ltac:(lia)) as Hd.
  split; [lia|]. split.
  - apply Z.lt_le_trans with (2 ^ Zdigits2 (Zpos m)); [exact Hhi|].
    apply Z.pow_le_mono_r; lia.
  - destruct (Z.eq_dec e (-1074)) as [|Hne]; [now left | right].
    replace 52 with (Zdigits2 (Zpos m) - 1) by lia. exact Hlo.
Qed.

Lemma scaled_finite_bound (s : bool) (m : positive) (e : Z) :
  valid_binary prec emax (S754_finite s m e) = true ->
  0 < Zpos m * 2 ^ (e + 1074) < big.
Proof.
  intros Hv. destruct (valid_finite_range s m e Hv) as [He [Hm _]].
  assert (Hp : 0 < 2 ^ (e + 1074)) by (apply Z.pow_pos_nonneg; lia).
  split; [apply Z.mul_pos_pos; lia|].
  apply Z.lt_le_trans with (2 ^ 53 * 2 ^ (e + 1074)).
  - apply Z.mul_lt_mono_pos_r; lia.
  - rewrite <- Z.pow_add_r by lia. apply Z.pow_le_mono_r; lia.
Qed.

(** Mantissas of one sign compare as mantissa and exponent do. *)
Lemma scaled_compare_pos (mx my : positive) (ex ey : Z) :
  valid_binary prec emax (S754_finite false mx ex) = true ->
  valid_binary prec emax (S754_finite false my ey) = true ->
  match ex ?= ey with
  | Lt => Lt
  | Gt => Gt
  | Eq => Pos.compare_cont Eq mx my
  end = (Zpos mx * 2 ^ (ex + 1074) ?= Zpos my * 2 ^ (ey + 1074)).
Proof.
  intros Hx Hy.
  destruct (valid_finite_range _ _ _ Hx) as [Ex [Mx Nx]].
  destruct (valid_finite_range _ _ _ Hy) as [Ey [My Ny]].
  assert (Hlt : forall (m n : positive) (e f : Z),
             -1074 <= e -> e < f -> Zpos m < 2 ^ 53 -> 2 ^ 52 <= Zpos n ->
             Zpos m * 2 ^ (e + 1074) < Zpos n * 2 ^ (f + 1074)).
  { intros m n e f He Hef Hm Hn.
    replace (f + 1074) with ((f - e) + (e + 1074)) by lia.
    rewrite (Z.pow_add_r 2 (f - e) (e + 1074)) by lia.
    assert (0 < 2 ^ (e + 1074)) by (apply Z.pow_pos_nonneg; lia).
    assert (2 ^ 1 <= 2 ^ (f - e)) by (apply Z.pow_le_mono_r; lia).
    rewrite Z.mul_assoc. apply Z.mul_lt_mono_pos_r; [lia|].
    change (2 ^ 1) with 2 in *. nia. }
  symmetry. destruct (Z.compare_spec ex ey) as [->|Hl|Hg].
  - rewrite <- Zmult_compare_compat_r
      by (apply Z.lt_gt, Z.pow_pos_nonneg; lia).
    reflexivity.
  - apply Z.compare_lt_iff, Hlt; lia.
  - apply Z.compare_gt_iff, Hlt; lia.
Qed.

Lemma SFcompare_scaled (x y : spec_float) :
  proper x -> proper y ->
  SFcompare x y = Some (scaled x ?= scaled y).
Proof.
  intros Hx Hy.
  destruct x as [sx|sx| |sx mx ex], y as [sy|sy| |sy my ey];
    cbn [proper] in Hx, Hy; try contradiction.
  all: try (destruct sx, sy; reflexivity).
  - (* zero, finite *)
    pose proof (scaled_finite_bound sy my ey Hy).
    cbn [SFcompare scaled]. destruct sy; cbn [cond_Zopp]; f_equal;
      symmetry; [apply Z.compare_gt_iff | apply Z.compare_lt_iff]; lia.
  - (* infinity, finite *)
    pose proof (scaled_finite_bound sy my ey Hy).
    cbn [SFcompare scaled]. destruct sx, sy; cbn [cond_Zopp]; f_equal;
      symmetry; try (apply Z.compare_gt_iff; lia);
      try (apply Z.compare_lt_iff; lia).
  - (* finite, zero *)
    pose proof (scaled_finite_bound sx mx ex Hx).
    cbn [SFcompare scaled]. destruct sx; cbn [cond_Zopp]; f_equal;
      symmetry; [apply Z.compare_lt_iff | apply Z.compare_gt_iff]; lia.
  - (* finite, infinity *)
    pose proof (scaled_finite_bound sx mx ex Hx).
    cbn [SFcompare scaled]. destruct sx, sy; cbn [cond_Zopp]; f_equal;
      symmetry; try (apply Z.compare_gt_iff; lia);
      try (apply Z.compare_lt_iff; lia).
  - (* finite, finite *)
    pose proof (scaled_finite_bound sx mx ex Hx).
    pose proof (scaled_finite_bound sy my ey Hy).
    cbn [SFcompare scaled]. destruct sx, sy; cbn [cond_Zopp]; f_equal.
    + rewrite Z.compare_opp.
      rewrite <- (scaled_compare_pos my mx ey ex Hy Hx).
      rewrite (Z.compare_antisym ey ex), (Pos.compare_cont_antisym mx my Eq).
      destruct (ey ?= ex); reflexivity.
    + symmetry. apply Z.compare_lt_iff. lia.
    + symmetry. apply Z.compare_gt_iff. lia.
    + apply scaled_compare_pos; assumption.
Qed.

Lemma SFltb_scaled (x y : spec_float) :
  proper x -> proper y -> SFltb x y = (scaled x <? scaled y).
Proof.
  intros Hx Hy. unfold SFltb, Z.ltb. rewrite (SFcompare_scaled x y Hx Hy).
  reflexivity.
Qed.

Lemma SFleb_scaled (x y : spec_float) :
  proper x -> proper y -> SFleb x y = (scaled x <=? scaled y).
Proof.
  intros Hx Hy. unfold SFleb, Z.leb. rewrite (SFcompare_scaled x y Hx Hy).
  destruct (scaled x ?= scaled y); reflexivity.
Qed.

Lemma shl_align_fst (m : positive) (e e' : Z) :
  e' <= e -> Zpos (fst (shl_align m e e')) = Zpos m * 2 ^ (e - e').
Proof.
  intros He. unfold shl_align.
  destruct (e' - e) as [|d|d] eqn:Ed; cbn [fst].
  - replace (e - e') with 0 by lia. lia.
  - lia.
  - rewrite iter_xO. f_equal. f_equal. lia.
Qed.

Lemma SFltb_zero_normalize (z e : Z) :
  -1074 <= e ->
  SFltb (S754_zero false) (binary_normalize prec emax z e false) = (0 <? z).
Proof.
  intros He. destruct z as [|p|p]; cbn [binary_normalize]; [reflexivity| |].
  - destruct (binary_round_proper false p e) as [_ [Hs Hn]].
    specialize (Hn He).
    destruct (binary_round prec emax false p e) as [s|s| |s m' e'];
      cbn [has_sign nonzero] in *; try contradiction; subst; reflexivity.
  - destruct (binary_round_proper true p e) as [_ [Hs Hn]].
    specialize (Hn He).
    destruct (binary_round prec emax true p e) as [s|s| |s m' e'];
      cbn [has_sign nonzero] in *; try contradiction; subst; reflexivity.
Qed.

(** The sign of a difference tells which operand is greater. *)
Lemma SFsub_positive (x y : spec_float) :
  proper x -> proper y ->
  SFltb (S754_zero false) (SFsub prec emax x y) = SFltb y x.
Proof.
  intros Hx Hy.
  destruct x as [sx|sx| |sx mx ex], y as [sy|sy| |sy my ey];
    cbn [proper] in Hx, Hy; try contradiction.
  all: try (destruct sx, sy; reflexivity).
  (* finite, finite *)
  - rewrite (SFltb_scaled (S754_finite sy my ey) (S754_finite sx mx ex)
               Hy Hx).
    cbn [SFsub].
    destruct (valid_finite_range _ _ _ Hx) as [Ex _].
    destruct (valid_finite_range _ _ _ Hy) as [Ey _].
    rewrite SFltb_zero_normalize by lia.
    rewrite !shl_align_fst by lia. cbn [scaled].
    set (ez := Z.min ex ey).
    assert (Hp : 0 < 2 ^ (ez + 1074))
      by (apply Z.pow_pos_nonneg; unfold ez; lia).
    assert (Sx : forall (s : bool) (m : positive) (e : Z),
               ez <= e ->
               cond_Zopp s (Zpos m * 2 ^ (e + 1074))
               = cond_Zopp s (Zpos m * 2 ^ (e - ez)) * 2 ^ (ez + 1074)).
    { intros s m e He.
      replace (e + 1074) with ((e - ez) + (ez + 1074)) by lia.
      rewrite (Z.pow_add_r 2 (e - ez) (ez + 1074)) by (unfold ez in *; lia).
      destruct s; cbn [cond_Zopp]; lia. }
    rewrite (Sx sx mx ex), (Sx sy my ey) by (unfold ez; lia).
    set (zx := cond_Zopp sx (Zpos mx * 2 ^ (ex - ez))).
    set (zy := cond_Zopp sy (Zpos my * 2 ^ (ey - ez))).
    destruct (Z.ltb_spec 0 (zx - zy)), (Z.ltb_spec (zy * 2 ^ (ez + 1074))
                                          (zx * 2 ^ (ez + 1074)));
      trivial; nia.
Qed.

(** ** The operations of the calculator on proper numbers *)

Lemma round_proper (x : t) : proper x -> proper (round x).
Proof.
  destruct x as [s|s| |s m e]; trivial. intros Hx. cbn [round].
  destruct (0 <=? e); [exact Hx|].
  match goal with |- context [?n =? 0] => destruct (n =? 0) end;
    [reflexivity | apply binary_normalize_proper].
Qed.

Lemma finite_proper (x : t) : finite x -> proper x.
Proof. destruct x; cbn [finite]; trivial; contradiction. Qed.

Lemma mul_proper (x y : t) : finite x -> finite y -> proper (x * y)%js.
Proof.
  intros Hx Hy. apply SFmul_proper; try now apply finite_proper.
  - intros [H _]. now destruct x.
  - intros [_ H]. now destruct y.
Qed.

Lemma round_to_100_proper (x : t) : proper x -> proper (round_to 100 x).
Proof.
  intros Hx. unfold round_to.
  apply SFdiv_proper; [apply round_proper, SFmul_proper; trivial| |].
  - reflexivity.
  - intros [_ H]. exact H.
  - intros [_ H]. exact H.
  - reflexivity.
  - exact I.
Qed.

(** ** The comparator [a - b] of [sort] on proper numbers *)

Lemma sub_above (a b : t) :
  proper a -> proper b ->
  (a - b > int 0)%js = true -> (b <= a)%js = true /\ (a <= b)%js = false.
Proof.
  intros Ha Hb.
  change (SFltb (S754_zero false) (SFsub prec emax a b) = true
          -> SFleb b a = true /\ SFleb a b = false).
  rewrite SFsub_positive, SFltb_scaled, !SFleb_scaled by assumption.
  lia.
Qed.

Lemma sub_not_above (a b : t) :
  proper a -> proper b ->
  (a - b > int 0)%js = false -> (a <= b)%js = true.
Proof.
  intros Ha Hb.
  change (SFltb (S754_zero false) (SFsub prec emax a b) = false
          -> SFleb a b = true).
  rewrite SFsub_positive, SFltb_scaled, SFleb_scaled by assumption.
  lia.
Qed.

Lemma le_trans (a b c : t) :
  proper a -> proper b -> proper c ->
  (a <= b)%js = true -> (b <= c)%js = true -> (a <= c)%js = true.
Proof.
  intros Ha Hb Hc.
  change (SFleb a b = true -> SFleb b c = true -> SFleb a c = true).
  rewrite !SFleb_scaled by assumption. lia.
Qed.

(** ** Rounding to nearest: the error of an operation *)

Lemma shr_1_recorded (N D : Z) (mrs : shr_record) :
  0 < D -> recorded N D mrs -> recorded N (2 * D) (shr_1 mrs).
Proof.
  intros HD. destruct mrs as [m r s]. unfold recorded. cbn [shr_m shr_r shr_s].
  intros (Hm & Hb & Hf & Ht & Hs).
  destruct m as [|[p|p|]|p]; try lia;
    cbn [shr_1 shr_m shr_r shr_s];
    (split; [lia|]); (split; [nia|]);
    (split; [intros; try discriminate; nia|]);
    (split; [intros; try discriminate; nia|]);
    intros Hor; apply orb_false_iff in Hor; destruct Hor as [-> ->];
    specialize (Hs eq_refl); nia.
Qed.

Lemma iter_shr_1_recorded (p : positive) (N D : Z) (mrs : shr_record) :
  0 < D -> recorded N D mrs ->
  recorded N (D * 2 ^ Zpos p) (iter_pos shr_1 p mrs).
Proof.
  revert D mrs. induction p as [p IH|p IH|]; intros D mrs HD H;
    simpl iter_pos.
  - assert (Hp : 0 < 2 ^ Zpos p) by (apply Z.pow_pos_nonneg; lia).
    replace (D * 2 ^ Zpos p~1) with (2 * D * 2 ^ Zpos p * 2 ^ Zpos p).
    + apply IH; [nia|]. apply IH; [lia|]. now apply shr_1_recorded.
    + replace (Zpos p~1) with (1 + Zpos p + Zpos p) by lia.
      rewrite !Z.pow_add_r by lia. lia.
  - assert (Hp : 0 < 2 ^ Zpos p) by (apply Z.pow_pos_nonneg; lia).
    replace (D * 2 ^ Zpos p~0) with (D * 2 ^ Zpos p * 2 ^ Zpos p).
    + apply IH; [nia|]. now apply IH.
    + replace (Zpos p~0) with (Zpos p + Zpos p) by lia.
      rewrite !Z.pow_add_r by lia. lia.
  - replace (D * 2 ^ 1) with (2 * D) by lia. now apply shr_1_recorded.
Qed.

Lemma shr_fexp_recorded (N D m e : Z) (l : location) :
  0 < D -> located N D m l ->
  e <= fexp prec emax (Zdigits2 m + e) ->
  recorded N (D * 2 ^ (fexp prec emax (Zdigits2 m + e) - e))
    (fst (shr_fexp prec emax m e l)).
Proof.
  intros HD Hl He. unfold shr_fexp, shr.
  destruct (fexp prec emax (Zdigits2 m + e) - e) as [|p|p] eqn:En;
    cbn [fst]; try lia.
  - now rewrite Z.mul_1_r.
  - now apply iter_shr_1_recorded.
Qed.

(** Rounding to nearest moves the mantissa by half_up a unit at most. *)
Lemma round_nearest_even_recorded (N D : Z) (mrs : shr_record) :
  0 < D -> recorded N D mrs ->
  let m2 := round_nearest_even (shr_m mrs) (loc_of_shr_record mrs) in
  2 * (m2 * D - N) <= D /\ 2 * (N - m2 * D) <= D.
Proof.
  intros HD. destruct mrs as [m r s]. unfold recorded.
  cbn [shr_m shr_r shr_s]. intros (Hm & Hb & Hf & Ht & Hs).
  destruct r, s; cbn [loc_of_shr_record round_nearest_even];
    try specialize (Hf eq_refl); try specialize (Ht eq_refl);
    try specialize (Hs eq_refl); try (destruct (Z.even m)); nia.
Qed.

Lemma first_shift_short (m e : Z) :
  0 <= m -> e <= fexp prec emax (Zdigits2 m + e) ->
  m / 2 ^ (fexp prec emax (Zdigits2 m + e) - e) < 2 ^ 53.
Proof.
  intros Hm He. set (k := fexp prec emax (Zdigits2 m + e) - e).
  assert (Hk : 0 <= k) by (unfold k; lia).
  assert (Hp : 0 < 2 ^ k) by (apply Z.pow_pos_nonneg; lia).
  apply Z.div_lt_upper_bound; [exact Hp|].
  rewrite <- Z.pow_add_r by lia.
  destruct (Z.eq_dec m 0) as [->|Hnz]; [apply Z.pow_pos_nonneg; lia|].
  pose proof (Zdigits2_bounds m ltac:(lia)) as [_ Hhi].
  apply Z.lt_le_trans with (2 ^ Zdigits2 m); [exact Hhi|].
  apply Z.pow_le_mono_r; [lia|]. unfold k. rewrite fexp_eq. lia.
Qed.

(** The number that [binary_round_aux] returns is the rounded mantissa
    at the exponent of the format, in units of [2^-1074]. *)
Lemma binary_round_aux_value (s : bool) (m e : Z) (l : location) :
  0 <= m -> e <= fexp prec emax (Zdigits2 m + e) ->
  let e1 := fexp prec emax (Zdigits2 m + e) in
  let mrs := fst (shr_fexp prec emax m e l) in
  let m2 := round_nearest_even (shr_m mrs) (loc_of_shr_record mrs) in
  match binary_round_aux prec emax s m e l with
  | S754_zero s' => s' = s /\ m2 = 0
  | S754_finite s' mr er =>
      s' = s /\ Zpos mr * 2 ^ (er + 1074) = m2 * 2 ^ (e1 + 1074)
  | S754_infinity s' => s' = s /\ 2 ^ 2098 <= m2 * 2 ^ (e1 + 1074)
  | S754_nan => False
  end.
Proof.
  intros Hm He e1 mrs m2. unfold binary_round_aux.
  pose proof (first_shift_short m e Hm He) as Hshort.
  destruct (shr_fexp_spec m e l Hm He) as [Hm1 He1].
  subst mrs m2.
  destruct (shr_fexp prec emax m e l) as [mrs' e'].
  cbn [fst snd] in *.
  set (m2 := round_nearest_even (shr_m mrs') (loc_of_shr_record mrs')).
  pose proof (round_nearest_even_bounds (shr_m mrs') (loc_of_shr_record mrs'))
    as Hrne. fold m2 in Hrne.
  assert (Hm1nn : 0 <= shr_m mrs').
  { rewrite Hm1. apply Z.div_pos; [lia|]. apply Z.pow_pos_nonneg; lia. }
  assert (He' : e' = e1) by (unfold e1; lia).
  destruct (Z.eq_dec m2 0) as [Hz|Hnz].
  - rewrite Hz.
    assert (Hz' : shr_m (fst (shr_fexp prec emax 0 e' loc_Exact)) = 0).
    { apply shr_fexp_zero.
      rewrite He'. unfold e1. rewrite (first_shift_zero m e Hm He) by lia.
      rewrite fexp_eq. lia. }
    destruct (shr_fexp prec emax 0 e' loc_Exact) as [mrs'' e''].
    cbn [fst] in Hz'. rewrite Hz'. split; reflexivity.
  - assert (Hpos : 0 < m2) by lia.
    assert (Hle : m / 2 ^ (fexp prec emax (Zdigits2 m + e) - e) <= m2)
      by (rewrite <- Hm1; lia).
    pose proof (second_shift m e m2 Hm He Hle Hpos) as Hs.
    cbv zeta in Hs. fold e1 in Hs. rewrite <- He' in Hs.
    destruct (shr_fexp_spec m2 e' loc_Exact ltac:(lia) (proj1 Hs))
      as [Hmf Hef].
    destruct (shr_fexp prec emax m2 e' loc_Exact) as [mrs'' e''].
    cbn [fst snd] in Hmf, Hef.
    set (n2 := fexp prec emax (Zdigits2 m2 + e') - e') in *.
    assert (Hn2 : 0 <= n2 < Zdigits2 m2) by (unfold n2; lia).
    destruct (Zdigits2_shiftr m2 n2 Hpos (proj1 Hn2) (proj2 Hn2))
      as [Hfpos Hfd].
    (* the second shift is exact *)
    assert (Hexact : shr_m mrs'' * 2 ^ n2 = m2).
    { rewrite Hmf. destruct (Z.eq_dec n2 0) as [->|Hn0].
      - rewrite Z.div_1_r. lia.
      - assert (Hd2 : 54 <= Zdigits2 m2).
        { unfold n2 in Hn0, Hn2. rewrite fexp_eq in *. unfold e1 in He'.
          rewrite fexp_eq in He'. lia. }
        pose proof (Zdigits2_bounds m2 Hpos) as [Hlo _].
        assert (2 ^ 53 <= 2 ^ (Zdigits2 m2 - 1))
          by (apply Z.pow_le_mono_r; lia).
        assert (Hm2 : m2 = 2 ^ 53) by lia.
        assert (Hn1 : n2 = 1).
        { unfold n2 in *. rewrite Hm2 in *.
          rewrite Zdigits2_pow2 in * by lia. rewrite fexp_eq in *. lia. }
        rewrite Hn1, Hm2. reflexivity. }
    rewrite <- Hmf in Hfpos, Hfd.
    assert (Hval : shr_m mrs'' * 2 ^ (e'' + 1074) = m2 * 2 ^ (e1 + 1074)).
    { rewrite <- Hexact. replace (e'' + 1074) with (n2 + (e1 + 1074)) by lia.
      rewrite Z.pow_add_r; [lia|lia|]. unfold e1. rewrite fexp_eq. lia. }
    destruct (shr_m mrs'') as [|mf|mf]; try lia.
    destruct (e'' <=? emax - prec) eqn:Hb; (split; [reflexivity|]).
    + exact Hval.
    + rewrite <- Hval. apply Z.leb_gt in Hb. change (emax - prec) with 971 in Hb.
      (* a canonical mantissa above the largest exponent *)
      assert (Hd : Zdigits2 (Zpos mf) = 53).
      { unfold n2 in Hfd. rewrite fexp_eq in *. lia. }
      pose proof (Zdigits2_bounds (Zpos mf) ltac:(lia)) as [Hlo _].
      rewrite Hd in Hlo. change (53 - 1) with 52 in Hlo.
      replace 2098 with (52 + 2046) by lia.
      rewrite Z.pow_add_r by lia.
      apply Z.mul_le_mono_nonneg; try lia.
      apply Z.pow_le_mono_r; lia.
Qed.

Lemma first_shift_normal (m e : Z) :
  0 <= m -> e <= fexp prec emax (Zdigits2 m + e) ->
  -1074 < fexp prec emax (Zdigits2 m + e) ->
  2 ^ 52 <= m / 2 ^ (fexp prec emax (Zdigits2 m + e) - e).
Proof.
  intros Hm He Hn. rewrite fexp_eq in *.
  assert (Hmpos : 0 < m).
  { destruct (Z.eq_dec m 0) as [Hz|]; [|lia]. rewrite Hz in *.
    simpl Zdigits2 in *. lia. }
  replace (Z.max (Zdigits2 m + e - 53) (-1074)) with (Zdigits2 m + e - 53)
    in * by lia.
  destruct (Zdigits2_shiftr m (Zdigits2 m + e - 53 - e) Hmpos
              ltac:(lia) ltac:(lia)) as [H1 H1d].
  pose proof (Zdigits2_bounds _ H1) as [Hlo _].
  rewrite H1d in Hlo.
  replace (Zdigits2 m - (Zdigits2 m + e - 53 - e) - 1) with 52 in Hlo by lia.
  exact Hlo.
Qed.

Lemma binary_round_aux_rounded (m e N D : Z) (l : location) :
  0 < D -> located N D m l ->
  0 <= m -> e <= fexp prec emax (Zdigits2 m + e) ->
  rounded (N * 2 ^ Z.max (e + 1074) 0) (D * 2 ^ Z.max (- 1074 - e) 0)
    (binary_round_aux prec emax false m e l).
Proof.
  intros HD Hl Hm He.
  split; [now apply binary_round_aux_proper|].
  pose proof (binary_round_aux_value false m e l Hm He) as Hv.
  pose proof (shr_fexp_recorded N D m e l HD Hl He) as Hrec.
  destruct (shr_fexp_spec m e l Hm He) as [Hm1 _].
  cbv zeta in Hv.
  set (e1 := fexp prec emax (Zdigits2 m + e)) in *.
  set (mrs := fst (shr_fexp prec emax m e l)) in *.
  set (k := e1 - e) in *.
  assert (Hk : 0 <= k) by (unfold k; lia).
  assert (HK : 0 < 2 ^ k) by (apply Z.pow_pos_nonneg; lia).
  assert (HD1 : 0 < D * 2 ^ k) by (apply Z.mul_pos_pos; lia).
  pose proof (round_nearest_even_recorded N (D * 2 ^ k) mrs HD1 Hrec) as Hrne.
  cbv zeta in Hrne.
  set (m2 := round_nearest_even (shr_m mrs) (loc_of_shr_record mrs)) in *.
  set (a := Z.max (e + 1074) 0). set (b := Z.max (- 1074 - e) 0).
  assert (He1 : -1074 <= e1) by (unfold e1; rewrite fexp_eq; lia).
  assert (Hab : e1 + 1074 + b = k + a) by (unfold a, b, k; lia).
  assert (HA : 0 < 2 ^ a) by (apply Z.pow_pos_nonneg; unfold a; lia).
  assert (HB : 0 < 2 ^ b) by (apply Z.pow_pos_nonneg; unfold b; lia).
  (* the value returned, against the exact value *)
  assert (Hprod : forall R, R = m2 * 2 ^ (e1 + 1074) ->
            D * 2 ^ b * R - N * 2 ^ a = 2 ^ a * (m2 * (D * 2 ^ k) - N)).
  { intros R ->.
    replace (D * 2 ^ b * (m2 * 2 ^ (e1 + 1074)))
      with (m2 * D * (2 ^ (e1 + 1074) * 2 ^ b)) by ring.
    rewrite <- Z.pow_add_r by (unfold b; lia). rewrite Hab.
    rewrite Z.pow_add_r by (unfold a; lia). ring. }
  assert (Hrec' := Hrec). destruct Hrec' as (Hm1nn & Hbnd & _).
  (* half_up a unit of the last place, relative to the value or absolute *)
  assert (HN : 0 <= N).
  { assert (0 <= shr_m mrs * (D * 2 ^ k))
      by (apply Z.mul_nonneg_nonneg; lia).
    lia. }
  assert (HNa : 0 <= N * 2 ^ a) by (apply Z.mul_nonneg_nonneg; lia).
  assert (HDb : 0 < D * 2 ^ b) by (apply Z.mul_pos_pos; lia).
  assert (Herr : 2 ^ 53 * (2 ^ a * (D * 2 ^ k))
                 <= 2 * (N * 2 ^ a + 2 ^ 52 * (D * 2 ^ b))).
  { destruct (Z.eq_dec e1 (-1074)) as [Hsub|Hnorm].
    - assert (Hkab : k + a = b) by lia.
      replace (2 ^ a * (D * 2 ^ k)) with (D * 2 ^ (k + a))
        by (rewrite Z.pow_add_r by (unfold a; lia); ring).
      rewrite Hkab. lia.
    - pose proof (first_shift_normal m e Hm He ltac:(fold e1; lia)) as H52.
      fold e1 in H52. fold k in H52.
      assert (Hm1' : shr_m mrs = m / 2 ^ k) by exact Hm1.
      rewrite <- Hm1' in H52.
      assert (H1 : 2 ^ 52 * (D * 2 ^ k) <= shr_m mrs * (D * 2 ^ k))
        by (apply Z.mul_le_mono_nonneg_r; lia).
      assert (H2 : 2 ^ a * (2 ^ 52 * (D * 2 ^ k)) <= 2 ^ a * N)
        by (apply Z.mul_le_mono_nonneg_l; lia).
      lia. }
  assert (Hbound : forall R, R = m2 * 2 ^ (e1 + 1074) ->
            - (N * 2 ^ a + 2 ^ 52 * (D * 2 ^ b))
            <= 2 ^ 53 * (D * 2 ^ b * R - N * 2 ^ a)
            <= N * 2 ^ a + 2 ^ 52 * (D * 2 ^ b)).
  { intros R HR. rewrite (Hprod R HR).
    destruct Hrne as [Hr1 Hr2].
    assert (H1 : 2 ^ a * (2 * (m2 * (D * 2 ^ k) - N)) <= 2 ^ a * (D * 2 ^ k))
      by (apply Z.mul_le_mono_nonneg_l; lia).
    assert (H2 : 2 ^ a * (2 * (N - m2 * (D * 2 ^ k))) <= 2 ^ a * (D * 2 ^ k))
      by (apply Z.mul_le_mono_nonneg_l; lia).
    lia. }
  unfold near, over, top.
  destruct (binary_round_aux prec emax false m e l) as [s'|s'| |s' mr er].
  - destruct Hv as [_ Hz]. apply Hbound. cbn [scaled]. rewrite Hz. lia.
  - destruct Hv as [-> Hbig].
    set (R := m2 * 2 ^ (e1 + 1074)) in *.
    pose proof (Hbound R eq_refl) as [_ Hup].
    assert (H1 : D * 2 ^ b * 2 ^ 2098 <= D * 2 ^ b * R)
      by (apply Z.mul_le_mono_nonneg_l; lia).
    lia.
  - exact Hv.
  - destruct Hv as [-> Hval]. apply Hbound. cbn [scaled cond_Zopp].
    exact Hval.
Qed.

Lemma one_pos : 0 < one.
Proof. reflexivity. Qed.

Lemma rounded_nonneg (N D : Z) (r : t) : rounded N D r -> nonneg r.
Proof.
  intros [Hp H]. split; [exact Hp|].
  destruct r as [s|[]| |[] m e]; trivial.
Qed.

(** The bounds depend on the quotient [N / D] only. *)
Lemma rounded_scale (N D N2 D2 : Z) (r : t) :
  0 < D -> 0 < D2 -> N * D2 = N2 * D -> rounded N D r -> rounded N2 D2 r.
Proof.
  intros HD HD2 Heq [Hp H]. split; [exact Hp|].
  unfold near, over, top in *.
  assert (Hfin : forall R,
            - (N + 2 ^ 52 * D) <= 2 ^ 53 * (D * R - N) <= N + 2 ^ 52 * D ->
            - (N2 + 2 ^ 52 * D2) <= 2 ^ 53 * (D2 * R - N2)
            <= N2 + 2 ^ 52 * D2).
  { intros R [H1 H2].
    assert (H1' : D2 * - (N + 2 ^ 52 * D) <= D2 * (2 ^ 53 * (D * R - N)))
      by (apply Z.mul_le_mono_nonneg_l; lia).
    assert (H2' : D2 * (2 ^ 53 * (D * R - N)) <= D2 * (N + 2 ^ 52 * D))
      by (apply Z.mul_le_mono_nonneg_l; lia).
    split; apply Z.mul_le_mono_pos_l with (p := D); lia. }
  destruct r as [s|[]| |[] m e]; trivial; try (now apply Hfin).
  assert (H' : D2 * (2 ^ 53 * (D * 2 ^ 2098))
               <= D2 * ((2 ^ 53 + 1) * N + 2 ^ 52 * D))
    by (apply Z.mul_le_mono_nonneg_l; lia).
  apply Z.mul_le_mono_pos_l with (p := D); lia.
Qed.

(** A finite number that is not negative is its own rounding. *)
Lemma rounded_self (x : t) :
  nonneg x -> finite x -> rounded (scaled x) 1 x.
Proof.
  intros [Hp Hs] Hf. split; [exact Hp|].
  destruct x as [s|[]| |[] m e]; try contradiction;
    unfold near; cbn [scaled cond_Zopp].
  - lia.
  - assert (0 < Zpos m * 2 ^ (e + 1074)).
    { apply Z.mul_pos_pos; [lia|]. apply Z.pow_pos_nonneg; [lia|].
      destruct (valid_finite_range _ _ _ Hp) as [He _]. lia. }
    lia.
Qed.

Lemma scaled_finite (m : positive) (e : Z) (s : bool) :
  scaled (S754_finite s m e) = cond_Zopp s (Zpos m * 2 ^ (e + 1074)).
Proof. reflexivity. Qed.

Lemma located_exact (m : Z) : 0 <= m -> located m 1 m loc_Exact.
Proof.
  intros Hm. unfold located, recorded.
  cbn [shr_record_of_loc shr_m shr_r shr_s]. repeat split; intros; lia.
Qed.

(** ** Multiplication *)
Lemma SFmul_rounded (x y : t) :
  nonneg x -> finite x -> nonneg y -> finite y ->
  rounded (scaled x * scaled y) one (SFmul prec emax x y).
Proof.
  intros [Px Sx] Fx [Py Sy] Fy.
  destruct x as [sx|[]| |[] mx ex], y as [sy|[]| |[] my ey];
    try contradiction; cbn [SFmul xorb];
    try (split; [reflexivity|]; unfold near; cbn [scaled cond_Zopp];
         rewrite ?Z.mul_0_l, ?Z.mul_0_r; unfold one; lia).
  destruct (valid_finite_range _ _ _ Px) as [Ex _].
  destruct (valid_finite_range _ _ _ Py) as [Ey _].
  destruct (valid_finite _ _ _ Px) as [Cx _].
  destruct (valid_finite _ _ _ Py) as [Cy _].
  set (e := ex + ey).
  assert (Hpre : e <= fexp prec emax (Zdigits2 (Zpos (mx * my)) + e)).
  { pose proof (Zdigits2_mul (Zpos mx) (Zpos my) ltac:(lia) ltac:(lia)) as Hd.
    change (Zpos (mx * my)) with (Zpos mx * Zpos my).
    pose proof (Zdigits2_pos (Zpos mx) ltac:(lia)).
    pose proof (Zdigits2_pos (Zpos my) ltac:(lia)).
    unfold e. rewrite fexp_eq in *. lia. }
  pose proof (binary_round_aux_rounded (Zpos (mx * my)) e (Zpos (mx * my)) 1
                loc_Exact ltac:(lia)
                (located_exact (Zpos (mx * my)) ltac:(lia))
                ltac:(lia) Hpre) as H.
  revert H. apply rounded_scale.
  - apply Z.mul_pos_pos; [lia|]. apply Z.pow_pos_nonneg; lia.
  - exact one_pos.
  - cbn [scaled cond_Zopp]. unfold one.
    set (a := Z.max (e + 1074) 0). set (b := Z.max (- 1074 - e) 0).
    change (Zpos (mx * my)) with (Zpos mx * Zpos my).
    replace (Zpos mx * Zpos my * 2 ^ a * 2 ^ 1074)
      with (Zpos mx * Zpos my * (2 ^ a * 2 ^ 1074)) by ring.
    replace (Zpos mx * 2 ^ (ex + 1074) * (Zpos my * 2 ^ (ey + 1074))
             * (1 * 2 ^ b))
      with (Zpos mx * Zpos my
            * (2 ^ (ex + 1074) * 2 ^ (ey + 1074) * 2 ^ b)) by ring.
    f_equal.
    rewrite <- !Z.pow_add_r by (unfold a, b; lia).
    f_equal. unfold a, b, e. lia.
Qed.

(** ** Division *)
Lemma new_location_located (nb r q : Z) :
  0 < nb -> 0 <= r < nb -> 0 <= q ->
  located (q * nb + r) nb q (new_location nb r).
Proof.
  intros Hnb Hr Hq. unfold new_location, new_location_even, new_location_odd.
  destruct (Z.even nb); destruct (Z.eqb_spec r 0) as [->|Hr0].
  - unfold located, recorded; cbn [shr_record_of_loc shr_m shr_r shr_s];
      repeat split; intros; lia.
  - destruct (Z.compare_spec (2 * r) nb);
      unfold located, recorded; cbn [shr_record_of_loc shr_m shr_r shr_s];
      repeat split; intros; try discriminate; lia.
  - unfold located, recorded; cbn [shr_record_of_loc shr_m shr_r shr_s];
      repeat split; intros; lia.
  - destruct (Z.compare_spec (2 * r + 1) nb);
      unfold located, recorded; cbn [shr_record_of_loc shr_m shr_r shr_s];
      repeat split; intros; try discriminate; lia.
Qed.

Lemma SFdiv_core_binary_located (m1 m2 : positive) (e1 e2 : Z) :
  fexp prec emax (Zdigits2 (Zpos m1) + e1) = e1 ->
  fexp prec emax (Zdigits2 (Zpos m2) + e2) = e2 ->
  let '(q, e', l) := SFdiv_core_binary prec emax (Zpos m1) e1 (Zpos m2) e2 in
  0 <= q /\ e' <= fexp prec emax (Zdigits2 q + e')
  /\ e' <= e1 - e2
  /\ located (Zpos m1 * 2 ^ (e1 - e2 - e')) (Zpos m2) q l.
Proof.
  intros C1 C2.
  pose proof (SFdiv_core_binary_spec m1 m2 e1 e2 C1 C2) as Hspec.
  unfold SFdiv_core_binary in *.
  set (d1 := Zdigits2 (Zpos m1)) in *. set (d2 := Zdigits2 (Zpos m2)) in *.
  set (e' := Z.min (fexp prec emax (d1 + e1 - (d2 + e2))) (e1 - e2)) in *.
  set (s := e1 - e2 - e') in *.
  assert (Hs : 0 <= s) by (unfold s, e'; lia).
  set (m' := match s with
             | 0 => Zpos m1
             | Zpos _ => Z.shiftl (Zpos m1) s
             | Zneg _ => 0
             end) in *.
  assert (Hm' : m' = Zpos m1 * 2 ^ s).
  { unfold m'. destruct s as [|p|p] eqn:Es; try lia.
    apply Z.shiftl_mul_pow2. lia. }
  pose proof (Z_div_mod m' (Zpos m2) ltac:(lia)) as Hdm.
  destruct (Z.div_eucl m' (Zpos m2)) as [q r].
  destruct Hspec as [Hq Hpre]. destruct Hdm as [Hdm Hr].
  split; [exact Hq|]. split; [exact Hpre|]. split; [unfold e'; lia|].
  fold s. rewrite <- Hm', Hdm. rewrite (Z.mul_comm (Zpos m2) q).
  apply new_location_located; lia.
Qed.

Lemma SFdiv_rounded (x y : t) :
  nonneg x -> finite x -> nonneg y -> has_mantissa y ->
  rounded (scaled x * one) (scaled y) (SFdiv prec emax x y).
Proof.
  intros [Px Sx] Fx [Py Sy] Fy.
  destruct y as [sy|sy| |[] my ey]; try contradiction.
  destruct (valid_finite_range _ _ _ Py) as [Ey _].
  destruct (valid_finite _ _ _ Py) as [Cy _].
  assert (HY : 0 < scaled (S754_finite false my ey)).
  { cbn [scaled cond_Zopp]. apply Z.mul_pos_pos; [lia|].
    apply Z.pow_pos_nonneg; lia. }
  destruct x as [sx|[]| |[] mx ex]; try contradiction; cbn [SFdiv xorb].
  - split; [reflexivity|]. unfold near. cbn [scaled] in *. lia.
  - destruct (valid_finite_range _ _ _ Px) as [Ex _].
    destruct (valid_finite _ _ _ Px) as [Cx _].
    pose proof (SFdiv_core_binary_located mx my ex ey Cx Cy) as H.
    destruct (SFdiv_core_binary prec emax (Zpos mx) ex (Zpos my) ey)
      as [[q e'] l].
    destruct H as (Hq & Hpre & He' & Hloc).
    pose proof (binary_round_aux_rounded q e' _ (Zpos my) l ltac:(lia)
                  Hloc Hq Hpre) as H.
    revert H. apply rounded_scale.
    + apply Z.mul_pos_pos; [lia|]. apply Z.pow_pos_nonneg; lia.
    + exact HY.
    + cbn [scaled cond_Zopp]. unfold one.
      set (a := Z.max (e' + 1074) 0). set (b := Z.max (- 1074 - e') 0).
      replace (Zpos mx * 2 ^ (ex - ey - e') * 2 ^ a
               * (Zpos my * 2 ^ (ey + 1074)))
        with (Zpos mx * Zpos my
              * (2 ^ (ex - ey - e') * 2 ^ a * 2 ^ (ey + 1074))) by ring.
      replace (Zpos mx * 2 ^ (ex + 1074) * 2 ^ 1074 * (Zpos my * 2 ^ b))
        with (Zpos mx * Zpos my * (2 ^ (ex + 1074) * 2 ^ 1074 * 2 ^ b))
        by ring.
      f_equal.
      rewrite <- !Z.pow_add_r by (unfold a, b; lia).
      f_equal. unfold a, b. lia.
Qed.

(** ** [binary_round], addition *)
Lemma shl_align_value (m : positive) (e e' : Z) :
  let '(mz, ez) := shl_align m e e' in
  ez <= e /\ Zpos mz = Zpos m * 2 ^ (e - ez) /\ ez = Z.min e e'.
Proof.
  unfold shl_align. destruct (e' - e) as [|d|d] eqn:Ed.
  - rewrite Z.sub_diag. lia.
  - rewrite Z.sub_diag. lia.
  - rewrite iter_xO. split; [lia|]. split; [|lia]. f_equal. f_equal. lia.
Qed.

Lemma binary_round_rounded (m : positive) (e : Z) :
  -1074 <= e ->
  rounded (Zpos m * 2 ^ (e + 1074)) 1 (binary_round prec emax false m e).
Proof.
  intros He. unfold binary_round.
  pose proof (shl_align_spec m e) as Hpre.
  pose proof (shl_align_value m e
                (fexp prec emax (Zdigits2 (Zpos m) + e))) as Hval.
  change (Zpos (digits2_pos m)) with (Zdigits2 (Zpos m)).
  destruct (shl_align m e (fexp prec emax (Zdigits2 (Zpos m) + e)))
    as [mz ez].
  destruct Hpre as [Hpre _]. destruct Hval as (Hle & Hmz & Hez).
  assert (Hez' : -1074 <= ez) by (rewrite fexp_eq in Hez; lia).
  pose proof (binary_round_aux_rounded (Zpos mz) ez (Zpos mz) 1 loc_Exact
                ltac:(lia) (located_exact (Zpos mz) ltac:(lia))
                ltac:(lia) Hpre) as H.
  revert H. apply rounded_scale; [| lia |].
  - apply Z.mul_pos_pos; [lia|]. apply Z.pow_pos_nonneg; lia.
  - rewrite Hmz.
    replace (Z.max (ez + 1074) 0) with (ez + 1074) by lia.
    replace (Z.max (- 1074 - ez) 0) with 0 by lia.
    replace (e + 1074) with ((e - ez) + (ez + 1074)) by lia.
    rewrite (Z.pow_add_r 2 (e - ez) (ez + 1074)) by lia.
    change (2 ^ 0) with 1. ring.
Qed.

(** A mantissa of 53 bits at most, in range, is not rounded. *)
Lemma binary_round_exact (m : positive) (e : Z) :
  -1074 <= e -> Zpos m < 2 ^ 53 -> Zpos m * 2 ^ (e + 1074) < 2 ^ 2098 ->
  let r := binary_round prec emax false m e in
  nonneg r /\ finite r /\ scaled r = Zpos m * 2 ^ (e + 1074).
Proof.
  intros He Hm Hmax r.
  assert (Hr : rounded (Zpos m * 2 ^ (e + 1074)) 1 r)
    by now apply binary_round_rounded.
  pose proof (rounded_nonneg _ _ _ Hr) as Hnn.
  split; [exact Hnn|]. subst r. unfold binary_round in *.
  pose proof (shl_align_spec m e) as Hpre.
  pose proof (shl_align_value m e
                (fexp prec emax (Zdigits2 (Zpos m) + e))) as Hval.
  change (Zpos (digits2_pos m)) with (Zdigits2 (Zpos m)) in *.
  destruct (shl_align m e (fexp prec emax (Zdigits2 (Zpos m) + e)))
    as [mz ez].
  destruct Hpre as [Hpre _]. destruct Hval as (Hle & Hmz & Hez).
  pose proof (Zdigits2_pos (Zpos m) ltac:(lia)) as Hd.
  assert (Hd53 : Zdigits2 (Zpos m) <= 53).
  { pose proof (Zdigits2_bounds (Zpos m) ltac:(lia)) as [Hlo _].
    destruct (Z_le_gt_dec (Zdigits2 (Zpos m)) 53) as [|Hgt]; [assumption|].
    assert (2 ^ 53 <= 2 ^ (Zdigits2 (Zpos m) - 1))
      by (apply Z.pow_le_mono_r; lia).
    lia. }
  assert (Hdz : Zdigits2 (Zpos mz) + ez = Zdigits2 (Zpos m) + e).
  { rewrite Hmz, Zdigits2_shiftl by lia. lia. }
  assert (Hk : fexp prec emax (Zdigits2 (Zpos mz) + ez) - ez = 0).
  { rewrite Hdz. rewrite fexp_eq in *. lia. }
  pose proof (binary_round_aux_value false (Zpos mz) ez loc_Exact
                ltac:(lia) Hpre) as Hv.
  cbv zeta in Hv. unfold shr_fexp in Hv. rewrite Hk in Hv.
  cbn [shr fst shr_record_of_loc shr_m loc_of_shr_record round_nearest_even]
    in Hv.
  assert (Hsame : Zpos mz * 2 ^ (fexp prec emax (Zdigits2 (Zpos mz) + ez)
                                  + 1074)
                  = Zpos m * 2 ^ (e + 1074)).
  { replace (fexp prec emax (Zdigits2 (Zpos mz) + ez)) with ez by lia.
    rewrite Hmz.
    replace (e + 1074) with ((e - ez) + (ez + 1074)) by lia.
    rewrite (Z.pow_add_r 2 (e - ez) (ez + 1074)); [ring|lia|].
    rewrite fexp_eq in Hez. lia. }
  rewrite Hsame in Hv. destruct Hnn as [Hp Hsgn].
  destruct (binary_round_aux prec emax false (Zpos mz) ez loc_Exact)
    as [s|s| |s mr er]; try contradiction.
  - destruct Hv as [_ Hv]. lia.
  - destruct Hv as [_ Hv]. lia.
  - destruct Hv as [-> Hv]. split; [exact Hp|]. exact Hv.
Qed.

Lemma SFadd_rounded (x y : t) :
  nonneg x -> finite x -> nonneg y -> finite y ->
  rounded (scaled x + scaled y) 1 (SFadd prec emax x y).
Proof.
  intros [Px Sx] Fx [Py Sy] Fy.
  destruct x as [sx|[]| |[] mx ex]; try contradiction;
    destruct y as [sy|[]| |[] my ey]; try contradiction.
  - assert (Hz : exists s, SFadd prec emax (S754_zero sx) (S754_zero sy)
                           = S754_zero s)
      by (destruct sx, sy; eexists; reflexivity).
    destruct Hz as [s ->]. split; [reflexivity|]. unfold near.
    cbn [scaled]. lia.
  - cbn [SFadd]. change (scaled (S754_zero sx)) with 0. rewrite Z.add_0_l.
    apply rounded_self; [split|]; assumption.
  - cbn [SFadd]. change (scaled (S754_zero sy)) with 0. rewrite Z.add_0_r.
    apply rounded_self; [split|]; assumption.
  - 
    destruct (valid_finite_range _ _ _ Px) as [Hex _].
    destruct (valid_finite_range _ _ _ Py) as [Hey _].
    cbn [SFadd cond_Zopp]. set (ez := Z.min ex ey).
    pose proof (shl_align_fst mx ex ez ltac:(unfold ez; lia)) as Hx.
    pose proof (shl_align_fst my ey ez ltac:(unfold ez; lia)) as Hy.
    set (px := fst (shl_align mx ex ez)) in *.
    set (py := fst (shl_align my ey ez)) in *.
    change (Zpos px + Zpos py) with (Zpos (px + py)).
    cbn [binary_normalize].
    pose proof (binary_round_rounded (px + py) ez ltac:(unfold ez; lia)) as H.
    replace (Zpos (px + py) * 2 ^ (ez + 1074))
      with (scaled (S754_finite false mx ex)
            + scaled (S754_finite false my ey)) in H; [exact H|].
    cbn [scaled cond_Zopp].
    change (Zpos (px + py)) with (Zpos px + Zpos py). rewrite Hx, Hy.
    replace (ex + 1074) with ((ex - ez) + (ez + 1074)) by lia.
    replace (ey + 1074) with ((ey - ez) + (ez + 1074)) by lia.
    rewrite (Z.pow_add_r 2 (ex - ez)), (Z.pow_add_r 2 (ey - ez))
      by (unfold ez; lia).
    ring.
Qed.

(** ** [Math.round] *)
Lemma round_spec (x : t) :
  nonneg x -> finite x ->
  exists n : Z,
    0 <= n
    /\ (2 * n - 1) * one <= 2 * scaled x < (2 * n + 1) * one
    /\ nonneg (round x) /\ finite (round x)
    /\ scaled (round x) = n * one.
Proof.
  intros [Px Sx] Fx. pose proof one_pos as HU.
  destruct x as [s|[]| |[] m e]; try contradiction.
  - exists 0. cbn [round scaled]. repeat split; trivial; lia.
  - destruct (valid_finite_range _ _ _ Px) as (He & Hm & _).
    cbn [round]. destruct (Z.leb_spec 0 e) as [Hpos|Hneg].
    + exists (Zpos m * 2 ^ e).
      assert (Hsc : scaled (S754_finite false m e) = Zpos m * 2 ^ e * one).
      { cbn [scaled cond_Zopp]. unfold one.
        rewrite Z.pow_add_r by lia. ring. }
      assert (0 < 2 ^ e) by (apply Z.pow_pos_nonneg; lia).
      rewrite Hsc. repeat split; trivial; try nia.
    + set (P := 2 ^ (- e)).
      assert (HP : 2 <= P).
      { unfold P. change 2 with (2 ^ 1) at 1. apply Z.pow_le_mono_r; lia. }
      set (Q := 2 ^ (e + 1074)).
      assert (HQ : 0 < Q) by (apply Z.pow_pos_nonneg; lia).
      assert (HUQ : one = Q * P).
      { unfold one, Q, P. rewrite <- Z.pow_add_r by lia. f_equal. lia. }
      change (Zpos m~0) with (2 * Zpos m).
      rewrite Z.shiftr_div_pow2 by lia.
      replace (2 ^ (1 - e)) with (2 * P)
        by (unfold P; replace (1 - e) with (1 + - e) by lia;
            rewrite Z.pow_add_r by lia; reflexivity).
      set (n := (2 * Zpos m + P) / (2 * P)).
      pose proof (Z.mul_div_le (2 * Zpos m + P) (2 * P) ltac:(lia)) as Hlo.
      pose proof (Z.mul_succ_div_gt (2 * Zpos m + P) (2 * P) ltac:(lia))
        as Hhi.
      fold n in Hlo, Hhi.
      assert (Hn0 : 0 <= n) by (apply Z.div_pos; lia).
      assert (Hn53 : n < 2 ^ 53) by nia.
      assert (Hsc : scaled (S754_finite false m e) = Zpos m * Q)
        by reflexivity.
      assert (Hbounds : (2 * n - 1) * one
                        <= 2 * scaled (S754_finite false m e)
                        < (2 * n + 1) * one).
      { rewrite Hsc, HUQ. split; nia. }
      exists n. split; [exact Hn0|]. split; [exact Hbounds|].
      destruct (Z.eqb_spec n 0) as [Hz|Hnz].
      * rewrite Hz. cbn [scaled]. repeat split; trivial.
      * destruct n as [|p|p] eqn:En; try lia.
        unfold of_Z. cbn [binary_normalize].
        destruct (binary_round_exact p 0 ltac:(lia) Hn53) as (Hnn & Hfin & Hv).
        { change (2 ^ (0 + 1074)) with (2 ^ 1074).
          apply Z.lt_trans with (2 ^ 53 * 2 ^ 1074); [|reflexivity].
          apply Z.mul_lt_mono_pos_r; [reflexivity | exact Hn53]. }
        split; [exact Hnn|]. split; [exact Hfin|]. exact Hv.
Qed.

Lemma rounded_cases (N D : Z) (r : t) :
  rounded N D r ->
  (nonneg r /\ finite r /\ near N D (scaled r))
  \/ (r = S754_infinity false /\ over N D).
Proof.
  intros Hr. pose proof (rounded_nonneg _ _ _ Hr) as Hnn.
  destruct Hr as [Hp H].
  destruct r as [s|[]| |[] m e]; try contradiction.
  - left. split; [exact Hnn|]. split; [exact Hp|]. exact H.
  - right. split; [reflexivity|]. exact H.
  - left. split; [exact Hnn|]. split; [exact Hp|]. exact H.
Qed.

Lemma finite_range (x : t) : nonneg x -> finite x -> 0 <= scaled x < top.
Proof.
  intros [Hp Hs] Hf. destruct x as [s|[]| |[] m e]; try contradiction.
  - cbn [scaled]. unfold top. lia.
  - destruct (valid_finite_range _ _ _ Hp) as (He & Hm & _).
    cbn [scaled cond_Zopp].
    assert (Hpw : 0 < 2 ^ (e + 1074)) by (apply Z.pow_pos_nonneg; lia).
    split; [apply Z.lt_le_incl, Z.mul_pos_pos; lia|].
    apply Z.lt_le_trans with (2 ^ 53 * 2 ^ (e + 1074)).
    + apply Z.mul_lt_mono_pos_r; lia.
    + unfold top. rewrite <- Z.pow_add_r by lia. apply Z.pow_le_mono_r; lia.
Qed.

(** ** Products and quotients by a constant *)
Lemma mul_const (x k : t) (K : Z) :
  nonneg x -> finite x -> nonneg k -> finite k -> scaled k = K * one ->
  rounded (scaled x * K) 1 (x * k)%js.
Proof.
  intros Nx Fx Nk Fk HK.
  pose proof (SFmul_rounded x k Nx Fx Nk Fk) as H. revert H.
  apply rounded_scale; [exact one_pos | lia |]. rewrite HK. ring.
Qed.

Lemma div_const (x k : t) (K : Z) :
  nonneg x -> finite x -> nonneg k -> has_mantissa k ->
  scaled k = K * one -> 0 < K ->
  rounded (scaled x) K (x / k)%js.
Proof.
  intros Nx Fx Nk Fk HK HK0. pose proof one_pos as HU.
  pose proof (SFdiv_rounded x k Nx Fx Nk Fk) as H. revert H.
  apply rounded_scale; [rewrite HK; nia | lia |]. rewrite HK. ring.
Qed.

(** The constants of [estimateCreditPrice]. *)
Lemma int_constant (K : Z) :
  In K [2; 50; 100; 150] ->
  nonneg (int K) /\ has_mantissa (int K) /\ finite (int K)
  /\ scaled (int K) = K * one.
Proof.
  intros HK.
  assert (H : exists (m : positive) (e : Z),
             @int t _ K = S754_finite false m e
             /\ valid_binary prec emax (S754_finite false m e) = true
             /\ Zpos m * 2 ^ (e + 1074) = K * one).
  { repeat (destruct HK as [<-|HK]); [| | | |contradiction];
      eexists; eexists; (split; [vm_compute; reflexivity|]);
      split; vm_compute; reflexivity. }
  destruct H as (m & e & -> & Hv & Hs).
  split; [split; [exact Hv | exact I]|]. split; [exact I|].
  split; [exact Hv | exact Hs].
Qed.

Lemma round_to_100_cases (x : t) :
  nonneg x -> finite x ->
  (round_to 100 x = S754_infinity false /\ over (scaled x * 100) 1)
  \/ (exists (P n : Z) (a : t),
        near (scaled x * 100) 1 P /\ 0 <= P < top /\ half_up n P
        /\ nonneg a /\ finite a /\ scaled a = n * one
        /\ round_to 100 x = (a / int 100)%js
        /\ nonneg (round_to 100 x) /\ finite (round_to 100 x)
        /\ near (n * one) 100 (scaled (round_to 100 x))).
Proof.
  intros Nx Fx. unfold round_to.
  destruct (int_constant 100 ltac:(simpl; tauto)) as (N100 & M100 & F100 & S100).
  destruct (rounded_cases _ _ _ (mul_const x (int 100) 100 Nx Fx N100 F100 S100))
    as [(Np & Fp & Hp)|[Hinf Hover]].
  - right. set (p := (x * int 100)%js) in *.
    destruct (round_spec p Np Fp) as (n & Hn0 & Hn & Na & Fa & Sa).
    change (Math_round p) with (round p).
    exists (scaled p), n, (round p).
    pose proof (finite_range p Np Fp) as Hrange.
    pose proof (finite_range (round p) Na Fa) as Harange.
    destruct (rounded_cases _ _ _
                (div_const (round p) (int 100) 100 Na Fa N100 M100 S100
                   ltac:(lia)))
      as [(Ny & Fy & Hy)|[_ Hover]].
    + rewrite Sa in Hy.
      split; [exact Hp|]. split; [exact Hrange|].
      split; [split; [exact Hn0 | exact Hn]|].
      split; [exact Na|]. split; [exact Fa|]. split; [exact Sa|].
      split; [reflexivity|]. split; [exact Ny|]. split; [exact Fy|].
      exact Hy.
    + exfalso. unfold over, top in *. lia.
  - left. rewrite Hinf. split; [reflexivity|exact Hover].
Qed.

End Binary64Facts.


(** * The emission engine *)
(* ================================================================== *)

Section EngineFacts.
Context {T} `{Number T}.
Local Open Scope js_scope.

Lemma calculateEmission_own (distanceKm : T) (mode : JSString.t) (factor : T) :
  own CONFIG.EMISSION_FACTORS mode = Some factor ->
  calculateEmission distanceKm mode
  = (round_to 100 (distanceKm * factor), []).
Proof.
  intros Hown. unfold calculateEmission. now rewrite (Get_own _ _ Hown).
Qed.

Lemma calculateAllModes_unfold (distanceKm : T) :
  calculateAllModes distanceKm
  = (Array_sort byEmission (unsortedResults distanceKm), []).
Proof. reflexivity. Qed.

Lemma estimateCreditPrice_unfold (credits : T) :
  estimateCreditPrice credits
  = let lo := round_to 100 (credits * CONFIG.PRICE_MIN_BRL) in
    let hi := round_to 100 (credits * CONFIG.PRICE_MAX_BRL) in
    mkCreditPrice lo hi (round_to 100 ((lo + hi) / int 2)).
Proof. reflexivity. Qed.

Lemma unsortedResults_not_positive (distanceKm : T) :
  (round_to 100 (distanceKm * lit 12 100) > int 0) = false ->
  Forall (fun r => percentageVsCar r = int 0) (unsortedResults distanceKm).
Proof.
  intros Hcar. unfold unsortedResults. rewrite Hcar.
  apply Forall_map, Forall_forall. reflexivity.
Qed.

End EngineFacts.

(** A zero of binary64, of either sign, is not above zero. *)
Lemma binary64_zero_not_positive (x : Binary64.t) :
  SFeqb x (int 0) = true -> lt (int 0) x = false.
Proof.
  destruct x as [[]|[]| |[] m e]; intros E; cbv in E |- *; congruence.
Qed.

(** C1, as the specification states it, fails: for the mode ["plane"],
    which the factor table does not have, [calculateEmission] returns
    the number 0 to its caller. *)
Lemma calculateEmission_plane_returns_zero :
  own (T := Binary64.t) CONFIG.EMISSION_FACTORS (js "plane") = None /\
  calculateEmission (int 430 : Binary64.t) (js "plane")
  = (int 0, [js "Invalid transport mode: plane"]).
Proof. split; reflexivity. Qed.

(** C1, amended: for every distance and every mode identifier that is
    neither in the factor table nor a name inherited from
    [Object.prototype], [calculateEmission] writes
    ["Invalid transport mode: <mode>"] to [console.error] and returns
    the number 0 (it raises nothing). This holds whatever the Number
    type. *)
Theorem calculateEmission_unknown_mode :
  forall (T : Type) (N : Number T) (distanceKm : T) (transportMode : JSString.t),
    own (T := T) CONFIG.EMISSION_FACTORS transportMode = None ->
    ~ In transportMode Object_prototype ->
    calculateEmission distanceKm transportMode
    = (int 0, [(js "Invalid transport mode: " ++ transportMode)%list]).
Proof.
  intros T N d m Hown Hproto. unfold calculateEmission.
  rewrite (Get_Undefined _ Hown Hproto). reflexivity.
Qed.

Lemma calculateEmission_unknown_mode_witness :
  calculateEmission (int 430 : Binary64.t) (js "plane")
  = (int 0, [(js "Invalid transport mode: " ++ js "plane")%list]).
Proof.
  apply calculateEmission_unknown_mode.
  - reflexivity.
  - vm_compute. intuition discriminate.
Defined.

(** A name inherited from [Object.prototype] is not caught by the guard
    of [calculateEmission]: the factor is then a function and the
    emission NaN. *)
Example calculateEmission_toString :
  calculateEmission (int 430 : Binary64.t) (js "toString") = (NaN, []).
Proof. reflexivity. Qed.

(** C2, as the specification states it, fails: [calculateEmission] and
    [calculateAllModes] take the distance -100 as it is and compute from
    it, -12 kg for the car (and -0 for the bicycle), without any
    error. *)
Lemma negative_distance_is_computed :
  lt (int (-100) : Binary64.t) (int 0) = true /\
  calculateEmission (int (-100) : Binary64.t) (js "car") = (int (-12), []) /\
  map (fun r => (mode r, emission r))
      (fst (calculateAllModes (int (-100) : Binary64.t)))
  = [ (js "truck", int (-96)); (js "car", int (-12));
      (js "bus", lit (-89) 10); (js "bicycle", S754_zero true) ].
Proof. repeat split; vm_compute; reflexivity. Qed.

(** C2, amended: the calculator does not look at the sign of the
    distance. For every distance [calculateEmission] returns
    [round(distance * factor, 2)] for a mode of the table and
    [calculateAllModes] returns one result per mode, nothing being
    written to the console; a distance that is [<= 0] is turned down by
    the caller, [handleFormSubmit], which alerts and calculates
    nothing. *)
Theorem distance_validated_by_caller_only :
  forall (T : Type) (N : Number T) (distance : T),
    (forall mode factor,
        own CONFIG.EMISSION_FACTORS mode = Some factor ->
        calculateEmission distance mode
        = (round_to 100 (distance * factor)%js, []))
    /\ List.length (fst (calculateAllModes distance)) = 4%nat
    /\ snd (calculateAllModes distance) = []
    /\ ((distance <= int 0)%js = true ->
        forall originValue destinationValue selectedTransport,
        exists message,
          App.handleFormSubmit originValue destinationValue distance
            selectedTransport = (App.Alert message, [])).
Proof.
  intros T N d. split; [|split; [|split]].
  - intros mode factor. apply calculateEmission_own.
  - rewrite calculateAllModes_unfold. unfold fst.
    now rewrite Array_sort_length.
  - reflexivity.
  - intros Hle o dst m. unfold App.handleFormSubmit.
    destruct (App.empty (trim o) || App.empty (trim dst));
      [eexists; reflexivity|].
    rewrite Hle, orb_true_r. eexists; reflexivity.
Qed.

Lemma distance_validated_by_caller_only_witness :
  exists message,
    App.handleFormSubmit (js "São Paulo, SP") (js "Santos, SP")
      (int (-100) : Binary64.t) (js "car") = (App.Alert message, []).
Proof.
  apply (distance_validated_by_caller_only Binary64.number (int (-100))).
  reflexivity.
Defined.

(** C4, as the specification states it, fails in its example: the
    percentage of [calculateSavings(38.27, 51.6)] is 25.83, which is
    below 25.835 and so is not 25.84 at the two decimals the function
    returns. *)
Lemma calculateSavings_example_percentage :
  let r := calculateSavings (lit 3827 100 : Binary64.t) (lit 516 10) in
  percentage r = lit 2583 100 /\
  percentage r <> lit 2584 100 /\
  lt (percentage r) (lit 25835 1000) = true.
Proof. repeat split; vm_compute; congruence. Qed.

(** C4, amended: [calculateSavings(emissionKg, baselineEmissionKg)]
    returns [savedKg = round(baselineEmissionKg - emissionKg, 2)] and
    [percentage = round((savedKg / baselineEmissionKg) * 100, 2)] when
    [baselineEmissionKg > 0], else [percentage = 0]; in binary64,
    [calculateSavings(38.27, 51.6)] is [savedKg = 13.33] and
    [percentage = 25.83]. *)
Theorem calculateSavings_spec :
  (forall (T : Type) (N : Number T) (emissionKg baselineEmissionKg : T),
      let saved := round_to 100 (baselineEmissionKg - emissionKg)%js in
      calculateSavings emissionKg baselineEmissionKg
      = mkSavings saved
          (if (baselineEmissionKg > int 0)%js
           then round_to 100 ((saved / baselineEmissionKg) * int 100)%js
           else int 0))
  /\ calculateSavings (lit 3827 100 : Binary64.t) (lit 516 10)
     = mkSavings (lit 1333 100) (lit 2583 100).
Proof. split; [reflexivity | vm_compute; reflexivity]. Qed.

(** C6: when the car emission is zero (of either sign),
    [calculateAllModes] gives every mode the percentage 0, the value of
    the branch that holds no quotient; in particular the four
    percentages of [calculateAllModes(0)] are 0. *)
Theorem percentageVsCar_zero_baseline :
  (forall distanceKm : Binary64.t,
      SFeqb (fst (calculateEmission distanceKm (js "car"))) (int 0) = true ->
      Forall (fun r => percentageVsCar r = int 0)
             (fst (calculateAllModes distanceKm)))
  /\ map (fun r => (mode r, percentageVsCar r))
         (fst (calculateAllModes (int 0 : Binary64.t)))
     = [ (js "bicycle", int 0); (js "car", int 0);
         (js "bus", int 0); (js "truck", int 0) ].
Proof.
  split.
  - intros d Hcar. rewrite calculateAllModes_unfold.
    apply Array_sort_Forall, unsortedResults_not_positive.
    now apply binary64_zero_not_positive.
  - vm_compute. reflexivity.
Qed.

Lemma percentageVsCar_zero_baseline_witness :
  Forall (fun r => percentageVsCar r = int 0)
         (fst (calculateAllModes (int 0 : Binary64.t))).
Proof.
  apply (proj1 percentageVsCar_zero_baseline). reflexivity.
Defined.

(** C7: [estimateCreditPrice(credits)] returns
    [min = round(credits * 50, 2)], [max = round(credits * 150, 2)] and
    [average = round((min + max) / 2, 2)], the average being taken of
    the rounded [min] and [max]; in binary64
    [calculateCarbonCredits(1000)] is 1 and [estimateCreditPrice(1)] is
    [{min: 50, max: 150, average: 100}], and for 0.0001 credit the
    average is 0.02, where the unrounded 0.005 and 0.015 would average
    to 0.01. *)
Theorem estimateCreditPrice_spec :
  (forall (T : Type) (N : Number T) (credits : T),
      let lo := round_to 100 (credits * CONFIG.PRICE_MIN_BRL)%js in
      let hi := round_to 100 (credits * CONFIG.PRICE_MAX_BRL)%js in
      estimateCreditPrice credits
      = mkCreditPrice lo hi (round_to 100 ((lo + hi) / int 2)%js))
  /\ calculateCarbonCredits (int 1000 : Binary64.t) = int 1
  /\ estimateCreditPrice (int 1 : Binary64.t)
     = mkCreditPrice (int 50) (int 150) (int 100)
  /\ (let credits : Binary64.t := lit 1 10000 in
      average (estimateCreditPrice credits) = lit 2 100 /\
      round_to 100 (((credits * CONFIG.PRICE_MIN_BRL)
                     + (credits * CONFIG.PRICE_MAX_BRL)) / int 2)%js
      = lit 1 100).
Proof. repeat split; vm_compute; reflexivity. Qed.

(* ================================================================== *)
(** * Sorting by a numeric key *)
(* ================================================================== *)

(** [sort] with the comparator [(a, b) => key(a) - key(b)], for keys
    among numbers [ok] on which the sign of a difference tells the
    order: the result is ascending, and elements of equal key keep
    their places. *)
Section SortedByKey.
Context {T} `{Number T}.
Local Open Scope js_scope.
Variable ok : T -> Prop.
Hypothesis above : forall a b : T,
  ok a -> ok b ->
  (a - b > int 0) = true -> (b <= a) = true /\ (a <= b) = false.
Hypothesis not_above : forall a b : T,
  ok a -> ok b -> (a - b > int 0) = false -> (a <= b) = true.
Hypothesis le_trans : forall a b c : T,
  ok a -> ok b -> ok c ->
  (a <= b) = true -> (b <= c) = true -> (a <= c) = true.
Variable A : Type.
Variable key : A -> T.
Local Abbreviation keyed := (fun a : A => ok (key a)).
Local Abbreviation byKey := (byKey key).
Local Abbreviation LeKey := (LeKey key).
Local Abbreviation keyIs := (keyIs key).

Lemma insert_sorted (x : A) (l : list A) :
  keyed x -> Forall keyed l ->
  StronglySorted LeKey l -> StronglySorted LeKey (insert byKey x l).
Proof.
  intros Hx Hl Hs. induction Hs as [|y l Hs IH Hy]; cbn [insert].
  - repeat constructor.
  - inversion Hl as [|? ? Ky Kl]; subst.
    destruct (lt (int 0) (byKey x y)) eqn:E.
    + constructor; [now apply IH|].
      eapply Permutation_Forall;
        [symmetry; apply insert_Permutation|].
      constructor; [|assumption].
      now apply (above Hx Ky).
    + pose proof (not_above Hx Ky E) as Hxy.
      constructor; [now constructor|].
      constructor; [assumption|].
      rewrite Forall_forall in Hy, Kl. apply Forall_forall.
      intros z Hz. apply le_trans with (key y); auto.
      now apply Hy.
Qed.

Lemma Array_sort_sorted (l : list A) :
  Forall keyed l -> StronglySorted LeKey (Array_sort byKey l).
Proof.
  induction 1 as [|x l Hx Hl IH]; cbn [Array_sort fold_right];
    [constructor|].
  apply insert_sorted; trivial.
  now apply Array_sort_Forall.
Qed.

Lemma keyIs_le (e : T) (x y : A) :
  ok e -> keyed x -> keyed y ->
  keyIs e x = true -> keyIs e y = true -> (key x <= key y) = true.
Proof.
  intros He Hx Hy. unfold keyIs. rewrite !andb_true_iff.
  intros [Hxe _] [_ Hey]. now apply le_trans with e.
Qed.

Lemma insert_stable (e : T) (x : A) (l : list A) :
  ok e -> keyed x -> Forall keyed l ->
  filter (keyIs e) (insert byKey x l) = filter (keyIs e) (x :: l).
Proof.
  intros He Hx Hl. induction Hl as [|y l Ky Kl IH]; [reflexivity|].
  cbn [insert]. destruct (lt (int 0) (byKey x y)) eqn:E; [|reflexivity].
  destruct (above Hx Ky E) as [_ Hne].
  cbn [filter] in *. rewrite IH.
  destruct (keyIs e x) eqn:Ex, (keyIs e y) eqn:Ey; trivial.
  rewrite (keyIs_le He Hx Ky Ex Ey) in Hne. discriminate.
Qed.

Lemma Array_sort_stable (e : T) (l : list A) :
  ok e -> Forall keyed l ->
  filter (keyIs e) (Array_sort byKey l) = filter (keyIs e) l.
Proof.
  intros He. induction 1 as [|x l Hx Hl IH]; [reflexivity|].
  cbn [Array_sort fold_right]. rewrite insert_stable; trivial.
  - cbn [filter]. fold (Array_sort byKey l). now rewrite IH.
  - now apply Array_sort_Forall.
Qed.

End SortedByKey.

(** The emissions of a finite distance are proper numbers. *)
Lemma unsortedResults_proper (d : Binary64.t) :
  Binary64.finite d ->
  Forall (fun r => Binary64.proper (emission r)) (unsortedResults d).
Proof.
  intros Hd. unfold unsortedResults. apply Forall_map.
  repeat constructor; cbn [emission fst snd];
    apply Binary64Facts.round_to_100_proper, Binary64Facts.mul_proper;
    trivial; vm_compute; reflexivity.
Qed.



(* ================================================================== *)
(** * The three prices of [estimateCreditPrice] *)
(* ================================================================== *)

Module PriceFacts.
Import Binary64 Binary64Facts.
Local Open Scope Z_scope.
Local Unset Implicit Arguments.

(** ** The arithmetic of the three prices

    In the lemmas below [C] is the number of credits, [X1] and [X2] its
    products by 50 and by 150, [P1] and [P2] their products by 100,
    [n1] and [n2] the whole numbers of cents that [Math.round] makes of
    these, [Y1] and [Y2] the quotients of the cents by 100, which are
    [min] and [max], [S] their sum, [H] its half, [P] the product of
    the half by 100, [n] its whole number of cents and [Y] the quotient
    by 100, which is [average]. All but the cents are counted in units
    of [2^-1074]. *)

Lemma cents_ordered (C X1 X2 P1 P2 n1 n2 : Z) :
  0 <= C ->
  near (C * 50) 1 X1 -> near (C * 150) 1 X2 ->
  near (X1 * 100) 1 P1 -> near (X2 * 100) 1 P2 ->
  half_up n1 P1 -> half_up n2 P2 ->
  n1 <= n2.
Proof. unfold near, half_up, one. lia. Qed.

(** Below [2^40] cents, the cents of the mean lie between those of
    [min] and [max]. *)
Lemma mean_cents_between (n1 n2 Y1 Y2 S H P n : Z) :
  0 <= n1 <= n2 -> n2 < 2 ^ 40 ->
  near (n1 * one) 100 Y1 -> near (n2 * one) 100 Y2 ->
  near (Y1 + Y2) 1 S -> near S 2 H -> near (H * 100) 1 P ->
  half_up n P ->
  n1 <= n <= n2.
Proof. unfold near, half_up, one. lia. Qed.

(** More cents make a quotient by 100 that is not smaller. *)
Lemma more_cents (n1 n Y1 Y : Z) :
  0 <= n1 -> n1 + 1 <= n -> n < 2 ^ 41 ->
  near (n1 * one) 100 Y1 -> near (n * one) 100 Y ->
  Y1 <= Y.
Proof. unfold near, one. lia. Qed.

(** From [2^40] cents on, [max] is about three times [min], and the
    errors of rounding are small against that. *)
Lemma large_prices (C X1 X2 P1 P2 n1 n2 Y1 Y2 S H P n Y : Z) :
  0 <= C ->
  near (C * 50) 1 X1 -> near (C * 150) 1 X2 ->
  near (X1 * 100) 1 P1 -> near (X2 * 100) 1 P2 ->
  half_up n1 P1 -> half_up n2 P2 ->
  near (n1 * one) 100 Y1 -> near (n2 * one) 100 Y2 ->
  near (Y1 + Y2) 1 S -> near S 2 H -> near (H * 100) 1 P ->
  half_up n P -> near (n * one) 100 Y ->
  2 ^ 40 <= n2 ->
  Y1 <= Y <= Y2.
Proof. unfold near, half_up, one. lia. Qed.

(** When [max] is finite, no operation overflows. *)
Lemma no_overflow_min (C X2 : Z) :
  0 <= C -> near (C * 150) 1 X2 -> X2 < top -> ~ over (C * 50) 1.
Proof. unfold near, over, top. lia. Qed.

Lemma no_overflow_min_cents (C X1 X2 P2 : Z) :
  0 <= C -> near (C * 50) 1 X1 -> near (C * 150) 1 X2 ->
  near (X2 * 100) 1 P2 -> P2 < top -> ~ over (X1 * 100) 1.
Proof. unfold near, over, top. lia. Qed.

Lemma no_overflow_sum (A1 A2 Y1 Y2 : Z) :
  0 <= A1 < top -> 0 <= A2 < top ->
  near A1 100 Y1 -> near A2 100 Y2 -> ~ over (Y1 + Y2) 1.
Proof. unfold near, over, top. lia. Qed.

Lemma no_overflow_half (S : Z) : 0 <= S < top -> ~ over S 2.
Proof. unfold over, top. lia. Qed.

Lemma no_overflow_mean_cents (C X1 X2 P1 P2 n1 n2 Y1 Y2 S H : Z) :
  0 <= C ->
  near (C * 50) 1 X1 -> near (C * 150) 1 X2 ->
  near (X1 * 100) 1 P1 -> near (X2 * 100) 1 P2 ->
  half_up n1 P1 -> half_up n2 P2 -> n2 * one < top ->
  near (n1 * one) 100 Y1 -> near (n2 * one) 100 Y2 ->
  near (Y1 + Y2) 1 S -> near S 2 H -> ~ over (H * 100) 1.
Proof. unfold near, half_up, over, one, top. lia. Qed.

(** ** Numbers of equal value *)

Lemma scaled_zero (x : t) :
  nonneg x -> finite x -> scaled x = 0 -> is_zero x.
Proof.
  intros [Hp Hs] Hf Hz. destruct x as [s|[]| |[] m e]; try contradiction.
  - exact I.
  - pose proof (scaled_finite_bound _ _ _ Hp) as Hb.
    cbn [scaled cond_Zopp] in Hz. lia.
Qed.

Lemma scaled_inj (x y : t) :
  nonneg x -> finite x -> nonneg y -> finite y ->
  scaled x = scaled y -> 0 < scaled x -> x = y.
Proof.
  intros [Px Sx] Fx [Py Sy] Fy Heq Hpos.
  pose proof (SFcompare_scaled x y Px Py) as Hc.
  rewrite Heq, Z.compare_refl in Hc.
  destruct x as [sx|[]| |[] mx ex]; try contradiction;
    destruct y as [sy|[]| |[] my ey]; try contradiction;
    cbn [scaled] in *; try lia; try discriminate.
  cbn [SFcompare] in Hc.
  destruct (Z.compare_spec ex ey) as [->| |]; try discriminate.
  injection Hc as Hc. apply Pos.compare_eq in Hc. now subst.
Qed.

Lemma div_same (a b : t) :
  nonneg a -> finite a -> nonneg b -> finite b -> scaled a = scaled b ->
  scaled (a / int 100)%js = scaled (b / int 100)%js.
Proof.
  intros Na Fa Nb Fb Heq.
  destruct (Z.eq_dec (scaled a) 0) as [Hz|Hnz].
  - pose proof (scaled_zero a Na Fa Hz) as Za.
    pose proof (scaled_zero b Nb Fb ltac:(lia)) as Zb.
    destruct a, b; try contradiction. reflexivity.
  - pose proof (finite_range a Na Fa).
    rewrite (scaled_inj a b Na Fa Nb Fb Heq ltac:(lia)). reflexivity.
Qed.

Lemma add_infinity (x : t) :
  nonneg x -> (x + S754_infinity false)%js = S754_infinity false.
Proof.
  intros [_ Hs]. destruct x as [s|[]| |[] m e]; try contradiction; reflexivity.
Qed.

Lemma le_infinity (x : t) :
  nonneg x -> (x <= S754_infinity false)%js = true.
Proof.
  intros [_ Hs]. destruct x as [s|[]| |[] m e]; try contradiction; reflexivity.
Qed.

Lemma nonneg_proper (x : t) : nonneg x -> proper x.
Proof. now intros [H _]. Qed.

Lemma nonneg_cases (x : t) :
  nonneg x -> finite x \/ x = S754_infinity false.
Proof.
  intros [Hp Hs]. destruct x as [s|[]| |[] m e]; try contradiction;
    [left; exact Hp | now right | left; exact Hp].
Qed.

Lemma round_to_100_nonneg (x : t) : nonneg x -> nonneg (round_to 100 x).
Proof.
  intros Nx. destruct (nonneg_cases x Nx) as [Fx| ->].
  - destruct (round_to_100_cases x Nx Fx)
      as [[-> _]|(P & n & a & _ & _ & _ & _ & _ & _ & _ & Ny & _)].
    + split; [reflexivity | exact I].
    + exact Ny.
  - split; [reflexivity | exact I].
Qed.

(** For credits that are not negative, the three prices are in order. *)
Lemma prices_ordered (c : t) :
  nonneg c ->
  let p := estimateCreditPrice c in
  (min p <= average p)%js = true /\ (average p <= max p)%js = true.
Proof.
  intros Nc. rewrite estimateCreditPrice_unfold.
  cbv zeta. cbn [min average max].
  unfold CONFIG.PRICE_MIN_BRL, CONFIG.PRICE_MAX_BRL.
  destruct (nonneg_cases c Nc) as [Fc| ->];
    [|split; vm_compute; reflexivity].
  destruct (int_constant 50 ltac:(simpl; tauto)) as (N50 & _ & F50 & S50).
  destruct (int_constant 150 ltac:(simpl; tauto)) as (N150 & _ & F150 & S150).
  destruct (int_constant 2 ltac:(simpl; tauto)) as (N2 & M2 & _ & S2).
  pose proof (finite_range c Nc Fc) as [HC _].
  pose proof (mul_const c (int 50) 50 Nc Fc N50 F50 S50) as R1.
  pose proof (mul_const c (int 150) 150 Nc Fc N150 F150 S150) as R2.
  set (x1 := (c * int 50)%js) in *. set (x2 := (c * int 150)%js) in *.
  pose proof (rounded_nonneg _ _ _ R1) as Nx1.
  pose proof (rounded_nonneg _ _ _ R2) as Nx2.
  pose proof (round_to_100_nonneg x1 Nx1) as Nlo.
  set (lo := round_to 100 x1) in *. set (hi := round_to 100 x2) in *.
  (* when the maximum is infinite, so is the average *)
  assert (Hinf : hi = S754_infinity false ->
            (lo <= round_to 100 ((lo + hi) / int 2))%js = true
            /\ (round_to 100 ((lo + hi) / int 2) <= hi)%js = true).
  { intros ->. rewrite (add_infinity lo Nlo).
    change (round_to 100 (S754_infinity false / int 2)%js)
      with (S754_infinity false).
    split; [exact (le_infinity lo Nlo) | reflexivity]. }
  destruct (rounded_cases _ _ _ R2) as [(_ & Fx2 & Hx2)|[Hx2 _]];
    [|apply Hinf; unfold hi; rewrite Hx2; reflexivity].
  destruct (round_to_100_cases x2 Nx2 Fx2)
    as [[Hhi _]|(P2 & n2 & a2 & HP2 & RP2 & Hn2 & Na2 & Fa2 & Sa2 & Ehi
                 & Nhi & Fhi & Hhi)];
    [exact (Hinf Hhi)|].
  fold hi in Ehi, Nhi, Fhi, Hhi. clear Hinf.
  pose proof (finite_range x2 Nx2 Fx2) as RX2.
  (* the minimum *)
  destruct (rounded_cases _ _ _ R1) as [(_ & Fx1 & Hx1)|[_ Hover]];
    [|exfalso;
      exact (no_overflow_min (scaled c) (scaled x2) HC Hx2 (proj2 RX2)
               Hover)].
  destruct (round_to_100_cases x1 Nx1 Fx1)
    as [[_ Hover]|(P1 & n1 & a1 & HP1 & RP1 & Hn1 & Na1 & Fa1 & Sa1 & Elo
                   & _ & Flo & Hlo)];
    [exfalso;
     exact (no_overflow_min_cents (scaled c) (scaled x1) (scaled x2) P2
              HC Hx1 Hx2 HP2 (proj2 RP2) Hover)|].
  fold lo in Elo, Flo, Hlo.
  pose proof (finite_range a1 Na1 Fa1) as RA1.
  pose proof (finite_range a2 Na2 Fa2) as RA2.
  rewrite Sa1 in RA1. rewrite Sa2 in RA2.
  (* the mean *)
  pose proof (SFadd_rounded lo hi Nlo Flo Nhi Fhi) as Rs.
  change (SFadd prec emax lo hi) with (lo + hi)%js in Rs.
  set (s := (lo + hi)%js) in *.
  destruct (rounded_cases _ _ _ Rs) as [(Ns & Fs & Hs)|[_ Hover]];
    [|exfalso;
      exact (no_overflow_sum (n1 * one) (n2 * one) (scaled lo) (scaled hi)
               RA1 RA2 Hlo Hhi Hover)].
  pose proof (finite_range s Ns Fs) as RS.
  pose proof (div_const s (int 2) 2 Ns Fs N2 M2 S2 ltac:(lia)) as Rh.
  set (h := (s / int 2)%js) in *.
  destruct (rounded_cases _ _ _ Rh) as [(Nh & Fh & Hh)|[_ Hover]];
    [|exfalso; exact (no_overflow_half (scaled s) RS Hover)].
  destruct (round_to_100_cases h Nh Fh)
    as [[_ Hover]|(P & n & a & HP & RP & Hn & Na & Fa & Sa & Eavg
                   & Navg & Favg & Havg)].
  { exfalso.
    exact (no_overflow_mean_cents (scaled c) (scaled x1) (scaled x2)
             P1 P2 n1 n2 (scaled lo) (scaled hi) (scaled s) (scaled h)
             HC Hx1 Hx2 HP1 HP2 Hn1 Hn2 (proj2 RA2) Hlo Hhi Hs Hh Hover). }
  set (avg := round_to 100 h) in *.
  (* the order of the three prices is that of their values *)
  change (SFleb lo avg = true /\ SFleb avg hi = true).
  rewrite (SFleb_scaled lo avg (nonneg_proper lo Nlo)
             (nonneg_proper avg Navg)).
  rewrite (SFleb_scaled avg hi (nonneg_proper avg Navg)
             (nonneg_proper hi Nhi)).
  rewrite !Z.leb_le.
  pose proof (cents_ordered (scaled c) (scaled x1) (scaled x2) P1 P2 n1 n2
                HC Hx1 Hx2 HP1 HP2 Hn1 Hn2) as H12.
  assert (Hn1' := proj1 Hn1). assert (Hn' := proj1 Hn).
  destruct (Z_lt_le_dec n2 (2 ^ 40)) as [Hsmall|Hlarge].
  - destruct (mean_cents_between n1 n2 (scaled lo) (scaled hi) (scaled s)
                (scaled h) P n ltac:(lia) Hsmall Hlo Hhi Hs Hh HP Hn)
      as [Hlow Hup].
    split.
    + destruct (Z.eq_dec n1 n) as [Heq|Hne].
      * rewrite Elo, Eavg.
        rewrite (div_same a1 a Na1 Fa1 Na Fa); [lia|].
        rewrite Sa1, Sa, Heq. reflexivity.
      * exact (more_cents n1 n (scaled lo) (scaled avg) Hn1'
                 ltac:(lia) ltac:(lia) Hlo Havg).
    + destruct (Z.eq_dec n n2) as [Heq|Hne].
      * rewrite Ehi, Eavg.
        rewrite (div_same a a2 Na Fa Na2 Fa2); [lia|].
        rewrite Sa2, Sa, Heq. reflexivity.
      * exact (more_cents n n2 (scaled avg) (scaled hi) Hn'
                 ltac:(lia) ltac:(lia) Havg Hhi).
  - exact (large_prices (scaled c) (scaled x1) (scaled x2) P1 P2 n1 n2
             (scaled lo) (scaled hi) (scaled s) (scaled h) P n (scaled avg)
             HC Hx1 Hx2 HP1 HP2 Hn1 Hn2 Hlo Hhi Hs Hh HP Hn Havg Hlarge).
Qed.

End PriceFacts.

(** C10: under the pricing of [CONFIG] (50 and 150 per credit), for
    every number of credits [>= 0], zero of either sign and [+Infinity]
    included, the estimate satisfies [min <= average <= max] in
    binary64. *)
Theorem estimateCreditPrice_ordered (credits : Binary64.t) :
  Binary64.proper credits ->
  (int 0 <= credits)%js = true ->
  let p := estimateCreditPrice credits in
  (min p <= average p)%js = true /\ (average p <= max p)%js = true.
Proof.
  intros Hp Hge. apply PriceFacts.prices_ordered. split; [exact Hp|].
  destruct credits as [s|[]| |[] m e]; trivial; discriminate.
Qed.

Lemma estimateCreditPrice_ordered_witness :
  let p := estimateCreditPrice (lit 3 100 : Binary64.t) in
  (min p <= average p)%js = true /\ (average p <= max p)%js = true.
Proof.
  apply (estimateCreditPrice_ordered (lit 3 100)); reflexivity.
Defined.

(* ================================================================== *)
(** * The route lookup *)
(* ================================================================== *)

Unset Implicit Arguments.

(** ** White space, trimming and case *)

Lemma trimStart_In (x : N) (s : JSString.t) : In x (trimStart s) -> In x s.
Proof.
  induction s as [|c s IH]; simpl; [tauto|].
  destruct (isWhiteSpace c); [auto | trivial].
Qed.

Lemma trim_In (x : N) (s : JSString.t) : In x (trim s) -> In x s.
Proof.
  unfold trim, trimEnd. intros Hx.
  apply in_rev, trimStart_In in Hx. apply in_rev in Hx.
  now apply trimStart_In.
Qed.

Lemma isLatin1_trim (s : JSString.t) :
  isLatin1 s = true -> isLatin1 (trim s) = true.
Proof.
  unfold isLatin1. rewrite !forallb_forall. intros Hs x Hx.
  now apply Hs, trim_In.
Qed.

Lemma trimStart_blank (s : JSString.t) :
  forallb isWhiteSpace s = true -> trimStart s = [].
Proof.
  induction s as [|c s IH]; [reflexivity|]. simpl.
  destruct (isWhiteSpace c); [exact IH | discriminate].
Qed.

Lemma trimStart_padded (pre s : JSString.t) :
  forallb isWhiteSpace pre = true -> trimStart (pre ++ s) = trimStart s.
Proof.
  induction pre as [|c pre IH]; [reflexivity|]. simpl.
  destruct (isWhiteSpace c); [exact IH | discriminate].
Qed.

Lemma trimStart_app (s post : JSString.t) :
  forallb isWhiteSpace post = true ->
  trimStart (s ++ post)
  = if forallb isWhiteSpace s then [] else trimStart s ++ post.
Proof.
  intros Hpost. induction s as [|c s IH]; simpl.
  - now apply trimStart_blank.
  - destruct (isWhiteSpace c); [exact IH | reflexivity].
Qed.

Lemma trimEnd_padded (s post : JSString.t) :
  forallb isWhiteSpace post = true -> trimEnd (s ++ post) = trimEnd s.
Proof.
  intros Hpost. unfold trimEnd. rewrite rev_app_distr, trimStart_padded;
    [reflexivity|].
  rewrite forallb_forall in *. intros x Hx. apply Hpost. now apply in_rev.
Qed.

(** White space added around a label is removed by [trim]. *)
Lemma trim_padded (pre s post : JSString.t) :
  forallb isWhiteSpace pre = true -> forallb isWhiteSpace post = true ->
  trim (pre ++ s ++ post) = trim s.
Proof.
  intros Hpre Hpost. unfold trim.
  rewrite trimStart_padded, trimStart_app by assumption.
  destruct (forallb isWhiteSpace s) eqn:Hs.
  - now rewrite trimStart_blank.
  - now apply trimEnd_padded.
Qed.

Lemma trimStart_suffix (s : JSString.t) :
  exists pre, s = (pre ++ trimStart s)%list.
Proof.
  induction s as [|c s [pre IH]]; [now exists []|]. simpl.
  destruct (isWhiteSpace c); [|now exists []].
  exists (c :: pre). simpl. now f_equal.
Qed.

Lemma trim_infix (s : JSString.t) :
  exists pre post, s = (pre ++ trim s ++ post)%list.
Proof.
  destruct (trimStart_suffix s) as [pre Hpre].
  destruct (trimStart_suffix (rev (trimStart s))) as [post Hpost].
  exists pre, (rev post). unfold trim, trimEnd.
  rewrite <- rev_app_distr, <- Hpost, rev_involutive. exact Hpre.
Qed.

Lemma trim_same_length (s : JSString.t) :
  List.length (trim s) = List.length s -> trim s = s.
Proof.
  destruct (trim_infix s) as [pre [post Hs]]. intros Hlen.
  rewrite Hs in Hlen at 2. rewrite !length_app in Hlen.
  destruct pre; [|simpl in Hlen; lia].
  destruct post; [|simpl in Hlen; lia].
  rewrite Hs at 2. simpl. now rewrite app_nil_r.
Qed.

Lemma isWhiteSpace_range (c : N) :
  isWhiteSpace c = true ->
  (9 <= c <= 13 \/ c = 32 \/ c = 160 \/ 5760 <= c)%N.
Proof.
  unfold isWhiteSpace.
  rewrite !orb_true_iff, !andb_true_iff, !N.leb_le, !N.eqb_eq. lia.
Qed.

Lemma lower_latin1_cases (c : N) :
  lower_latin1 c = c
  \/ (lower_latin1 c = c + 32 /\ (65 <= c <= 90 \/ 192 <= c <= 222))%N.
Proof.
  unfold lower_latin1.
  destruct ((65 <=? c) && (c <=? 90)
            || (192 <=? c) && (c <=? 222) && negb (c =? 215))%N eqn:E;
    [right | now left].
  split; [reflexivity|].
  rewrite !orb_true_iff, !andb_true_iff, !N.leb_le in E. lia.
Qed.

(** Lower-casing neither makes nor unmakes white space. *)
Lemma isWhiteSpace_lower (c : N) :
  isWhiteSpace (lower_latin1 c) = isWhiteSpace c.
Proof.
  destruct (lower_latin1_cases c) as [->|[-> Hc]]; [reflexivity|].
  destruct (isWhiteSpace (c + 32)) eqn:E1, (isWhiteSpace c) eqn:E2; trivial;
    try apply isWhiteSpace_range in E1; try apply isWhiteSpace_range in E2;
    lia.
Qed.

Lemma isLatin1_lower (s : JSString.t) :
  isLatin1 (map lower_latin1 s) = isLatin1 s.
Proof.
  unfold isLatin1. induction s as [|c s IH]; [reflexivity|]. simpl.
  rewrite IH. f_equal.
  destruct (lower_latin1_cases c) as [->|[-> Hc]]; [reflexivity|].
  destruct (N.ltb_spec (c + 32) 256), (N.ltb_spec c 256); trivial; lia.
Qed.

Lemma trimStart_lower (s : JSString.t) :
  trimStart (map lower_latin1 s) = map lower_latin1 (trimStart s).
Proof.
  induction s as [|c s IH]; [reflexivity|]. simpl.
  rewrite isWhiteSpace_lower. destruct (isWhiteSpace c); [exact IH|reflexivity].
Qed.

Lemma trim_lower (s : JSString.t) :
  trim (map lower_latin1 s) = map lower_latin1 (trim s).
Proof.
  unfold trim, trimEnd.
  now rewrite trimStart_lower, <- map_rev, trimStart_lower, map_rev.
Qed.

(** A label with the case of its letters changed is still Latin-1 and
    still has no white space around it. *)
Lemma recased_latin1 (variant label : JSString.t) :
  Catalog.recased variant label -> isLatin1 label = true ->
  isLatin1 variant = true.
Proof.
  unfold Catalog.recased. intros Hv Hl.
  now rewrite <- isLatin1_lower, Hv, isLatin1_lower.
Qed.

Lemma recased_trimmed (variant label : JSString.t) :
  Catalog.recased variant label -> trim label = label ->
  trim variant = variant.
Proof.
  unfold Catalog.recased. intros Hv Hl. apply trim_same_length.
  rewrite <- (length_map lower_latin1 (trim variant)).
  rewrite <- trim_lower, Hv, trim_lower, Hl, <- Hv.
  apply length_map.
Qed.

(** ** Pairs of cities *)

Lemma samePair_common (p q x : JSString.t * JSString.t) :
  Catalog.samePair p x = true -> Catalog.samePair q x = true ->
  Catalog.samePair p q = true.
Proof.
  destruct p as [p1 p2], q as [q1 q2], x as [x1 x2]. unfold Catalog.samePair.
  cbn [fst snd]. rewrite !orb_true_iff, !andb_true_iff, !eqb_eq.
  intros [[-> ->]|[-> ->]] [[-> ->]|[-> ->]]; auto.
Qed.

Lemma sameRoute_eq (r1 r2 : Route) :
  Catalog.sameRoute r1 r2 = true -> r1 = r2.
Proof.
  destruct r1, r2. unfold Catalog.sameRoute. cbn.
  rewrite !andb_true_iff, !eqb_eq, Z.eqb_eq. intros [[-> ->] ->].
  reflexivity.
Qed.

Lemma find_ext_in {A} (f g : A -> bool) (l : list A) :
  (forall x, In x l -> f x = g x) -> find f l = find g l.
Proof.
  induction l as [|x l IH]; intros Hfg; [reflexivity|]. simpl.
  rewrite (Hfg x) by now left.
  rewrite IH by (intros; apply Hfg; now right). reflexivity.
Qed.

(** ** The loop, on any catalog and for any lower-casing *)
Section Matching.
Variable toLowerCase : JSString.t -> JSString.t.
Local Abbreviation matchRoute := (RoutesDB.matchRoute toLowerCase).
Local Abbreviation exactTest := (Catalog.exactTest toLowerCase).
Local Abbreviation cityTest := (Catalog.cityTest toLowerCase).
Local Abbreviation cityKeys := (Catalog.cityKeys toLowerCase).

Lemma exactTest_cityTest (a b : JSString.t) (r : Route) :
  exactTest a b r = true -> cityTest a b r = true.
Proof.
  unfold Catalog.exactTest, Catalog.cityTest.
  rewrite !orb_true_iff, !andb_true_iff, !eqb_eq.
  intros [[-> ->]|[-> ->]]; auto.
Qed.

(** The four tests of the loop body amount to the bare-city test, which
    an exact match passes as well. *)
Lemma matchRoute_cityTest (a b : JSString.t) (r : Route) :
  matchRoute a b r = if cityTest a b r then Some (distanceKm r) else None.
Proof.
  pose proof (exactTest_cityTest a b r) as Hec.
  unfold RoutesDB.matchRoute, Catalog.exactTest, Catalog.cityTest,
    Catalog.city in *.
  destruct (eqb (toLowerCase (origin r)) a
            && eqb (toLowerCase (destination r)) b);
    [now rewrite Hec|].
  destruct (eqb (toLowerCase (origin r)) b
            && eqb (toLowerCase (destination r)) a);
    [now rewrite Hec|].
  cbv zeta.
  destruct (eqb _ _ && eqb _ _); [reflexivity|].
  destruct (eqb _ _ && eqb _ _); reflexivity.
Qed.

Lemma findDistance_loop_find (rs : list Route) (a b : JSString.t) :
  RoutesDB.findDistance_loop toLowerCase rs a b
  = option_map distanceKm (find (cityTest a b) rs).
Proof.
  induction rs as [|r rs IH]; [reflexivity|].
  cbn [RoutesDB.findDistance_loop find]. rewrite matchRoute_cityTest.
  destruct (cityTest a b r); [reflexivity | exact IH].
Qed.

Lemma findDistance_loop_sym (rs : list Route) (a b : JSString.t) :
  RoutesDB.findDistance_loop toLowerCase rs a b
  = RoutesDB.findDistance_loop toLowerCase rs b a.
Proof.
  rewrite !findDistance_loop_find. f_equal. apply find_ext_in.
  intros r _. apply orb_comm.
Qed.

Lemma cityTest_samePair (a b : JSString.t) (r : Route) :
  cityTest a b r
  = Catalog.samePair (cityKeys r) (Catalog.city a, Catalog.city b).
Proof. reflexivity. Qed.

Lemma distinct_route (rs : list Route) (r1 r2 : Route) :
  Catalog.distinct toLowerCase rs = true -> In r1 rs -> In r2 rs ->
  Catalog.samePair (cityKeys r1) (cityKeys r2) = true -> r1 = r2.
Proof.
  unfold Catalog.distinct. rewrite forallb_forall. intros Hc H1 H2 Hs.
  specialize (Hc r1 H1). rewrite forallb_forall in Hc.
  specialize (Hc r2 H2). rewrite Hs in Hc. now apply sameRoute_eq.
Qed.

(** Where no two routes link the same two cities, a route whose bare
    cities match the query is the one the search stops at. *)
Lemma find_cityTest (rs : list Route) (a b : JSString.t) (r : Route) :
  Catalog.distinct toLowerCase rs = true -> In r rs ->
  cityTest a b r = true -> find (cityTest a b) rs = Some r.
Proof.
  intros Hc Hin Hm.
  destruct (find (cityTest a b) rs) as [r'|] eqn:Hf.
  - apply find_some in Hf. destruct Hf as [Hin' Hm'].
    f_equal. apply distinct_route with rs; trivial.
    rewrite cityTest_samePair in Hm, Hm'.
    now apply samePair_common with (Catalog.city a, Catalog.city b).
  - apply (find_none _ _ Hf) in Hin. congruence.
Qed.

Lemma findDistance_loop_found (rs : list Route) (a b : JSString.t)
    (r : Route) :
  Catalog.distinct toLowerCase rs = true -> In r rs ->
  cityTest a b r = true ->
  RoutesDB.findDistance_loop toLowerCase rs a b = Some (distanceKm r).
Proof.
  intros Hc Hin Hm. rewrite findDistance_loop_find.
  now rewrite find_cityTest with (r := r).
Qed.

(** The search stops at the first element that passes the test,
    whatever follows it. *)
Lemma find_first {A} (f : A -> bool) (before after : list A) (x : A) :
  (forall y, In y before -> f y = false) -> f x = true ->
  find f (before ++ x :: after) = Some x.
Proof.
  intros Hb Hx. induction before as [|y before IH]; cbn [app find].
  - now rewrite Hx.
  - rewrite (Hb y (or_introl eq_refl)). apply IH.
    intros z Hz. apply Hb. now right.
Qed.

(** The loop tries the exact test and then the bare-city test on each
    route in turn. *)
Lemma findDistance_loop_tests (rs : list Route) (a b : JSString.t) :
  RoutesDB.findDistance_loop toLowerCase rs a b
  = option_map distanceKm
      (find (fun r => exactTest a b r || cityTest a b r) rs).
Proof.
  rewrite findDistance_loop_find. f_equal. apply find_ext_in.
  intros r _. pose proof (exactTest_cityTest a b r) as Hec.
  destruct (exactTest a b r); [now rewrite Hec | reflexivity].
Qed.

Lemma find_exactTest_first (rs : list Route) (a b : JSString.t)
    (r : Route) :
  Catalog.distinct toLowerCase rs = true ->
  find (exactTest a b) rs = Some r -> find (cityTest a b) rs = Some r.
Proof.
  intros Hc Hf. apply find_some in Hf. destruct Hf as [Hin Hm].
  apply find_cityTest; trivial. now apply exactTest_cityTest.
Qed.

End Matching.

(** C3, as the specification states it, fails on a catalog with two
    towns of one name. Asked for Springfield, MO and Chicago, IL, the
    labels of the second route, which therefore matches them exactly,
    the loop of [findDistance] returns 300, the distance of the first
    route, whose bare cities match: it stops there before it sees the
    exact match. The two passes of the specification return 800. *)
Lemma homonyms_loop_differs :
  find (Spec.exactMatch toLowerCase_latin1
          (js "Springfield, MO") (js "Chicago, IL")) Catalog.homonyms
  = Some (RoutesDB.route "Springfield, MO" "Chicago, IL" 800)
  /\ RoutesDB.findDistance_in toLowerCase_latin1 Catalog.homonyms
       (js "Springfield, MO") (js "Chicago, IL") = Some 300%Z
  /\ Spec.findDistance_two_pass toLowerCase_latin1 Catalog.homonyms
       (js "Springfield, MO") (js "Chicago, IL") = Some 800%Z.
Proof. repeat split; reflexivity. Qed.

(** ** The catalog of [RoutesDB] *)

Lemma routes_latin1 : forallb Catalog.labels_latin1 RoutesDB.routes = true.
Proof. vm_compute. reflexivity. Qed.

Lemma routes_trimmed : forallb Catalog.labels_trimmed RoutesDB.routes = true.
Proof. vm_compute. reflexivity. Qed.

Lemma routes_suffix_free :
  forallb (fun r => Catalog.suffix_free (origin r)
                    && Catalog.suffix_free (destination r))
          RoutesDB.routes = true.
Proof. vm_compute. reflexivity. Qed.

Lemma routes_distinct_latin1 :
  Catalog.distinct toLowerCase_latin1 RoutesDB.routes = true.
Proof. vm_compute. reflexivity. Qed.

Lemma label_latin1 (r : Route) :
  In r RoutesDB.routes ->
  isLatin1 (origin r) = true /\ isLatin1 (destination r) = true.
Proof.
  intros Hin. pose proof routes_latin1 as Hl.
  rewrite forallb_forall in Hl. specialize (Hl r Hin).
  now apply andb_true_iff in Hl.
Qed.

Lemma trim_route (r : Route) :
  In r RoutesDB.routes ->
  trim (origin r) = origin r /\ trim (destination r) = destination r.
Proof.
  intros Hin. pose proof routes_trimmed as Ht.
  rewrite forallb_forall in Ht. specialize (Ht r Hin).
  apply andb_true_iff in Ht. now rewrite !eqb_eq in Ht.
Qed.

Section CatalogFacts.
Variable toLowerCase : JSString.t -> JSString.t.
Hypothesis toLowerCase_on_latin1 :
  forall s, isLatin1 s = true -> toLowerCase s = toLowerCase_latin1 s.

Lemma toLowerCase_route (r : Route) :
  In r RoutesDB.routes ->
  toLowerCase (origin r) = toLowerCase_latin1 (origin r)
  /\ toLowerCase (destination r) = toLowerCase_latin1 (destination r).
Proof.
  intros Hin. destruct (label_latin1 r Hin).
  split; now apply toLowerCase_on_latin1.
Qed.

Lemma cityKeys_route (r : Route) :
  In r RoutesDB.routes ->
  Catalog.cityKeys toLowerCase r = Catalog.cityKeys toLowerCase_latin1 r.
Proof.
  intros Hin. destruct (toLowerCase_route r Hin) as [Ho Hd].
  unfold Catalog.cityKeys. now rewrite Ho, Hd.
Qed.

Lemma routes_distinct :
  Catalog.distinct toLowerCase RoutesDB.routes = true.
Proof.
  pose proof routes_distinct_latin1 as Hc. unfold Catalog.distinct in *.
  rewrite forallb_forall in *. intros r1 H1. specialize (Hc r1 H1).
  rewrite forallb_forall in *. intros r2 H2. specialize (Hc r2 H2).
  now rewrite (cityKeys_route r1 H1), (cityKeys_route r2 H2).
Qed.

(** On the catalog, whose labels carry no white space around them, the
    two matches of the specification are the tests of the loop. *)
Lemma exactMatch_route (a b : JSString.t) (r : Route) :
  In r RoutesDB.routes ->
  Spec.exactMatch toLowerCase a b r
  = Catalog.exactTest toLowerCase
      (toLowerCase (trim a)) (toLowerCase (trim b)) r.
Proof.
  intros Hin. destruct (trim_route r Hin) as [Ho Hd].
  unfold Spec.exactMatch, Spec.normalize. now rewrite Ho, Hd.
Qed.

Lemma cityMatch_route (a b : JSString.t) (r : Route) :
  In r RoutesDB.routes ->
  Spec.cityMatch toLowerCase a b r
  = Catalog.cityTest toLowerCase
      (toLowerCase (trim a)) (toLowerCase (trim b)) r.
Proof.
  intros Hin. destruct (trim_route r Hin) as [Ho Hd].
  unfold Spec.cityMatch, Spec.bareCity, Spec.normalize. now rewrite Ho, Hd.
Qed.

(** A query whose bare cities are those of a route of the catalog, in
    either order, finds the distance of that route. *)
Lemma findDistance_by_city (r : Route) (o d : JSString.t) :
  In r RoutesDB.routes ->
  Catalog.cityTest toLowerCase (toLowerCase (trim o)) (toLowerCase (trim d)) r
  = true ->
  RoutesDB.findDistance toLowerCase o d = Some (distanceKm r).
Proof.
  intros Hin Hm. unfold RoutesDB.findDistance, RoutesDB.findDistance_in.
  cbv zeta. apply findDistance_loop_found; trivial. apply routes_distinct.
Qed.

Lemma findDistance_by_label (r : Route) (o d : JSString.t) :
  In r RoutesDB.routes ->
  toLowerCase (trim o) = toLowerCase (origin r) ->
  toLowerCase (trim d) = toLowerCase (destination r) ->
  RoutesDB.findDistance toLowerCase o d = Some (distanceKm r).
Proof.
  intros Hin Ho Hd. apply findDistance_by_city; trivial.
  apply exactTest_cityTest. unfold Catalog.exactTest.
  now rewrite Ho, Hd, !eqb_refl.
Qed.

Lemma city_suffix_free (label : JSString.t) :
  isLatin1 label = true -> Catalog.suffix_free label = true ->
  Catalog.city (toLowerCase (trim (split_comma_first label)))
  = Catalog.city (toLowerCase label).
Proof.
  unfold Catalog.suffix_free. cbv zeta. rewrite andb_true_iff, eqb_eq.
  intros Hl [Hb He].
  now rewrite (toLowerCase_on_latin1 _ Hb), (toLowerCase_on_latin1 _ Hl).
Qed.

(** A re-cased label of the catalog, with white space around it,
    normalizes to the lower-cased label. *)
Lemma normalize_recased (pre variant post label : JSString.t) :
  isLatin1 label = true -> trim label = label ->
  forallb isWhiteSpace pre = true -> forallb isWhiteSpace post = true ->
  Catalog.recased variant label ->
  toLowerCase (trim (pre ++ variant ++ post)) = toLowerCase label.
Proof.
  intros Hl Ht Hpre Hpost Hv.
  rewrite trim_padded by assumption.
  rewrite (recased_trimmed _ _ Hv Ht).
  rewrite (toLowerCase_on_latin1 _ (recased_latin1 _ _ Hv Hl)).
  rewrite (toLowerCase_on_latin1 _ Hl). exact Hv.
Qed.

Lemma findDistance_loop_latin1 (rs : list Route) (a b : JSString.t) :
  (forall r, In r rs ->
     toLowerCase (origin r) = toLowerCase_latin1 (origin r)
     /\ toLowerCase (destination r) = toLowerCase_latin1 (destination r)) ->
  RoutesDB.findDistance_loop toLowerCase rs a b
  = RoutesDB.findDistance_loop toLowerCase_latin1 rs a b.
Proof.
  induction rs as [|r rs IH]; intros Hrs; [reflexivity|].
  cbn [RoutesDB.findDistance_loop].
  rewrite IH by (intros; apply Hrs; now right).
  destruct (Hrs r (or_introl eq_refl)) as [Ho Hd].
  unfold RoutesDB.matchRoute. now rewrite Ho, Hd.
Qed.

(** On Latin-1 queries the lookup can be run with the Latin-1
    lower-casing. *)
Lemma findDistance_latin1 (o d : JSString.t) :
  isLatin1 o = true -> isLatin1 d = true ->
  RoutesDB.findDistance toLowerCase o d
  = RoutesDB.findDistance toLowerCase_latin1 o d.
Proof.
  intros Ho Hd. unfold RoutesDB.findDistance, RoutesDB.findDistance_in.
  cbv zeta.
  rewrite (toLowerCase_on_latin1 _ (isLatin1_trim _ Ho)).
  rewrite (toLowerCase_on_latin1 _ (isLatin1_trim _ Hd)).
  apply findDistance_loop_latin1. intros r. apply toLowerCase_route.
Qed.

(** On the catalog of [RoutesDB], for every pair of labels,
    [findDistance] returns what the two passes of the specification
    return: when a route matches exactly, no route declared before it
    matches on bare cities, so that the loop stops at that route, on
    its exact test. *)
Lemma findDistance_two_pass_on_catalog :
  forall origin destination : JSString.t,
    RoutesDB.findDistance toLowerCase origin destination
    = Spec.findDistance_two_pass toLowerCase RoutesDB.routes
        origin destination
    /\ forall r : Route,
        find (Spec.exactMatch toLowerCase origin destination)
             RoutesDB.routes = Some r ->
        find (Spec.cityMatch toLowerCase origin destination)
             RoutesDB.routes = Some r.
Proof.
  intros o d.
  assert (Hfirst : forall r : Route,
             find (Spec.exactMatch toLowerCase o d) RoutesDB.routes = Some r ->
             find (Spec.cityMatch toLowerCase o d) RoutesDB.routes = Some r).
  { intros r.
    rewrite (find_ext_in _ _ _ (exactMatch_route o d)).
    rewrite (find_ext_in _ _ _ (cityMatch_route o d)).
    apply find_exactTest_first, routes_distinct. }
  split; [|exact Hfirst].
  unfold Spec.findDistance_two_pass.
  destruct (find (Spec.exactMatch toLowerCase o d) RoutesDB.routes)
    as [r|] eqn:Hf.
  - apply find_some in Hf. destruct Hf as [Hin Hm].
    rewrite exactMatch_route in Hm by assumption.
    apply findDistance_by_city; trivial. now apply exactTest_cityTest.
  - rewrite (find_ext_in _ _ _ (cityMatch_route o d)).
    apply findDistance_loop_find.
Qed.

(** C3, amended: [findDistance] makes one pass, not two. On any
    catalog, for every pair of labels, trimmed and lower-cased, it
    returns the distance of the first route in the order of declaration
    that passes the exact test or the bare-city test of the loop, in
    either direction, and null when there is none. An exact match has
    no precedence: the first route whose bare cities are those of the
    labels is the one returned, whatever follows it in the catalog, a
    route that matches exactly included. On the catalog of [RoutesDB],
    where no two routes link the same two cities, this is what the two
    passes of the specification return, and a route that matches
    exactly is also the first one that matches on bare cities.
    ([toLowerCase] is any function that lower-cases Latin-1 text as
    Unicode does.) *)
Theorem findDistance_single_pass :
  (forall (rs : list Route) (origin destination : JSString.t),
      RoutesDB.findDistance_in toLowerCase rs origin destination
      = option_map distanceKm
          (find (fun r =>
                   Catalog.exactTest toLowerCase
                     (toLowerCase (trim origin))
                     (toLowerCase (trim destination)) r
                   || Catalog.cityTest toLowerCase
                        (toLowerCase (trim origin))
                        (toLowerCase (trim destination)) r) rs))
  /\ (forall (before after : list Route) (r : Route)
             (origin destination : JSString.t),
        (forall x, In x before ->
                   Catalog.cityTest toLowerCase
                     (toLowerCase (trim origin))
                     (toLowerCase (trim destination)) x = false) ->
        Catalog.cityTest toLowerCase
          (toLowerCase (trim origin)) (toLowerCase (trim destination)) r
        = true ->
        RoutesDB.findDistance_in toLowerCase (before ++ r :: after)
          origin destination = Some (distanceKm r))
  /\ (forall origin destination : JSString.t,
        RoutesDB.findDistance toLowerCase origin destination
        = Spec.findDistance_two_pass toLowerCase RoutesDB.routes
            origin destination
        /\ forall r : Route,
            find (Spec.exactMatch toLowerCase origin destination)
                 RoutesDB.routes = Some r ->
            find (Spec.cityMatch toLowerCase origin destination)
                 RoutesDB.routes = Some r).
Proof.
  split; [|split].
  - intros rs o d. unfold RoutesDB.findDistance_in. cbv zeta.
    apply findDistance_loop_tests.
  - intros before after r o d Hb Hr.
    unfold RoutesDB.findDistance_in. cbv zeta.
    rewrite findDistance_loop_find.
    rewrite (find_first _ before after r Hb Hr). reflexivity.
  - exact findDistance_two_pass_on_catalog.
Qed.

(** C8: for every route R of the catalog,
    [findDistance(R.origin, R.destination)] and
    [findDistance(R.destination, R.origin)] are both [R.distanceKm];
    more generally the lookup gives the same answer when its two labels
    are exchanged. *)
Theorem findDistance_symmetric :
  (forall R : Route,
      In R RoutesDB.routes ->
      RoutesDB.findDistance toLowerCase (origin R) (destination R)
      = Some (distanceKm R)
      /\ RoutesDB.findDistance toLowerCase (destination R) (origin R)
         = Some (distanceKm R))
  /\ (forall a b : JSString.t,
        RoutesDB.findDistance toLowerCase a b
        = RoutesDB.findDistance toLowerCase b a).
Proof.
  assert (Hsym : forall a b : JSString.t,
             RoutesDB.findDistance toLowerCase a b
             = RoutesDB.findDistance toLowerCase b a)
    by (intros a b; apply findDistance_loop_sym).
  split; [|exact Hsym].
  intros R Hin. destruct (trim_route R Hin) as [Ho Hd].
  rewrite (Hsym (destination R) (origin R)).
  assert (RoutesDB.findDistance toLowerCase (origin R) (destination R)
          = Some (distanceKm R)) as Hfound
    by (apply findDistance_by_label; [assumption | now rewrite Ho
                                                 | now rewrite Hd]).
  now split.
Qed.

(** C9: for every route R of the catalog, the lookup finds
    [R.distanceKm] when it is asked with the two labels cut before their
    first comma; when it is asked with labels that, once trimmed and
    lower-cased, are the lower-cased labels of R; and so when it is
    asked with the labels of R in any letter case and with any white
    space added around them. [findDistance("São Paulo", "Rio de
    Janeiro")] and [findDistance("  são paulo, sp ", "RIO DE JANEIRO,
    RJ")] are both 430. *)
Theorem findDistance_normalization :
  (forall R : Route,
      In R RoutesDB.routes ->
      RoutesDB.findDistance toLowerCase
        (split_comma_first (origin R)) (split_comma_first (destination R))
      = Some (distanceKm R))
  /\ (forall (R : Route) (a b : JSString.t),
        In R RoutesDB.routes ->
        toLowerCase (trim a) = toLowerCase (origin R) ->
        toLowerCase (trim b) = toLowerCase (destination R) ->
        RoutesDB.findDistance toLowerCase a b = Some (distanceKm R))
  /\ (forall (R : Route) (a b pre1 post1 pre2 post2 : JSString.t),
        In R RoutesDB.routes ->
        Catalog.recased a (origin R) ->
        Catalog.recased b (destination R) ->
        forallb isWhiteSpace (pre1 ++ post1 ++ pre2 ++ post2) = true ->
        RoutesDB.findDistance toLowerCase
          (pre1 ++ a ++ post1) (pre2 ++ b ++ post2)
        = Some (distanceKm R))
  /\ RoutesDB.findDistance toLowerCase (js "São Paulo") (js "Rio de Janeiro")
     = Some 430%Z
  /\ RoutesDB.findDistance toLowerCase
       (js "  são paulo, sp ") (js "RIO DE JANEIRO, RJ")
     = Some 430%Z.
Proof.
  split; [|split; [|split; [|split]]].
  - intros R Hin. apply findDistance_by_city; trivial.
    destruct (label_latin1 R Hin) as [Lo Ld].
    pose proof routes_suffix_free as Hs. rewrite forallb_forall in Hs.
    specialize (Hs R Hin). apply andb_true_iff in Hs. destruct Hs as [So Sd].
    unfold Catalog.cityTest.
    rewrite (city_suffix_free _ Lo So), (city_suffix_free _ Ld Sd).
    now rewrite !eqb_refl.
  - intros R a b. apply findDistance_by_label.
  - intros R a b pre1 post1 pre2 post2 Hin Ha Hb Hws.
    rewrite !forallb_app, !andb_true_iff in Hws.
    destruct Hws as [W1 [W2 [W3 W4]]].
    destruct (label_latin1 R Hin) as [Lo Ld].
    destruct (trim_route R Hin) as [To Td].
    apply findDistance_by_label; trivial; now apply normalize_recased.
  - now rewrite findDistance_latin1.
  - now rewrite findDistance_latin1.
Qed.

End CatalogFacts.

Lemma findDistance_single_pass_witness :
  RoutesDB.findDistance_in toLowerCase_latin1 Catalog.homonyms
    (js "Springfield, MO") (js "Chicago, IL") = Some 300%Z.
Proof.
  apply (proj1 (proj2 (findDistance_single_pass toLowerCase_latin1
                         (fun s _ => eq_refl)))
           [] [RoutesDB.route "Springfield, MO" "Chicago, IL" 800]
           (RoutesDB.route "Springfield, IL" "Chicago, IL" 300)).
  - intros x [].
  - reflexivity.
Defined.

Lemma findDistance_symmetric_witness :
  let R := RoutesDB.route "Curitiba, PR" "Foz do Iguaçu, PR" 645 in
  RoutesDB.findDistance toLowerCase_latin1 (origin R) (destination R)
  = Some 645%Z
  /\ RoutesDB.findDistance toLowerCase_latin1 (destination R) (origin R)
     = Some 645%Z.
Proof.
  apply (proj1 (findDistance_symmetric toLowerCase_latin1
                  (fun s _ => eq_refl))).
  unfold RoutesDB.routes. do 25 right. left. reflexivity.
Defined.

Lemma findDistance_normalization_witness :
  RoutesDB.findDistance toLowerCase_latin1
    (js " belo HORIZONTE, mg") (js "OURO preto, MG  ") = Some 100%Z.
Proof.
  apply (proj1 (proj2
           (findDistance_normalization toLowerCase_latin1
              (fun s _ => eq_refl)))
         (RoutesDB.route "Belo Horizonte, MG" "Ouro Preto, MG" 100)).
  - unfold RoutesDB.routes. do 19 right. left. reflexivity.
  - reflexivity.
  - reflexivity.
Defined.

(* ================================================================== *)
(** * Further properties of the route lookup *)
(* ================================================================== *)

Lemma find_all_false {A} (f : A -> bool) (l : list A) :
  (forall x, In x l -> f x = false) -> find f l = None.
Proof.
  induction l as [|x l IH]; intros H; [reflexivity|].
  cbn [find]. rewrite (H x (or_introl eq_refl)).
  apply IH. intros y Hy. apply H. now right.
Qed.

Lemma eqb_neq (a b : JSString.t) : a <> b -> eqb a b = false.
Proof.
  intros Hne. destruct (eqb a b) eqn:E; [|reflexivity].
  apply eqb_eq in E. contradiction.
Qed.

(** Every route of the catalog links two cities with names, and the two
    differ; its distance is between 8 and 3150 km. *)
Lemma routes_named :
  forallb (fun r =>
             let k := Catalog.cityKeys toLowerCase_latin1 r in
             negb (eqb (fst k) []) && negb (eqb (snd k) [])
             && negb (eqb (fst k) (snd k))
             && (8 <=? distanceKm r)%Z && (distanceKm r <=? 3150)%Z)
          RoutesDB.routes = true.
Proof. vm_compute. reflexivity. Qed.

(** X4: on any catalog and with any lower-casing, the lookup depends on
    its two labels through their bare city names only: what follows the
    first comma of a label, the state, is not looked at. *)
Theorem findDistance_by_bare_city (toLowerCase : JSString.t -> JSString.t)
    (rs : list Route) (a b a' b' : JSString.t) :
  Spec.bareCity toLowerCase a = Spec.bareCity toLowerCase a' ->
  Spec.bareCity toLowerCase b = Spec.bareCity toLowerCase b' ->
  RoutesDB.findDistance_in toLowerCase rs a b
  = RoutesDB.findDistance_in toLowerCase rs a' b'.
Proof.
  unfold Spec.bareCity, Spec.normalize.
  intros Ha Hb. unfold RoutesDB.findDistance_in. cbv zeta.
  rewrite !findDistance_loop_find.
  assert (E : forall r, In r rs ->
            Catalog.cityTest toLowerCase
              (toLowerCase (trim a)) (toLowerCase (trim b)) r
            = Catalog.cityTest toLowerCase
                (toLowerCase (trim a')) (toLowerCase (trim b')) r).
  { intros r _. unfold Catalog.cityTest, Catalog.city.
    rewrite Ha, Hb. reflexivity. }
  rewrite (find_ext_in _ _ _ E). reflexivity.
Qed.

Lemma findDistance_by_bare_city_witness :
  RoutesDB.findDistance_in toLowerCase_latin1 RoutesDB.routes
    (js "São Paulo, SP") (js "Santos, SP")
  = RoutesDB.findDistance_in toLowerCase_latin1 RoutesDB.routes
      (js " SÃO PAULO , RJ, Brasil") (js "santos").
Proof.
  apply (findDistance_by_bare_city toLowerCase_latin1 RoutesDB.routes);
    vm_compute; reflexivity.
Defined.

Section LookupFacts.
Variable toLowerCase : JSString.t -> JSString.t.
Hypothesis toLowerCase_on_latin1 :
  forall s, isLatin1 s = true -> toLowerCase s = toLowerCase_latin1 s.

Lemma route_named (r : Route) :
  In r RoutesDB.routes ->
  let k := Catalog.cityKeys toLowerCase r in
  fst k <> [] /\ snd k <> [] /\ fst k <> snd k
  /\ (8 <= distanceKm r <= 3150)%Z.
Proof.
  intros Hin. cbv zeta.
  rewrite (cityKeys_route toLowerCase toLowerCase_on_latin1 r Hin).
  pose proof routes_named as H. rewrite forallb_forall in H.
  specialize (H r Hin). cbv zeta in H.
  rewrite !andb_true_iff, !negb_true_iff, Z.leb_le, Z.leb_le in H.
  destruct H as [[[[H1 H2] H3] H4] H5].
  repeat split; trivial; intros E; rewrite E, eqb_refl in *; discriminate.
Qed.

Lemma findDistance_self (a : JSString.t) :
  RoutesDB.findDistance toLowerCase a a = None.
Proof.
  unfold RoutesDB.findDistance, RoutesDB.findDistance_in. cbv zeta.
  rewrite findDistance_loop_find, find_all_false; [reflexivity|].
  intros r Hin. destruct (route_named r Hin) as (_ & _ & Hne & _).
  cbn [Catalog.cityKeys fst snd] in Hne. unfold Catalog.cityTest.
  destruct (eqb _ _ && eqb _ _) eqn:E; [|reflexivity].
  apply andb_true_iff in E. rewrite !eqb_eq in E. destruct E as [E1 E2].
  elim Hne. congruence.
Qed.

Lemma findDistance_route (R : Route) :
  In R RoutesDB.routes ->
  RoutesDB.findDistance toLowerCase (origin R) (destination R)
  = Some (distanceKm R)
  /\ RoutesDB.findDistance toLowerCase (destination R) (origin R)
     = Some (distanceKm R).
Proof.
  intros Hin. destruct (trim_route R Hin) as [Ho Hd].
  assert (E : RoutesDB.findDistance toLowerCase (origin R) (destination R)
              = Some (distanceKm R)).
  { apply (findDistance_by_label toLowerCase toLowerCase_on_latin1 R);
      [exact Hin | now rewrite Ho | now rewrite Hd]. }
  split; [exact E|]. rewrite <- E.
  apply findDistance_loop_sym.
Qed.

(** What [findDistance] returns is the distance of a route that links
    the bare cities of the two labels. *)
Lemma findDistance_sound (a b : JSString.t) (d : Z) :
  RoutesDB.findDistance toLowerCase a b = Some d ->
  exists r, In r RoutesDB.routes /\ distanceKm r = d
            /\ Spec.cityMatch toLowerCase a b r = true.
Proof.
  unfold RoutesDB.findDistance, RoutesDB.findDistance_in. cbv zeta.
  rewrite findDistance_loop_find.
  destruct (find _ RoutesDB.routes) as [r|] eqn:Hf; [|discriminate].
  intros [= <-]. apply find_some in Hf. destruct Hf as [Hin Hm].
  exists r. split; [exact Hin|]. split; [reflexivity|].
  now rewrite (cityMatch_route toLowerCase a b r Hin).
Qed.

Lemma findDistance_range (a b : JSString.t) (d : Z) :
  RoutesDB.findDistance toLowerCase a b = Some d -> (8 <= d <= 3150)%Z.
Proof.
  intros Hf. destruct (findDistance_sound a b d Hf) as (r & Hin & <- & _).
  apply (route_named r Hin).
Qed.

(** X1: [findDistance] returns a distance exactly when a route of the
    catalog links the bare cities of the two labels, in either order,
    and then it is the distance of that route; so it hands back nothing
    but a distance of the catalog, a whole number of kilometres between
    8 and 3150. *)
Theorem findDistance_found (a b : JSString.t) (d : Z) :
  (RoutesDB.findDistance toLowerCase a b = Some d <->
   exists r, In r RoutesDB.routes /\ distanceKm r = d
             /\ Spec.cityMatch toLowerCase a b r = true)
  /\ (RoutesDB.findDistance toLowerCase a b = Some d -> (8 <= d <= 3150)%Z).
Proof.
  split; [split; [exact (findDistance_sound a b d)|]
         |exact (findDistance_range a b d)].
  intros (r & Hin & <- & Hm).
  rewrite (cityMatch_route toLowerCase a b r Hin) in Hm.
  now apply (findDistance_by_city toLowerCase toLowerCase_on_latin1).
Qed.

Lemma findDistance_blank_left (a b : JSString.t) :
  trim a = [] -> RoutesDB.findDistance toLowerCase a b = None.
Proof.
  intros Ha.
  unfold RoutesDB.findDistance, RoutesDB.findDistance_in. cbv zeta.
  rewrite findDistance_loop_find, Ha.
  rewrite (toLowerCase_on_latin1 [] eq_refl).
  change (toLowerCase_latin1 []) with (@nil N).
  rewrite find_all_false; [reflexivity|].
  intros r Hin. destruct (route_named r Hin) as (Ho & Hd & _).
  unfold Catalog.cityTest. cbn [Catalog.cityKeys fst snd] in Ho, Hd.
  change (Catalog.city []) with (@nil N).
  rewrite (eqb_neq _ [] Ho), (eqb_neq _ [] Hd).
  now rewrite andb_false_r.
Qed.

Lemma findDistance_blank_right (a b : JSString.t) :
  trim a = [] -> RoutesDB.findDistance toLowerCase b a = None.
Proof.
  intros Ha. rewrite <- (findDistance_blank_left a b Ha).
  apply findDistance_loop_sym.
Qed.

(** X2: a label that is empty or made of white space finds no distance,
    whatever the other label is and on whichever side it stands. *)
Theorem findDistance_blank (a b : JSString.t) :
  trim a = [] ->
  RoutesDB.findDistance toLowerCase a b = None
  /\ RoutesDB.findDistance toLowerCase b a = None.
Proof.
  intros Ha. split;
    [exact (findDistance_blank_left a b Ha)
    |exact (findDistance_blank_right a b Ha)].
Qed.

(** X3: two labels of one city, in whatever case and with whatever
    state after the comma, find no distance: the catalog has no route
    from a city to itself. *)
Theorem findDistance_same_city (a b : JSString.t) :
  Spec.bareCity toLowerCase a = Spec.bareCity toLowerCase b ->
  RoutesDB.findDistance toLowerCase a b = None.
Proof.
  intros Hab. rewrite <- (findDistance_self a).
  unfold Spec.bareCity, Spec.normalize in Hab.
  unfold RoutesDB.findDistance, RoutesDB.findDistance_in. cbv zeta.
  rewrite !findDistance_loop_find.
  assert (E : forall r, In r RoutesDB.routes ->
            Catalog.cityTest toLowerCase
              (toLowerCase (trim a)) (toLowerCase (trim b)) r
            = Catalog.cityTest toLowerCase
                (toLowerCase (trim a)) (toLowerCase (trim a)) r).
  { intros r _. unfold Catalog.cityTest, Catalog.city.
    rewrite Hab. reflexivity. }
  rewrite (find_ext_in _ _ _ E). reflexivity.
Qed.

End LookupFacts.

Lemma findDistance_found_witness :
  exists r, In r RoutesDB.routes /\ distanceKm r = 70%Z
            /\ Spec.cityMatch toLowerCase_latin1
                 (js " santos ") (js "SÃO PAULO, sp") r = true.
Proof.
  apply (proj1 (proj1 (findDistance_found toLowerCase_latin1
                         (fun s _ => eq_refl)
                         (js " santos ") (js "SÃO PAULO, sp") 70%Z))).
  vm_compute. reflexivity.
Defined.

Lemma findDistance_blank_witness :
  RoutesDB.findDistance toLowerCase_latin1 (js "  ") (js "Santos, SP") = None
  /\ RoutesDB.findDistance toLowerCase_latin1 (js "Santos, SP") (js "  ")
     = None.
Proof.
  apply (findDistance_blank toLowerCase_latin1 (fun s _ => eq_refl)).
  reflexivity.
Defined.

Lemma findDistance_same_city_witness :
  RoutesDB.findDistance toLowerCase_latin1
    (js "Santos, SP") (js " SANTOS, RJ") = None.
Proof.
  apply (findDistance_same_city toLowerCase_latin1 (fun s _ => eq_refl)).
  vm_compute. reflexivity.
Defined.

(** ** The list of cities *)

Lemma existsb_eqb_In (x : JSString.t) (l : list JSString.t) :
  existsb (eqb x) l = true <-> In x l.
Proof.
  rewrite existsb_exists. split.
  - intros (y & Hy & E). apply eqb_eq in E. now subst.
  - intros Hx. exists x. split; [exact Hx | apply eqb_refl].
Qed.

Lemma Set_add_In (cities : list JSString.t) (x y : JSString.t) :
  In y (Set_add cities x) <-> In y cities \/ y = x.
Proof.
  unfold Set_add. destruct (existsb (eqb x) cities) eqn:E.
  - apply existsb_eqb_In in E. split; [tauto|]. intros [H| ->]; trivial.
  - rewrite in_app_iff. cbn [In]. split.
    + intros [H|[<-|[]]]; auto.
    + intros [H| ->]; auto.
Qed.

Lemma Set_add_NoDup (cities : list JSString.t) (x : JSString.t) :
  NoDup cities -> NoDup (Set_add cities x).
Proof.
  intros Hn. unfold Set_add. destruct (existsb (eqb x) cities) eqn:E; trivial.
  apply NoDup_app; trivial.
  - constructor; [intros []|constructor].
  - intros y Hy [<-|[]].
    apply existsb_eqb_In in Hy. congruence.
Qed.

Lemma cities_fold (rs : list Route) (acc : list JSString.t) :
  let cities :=
    fold_left (fun cities route =>
                 Set_add (Set_add cities (origin route)) (destination route))
              rs acc in
  (NoDup acc -> NoDup cities)
  /\ forall c, In c cities <->
       In c acc \/ exists r, In r rs /\ (c = origin r \/ c = destination r).
Proof.
  revert acc. induction rs as [|r rs IH]; intros acc; cbn [fold_left].
  - split; [trivial|]. intros c. split; [tauto|].
    intros [H|(r & [] & _)]. exact H.
  - specialize (IH (Set_add (Set_add acc (origin r)) (destination r))).
    cbv zeta in IH. destruct IH as [IH1 IH2]. split.
    + intros Hn. now apply IH1, Set_add_NoDup, Set_add_NoDup.
    + intros c. rewrite IH2, !Set_add_In. cbn [In]. split.
      * intros [[[H|H]|H]|(r' & Hr' & Hc)]; eauto 6.
      * intros [H|(r' & [<-|Hr'] & Hc)]; eauto 6. tauto.
Qed.

Section CitiesFacts.
Context {T} `{Number T}.
Variable localeCompare : JSString.t -> JSString.t -> T.

Lemma getAllCities_In (rs : list Route) (c : JSString.t) :
  In c (getAllCities_in localeCompare rs) <->
  exists r, In r rs /\ (c = origin r \/ c = destination r).
Proof.
  unfold getAllCities_in. cbv zeta.
  destruct (cities_fold rs []) as [_ Hin]. cbv zeta in Hin.
  pose proof (Array_sort_Permutation localeCompare
                (fold_left (fun cities route =>
                   Set_add (Set_add cities (origin route)) (destination route))
                 rs [])) as HP.
  split.
  - intros Hc. apply (Permutation_in _ HP) in Hc.
    destruct (proj1 (Hin c) Hc) as [[]|Hr]. exact Hr.
  - intros Hc. apply (Permutation_in _ (Permutation_sym HP)).
    apply (proj2 (Hin c)). now right.
Qed.

(** X5: on any catalog and with any collation, [getAllCities] lists
    each label that is the origin or the destination of a route, once,
    and nothing else. *)
Theorem getAllCities_unique (rs : list Route) :
  NoDup (getAllCities_in localeCompare rs)
  /\ forall c : JSString.t,
       In c (getAllCities_in localeCompare rs) <->
       exists r, In r rs /\ (c = origin r \/ c = destination r).
Proof.
  split; [|exact (getAllCities_In rs)].
  unfold getAllCities_in. cbv zeta.
  destruct (cities_fold rs []) as [Hn _]. cbv zeta in Hn.
  eapply Permutation_NoDup;
    [symmetry; apply Array_sort_Permutation|].
  apply Hn. constructor.
Qed.

Variable toLowerCase : JSString.t -> JSString.t.
Hypothesis toLowerCase_on_latin1 :
  forall s, isLatin1 s = true -> toLowerCase s = toLowerCase_latin1 s.

(** X6: every city that [getAllCities] offers has a partner in the same
    list to which [findDistance] knows the distance, in both
    directions. *)
Theorem getAllCities_connected (c : JSString.t) :
  In c (getAllCities localeCompare) ->
  exists (c' : JSString.t) (d : Z),
    In c' (getAllCities localeCompare)
    /\ RoutesDB.findDistance toLowerCase c c' = Some d
    /\ RoutesDB.findDistance toLowerCase c' c = Some d.
Proof.
  unfold getAllCities. intros Hc.
  destruct (proj1 (getAllCities_In RoutesDB.routes c) Hc)
    as (r & Hr & Hcr).
  destruct (findDistance_route toLowerCase toLowerCase_on_latin1 r Hr)
    as [E1 E2].
  destruct Hcr as [-> | ->].
  - exists (destination r), (distanceKm r).
    split; [|split; [exact E1 | exact E2]].
    apply (proj2 (getAllCities_In RoutesDB.routes (destination r))).
    exists r. split; [exact Hr|]. right. reflexivity.
  - exists (origin r), (distanceKm r).
    split; [|split; [exact E2 | exact E1]].
    apply (proj2 (getAllCities_In RoutesDB.routes (origin r))).
    exists r. split; [exact Hr|]. left. reflexivity.
Qed.

End CitiesFacts.

Lemma getAllCities_connected_witness :
  let localeCompare (a b : JSString.t) : Binary64.t := int 0 in
  exists (c' : JSString.t) (d : Z),
    In c' (getAllCities localeCompare)
    /\ RoutesDB.findDistance toLowerCase_latin1 (js "Olinda, PE") c' = Some d
    /\ RoutesDB.findDistance toLowerCase_latin1 c' (js "Olinda, PE") = Some d.
Proof.
  intros localeCompare.
  apply (getAllCities_connected localeCompare toLowerCase_latin1
           (fun s _ => eq_refl) (js "Olinda, PE")).
  vm_compute. repeat (first [left; reflexivity | right]).
Defined.

(* ================================================================== *)
(** * Further properties of the engine *)
(* ================================================================== *)

Module EmissionFacts.
Import Binary64 Binary64Facts PriceFacts.
Local Open Scope Z_scope.
Local Unset Implicit Arguments.

(** ** Numbers that are not negative *)

Lemma nonneg_le (x : t) : nonneg x -> (int 0 <= x)%js = true.
Proof.
  intros [_ Hs]. destruct x as [s|[]| |[] m e]; try contradiction; reflexivity.
Qed.

Lemma le_nonneg (x : t) : proper x -> (int 0 <= x)%js = true -> nonneg x.
Proof.
  intros Hp Hle. split; [exact Hp|].
  destruct x as [s|[]| |[] m e]; trivial; discriminate.
Qed.

Lemma positive_nonneg (x : t) : proper x -> (x > int 0)%js = true -> nonneg x.
Proof.
  intros Hp Hlt. split; [exact Hp|].
  destruct x as [s|[]| |[] m e]; trivial; discriminate.
Qed.

Lemma mul_nonneg (x k : t) :
  nonneg x -> finite x -> nonneg k -> finite k -> nonneg (x * k)%js.
Proof.
  intros Nx Fx Nk Fk.
  exact (rounded_nonneg _ _ _ (SFmul_rounded x k Nx Fx Nk Fk)).
Qed.

Lemma mul_nonneg_by (x k : t) :
  nonneg x -> nonneg k -> has_mantissa k -> nonneg (x * k)%js.
Proof.
  intros Nx Nk Mk.
  assert (Fk : finite k) by (destruct Nk, k; try contradiction; assumption).
  destruct (nonneg_cases x Nx) as [Fx| ->].
  - exact (mul_nonneg x k Nx Fx Nk Fk).
  - destruct Nk as [_ Sk]. destruct k as [s|s| |[] m e]; try contradiction.
    split; [reflexivity | exact I].
Qed.

Lemma div_nonneg_by (x k : t) :
  nonneg x -> nonneg k -> has_mantissa k -> nonneg (x / k)%js.
Proof.
  intros Nx Nk Mk.
  destruct (nonneg_cases x Nx) as [Fx| ->].
  - exact (rounded_nonneg _ _ _ (SFdiv_rounded x k Nx Fx Nk Mk)).
  - destruct Nk as [_ Sk]. destruct k as [s|s| |[] m e]; try contradiction.
    split; [reflexivity | exact I].
Qed.

Lemma round_nonneg (x : t) : nonneg x -> nonneg (round x).
Proof.
  intros Nx. destruct (nonneg_cases x Nx) as [Fx| ->].
  - destruct (round_spec x Nx Fx) as (n & _ & _ & H & _). exact H.
  - split; [reflexivity | exact I].
Qed.

(** [Math.round(x * scale) / scale] of a number that is not negative. *)
Lemma round_to_nonneg (K : Z) (x : t) :
  nonneg (int K) -> has_mantissa (int K) ->
  nonneg x -> nonneg (round_to K x).
Proof.
  intros NK MK Nx. unfold round_to.
  apply div_nonneg_by; [|exact NK|exact MK].
  apply round_nonneg. apply mul_nonneg_by; assumption.
Qed.

End EmissionFacts.

Module SignFacts.
Import Binary64 Binary64Facts PriceFacts.
Local Open Scope Z_scope.
Local Unset Implicit Arguments.

(** ** The sign of a product, a quotient and a rounding *)

Lemma negative_not_positive (r : t) :
  has_sign true r -> (r > int 0)%js = false.
Proof.
  destruct r as [s|s| |s m e]; cbn [has_sign]; try contradiction;
    intros ->; reflexivity.
Qed.

Lemma proper_valid (x : t) : proper x -> valid_binary prec emax x = true.
Proof. destruct x; trivial. Qed.

Lemma valid_cases (x : t) :
  valid_binary prec emax x = true -> x = S754_nan \/ proper x.
Proof. destruct x; intros H; [right|right|left|right]; trivial. Qed.

Lemma mul_positive (x k : t) :
  valid_binary prec emax x = true -> nonneg k -> has_mantissa k ->
  (x * k > int 0)%js = true -> (x > int 0)%js = true.
Proof.
  intros Vx [Pk Sk] Mk.
  destruct k as [sk|sk| |[] mk ek]; try contradiction.
  destruct x as [s|[]| |[] m e]; try discriminate; try reflexivity.
  intros H. exfalso.
  destruct (valid_finite true _ _ Vx) as [Cx Bx].
  destruct (valid_finite false _ _ Pk) as [Ck Bk].
  assert (Hs : has_sign true
                 (SFmul prec emax (S754_finite true m e)
                    (S754_finite false mk ek))).
  { cbn [SFmul xorb]. apply binary_round_aux_sign; [lia|].
    pose proof (Zdigits2_mul (Zpos m) (Zpos mk) ltac:(lia) ltac:(lia)) as Hd.
    change (Zpos (m * mk)) with (Zpos m * Zpos mk).
    pose proof (Zdigits2_pos (Zpos m) ltac:(lia)).
    pose proof (Zdigits2_pos (Zpos mk) ltac:(lia)).
    rewrite fexp_eq in *. lia. }
  apply negative_not_positive in Hs.
  change (SFltb (S754_zero false)
            (SFmul prec emax (S754_finite true m e) (S754_finite false mk ek))
          = true) in H.
  change (SFltb (S754_zero false)
            (SFmul prec emax (S754_finite true m e) (S754_finite false mk ek))
          = false) in Hs.
  congruence.
Qed.

Lemma div_positive (x k : t) :
  valid_binary prec emax x = true -> nonneg k -> has_mantissa k ->
  (x / k > int 0)%js = true -> (x > int 0)%js = true.
Proof.
  intros Vx [Pk Sk] Mk.
  destruct k as [sk|sk| |[] mk ek]; try contradiction.
  destruct x as [s|[]| |[] m e]; try discriminate; try reflexivity.
  intros H. exfalso.
  destruct (valid_finite true _ _ Vx) as [Cx Bx].
  destruct (valid_finite false _ _ Pk) as [Ck Bk].
  assert (Hs : has_sign true
                 (SFdiv prec emax (S754_finite true m e)
                    (S754_finite false mk ek))).
  { cbn [SFdiv xorb].
    pose proof (SFdiv_core_binary_spec m mk e ek Cx Ck) as Hc.
    destruct (SFdiv_core_binary prec emax (Zpos m) e (Zpos mk) ek)
      as [[q e'] l].
    destruct Hc as [Hq He].
    apply binary_round_aux_sign; [exact Hq | exact He]. }
  apply negative_not_positive in Hs.
  change (SFltb (S754_zero false)
            (SFdiv prec emax (S754_finite true m e) (S754_finite false mk ek))
          = true) in H.
  change (SFltb (S754_zero false)
            (SFdiv prec emax (S754_finite true m e) (S754_finite false mk ek))
          = false) in Hs.
  congruence.
Qed.

Lemma round_positive (x : t) :
  (round x > int 0)%js = true -> (x > int 0)%js = true.
Proof.
  destruct x as [s|[]| |[] m e]; trivial.
  cbn [round]. destruct (Z.leb_spec 0 e) as [He|He]; [trivial|].
  set (n := Z.shiftr (Z.neg m~0 + 2 ^ (- e)) (1 - e)).
  destruct (Z.eqb_spec n 0) as [_|Hn]; [trivial|].
  intros H. exfalso.
  change (SFltb (S754_zero false) (binary_normalize prec emax n 0 false)
          = true) in H.
  rewrite SFltb_zero_normalize in H by lia.
  apply Z.ltb_lt in H.
  unfold n in H. rewrite Z.shiftr_div_pow2 in H by lia.
  assert (Hp : 0 < 2 ^ (- e)) by (apply Z.pow_pos_nonneg; lia).
  assert (Hpp : 2 ^ (1 - e) = 2 * 2 ^ (- e)).
  { replace (1 - e) with (1 + - e) by lia.
    rewrite Z.pow_add_r by lia. reflexivity. }
  assert (Hm : Z.neg m~0 < 0) by lia.
  pose proof (Z.div_lt_upper_bound (Z.neg m~0 + 2 ^ (- e)) (2 ^ (1 - e)) 1
                ltac:(lia) ltac:(lia)).
  lia.
Qed.

Lemma valid_mul (x k : t) :
  valid_binary prec emax x = true -> nonneg k -> has_mantissa k ->
  valid_binary prec emax (x * k)%js = true.
Proof.
  intros Vx Nk Mk. destruct (valid_cases x Vx) as [->|Px].
  - destruct k; try contradiction; reflexivity.
  - apply proper_valid, SFmul_proper; trivial.
    + exact (nonneg_proper k Nk).
    + intros [_ Hz]. destruct k; contradiction.
    + intros [_ Hi]. destruct k; contradiction.
Qed.

Lemma valid_round (x : t) :
  valid_binary prec emax x = true -> valid_binary prec emax (round x) = true.
Proof.
  intros Vx. destruct (valid_cases x Vx) as [->|Px]; [reflexivity|].
  apply proper_valid, round_proper, Px.
Qed.

Lemma valid_sub (x y : t) :
  proper x -> proper y -> valid_binary prec emax (x - y)%js = true.
Proof.
  intros Px Py.
  destruct x as [sx|sx| |sx mx ex], y as [sy|sy| |sy my ey];
    try contradiction.
  all: try (destruct sx, sy; reflexivity).
  all: try reflexivity.
  all: try assumption.
  cbn [sub number SFsub]. apply proper_valid, binary_normalize_proper.
Qed.

(** A rounding to decimals is above zero only when the number is. *)
Lemma round_to_positive (K : Z) (x : t) :
  nonneg (int K) -> has_mantissa (int K) ->
  valid_binary prec emax x = true ->
  (round_to K x > int 0)%js = true -> (x > int 0)%js = true.
Proof.
  intros NK MK Vx H. unfold round_to in H.
  apply div_positive in H; [|apply valid_round, valid_mul; assumption
                            |exact NK|exact MK].
  apply round_positive in H.
  exact (mul_positive x (int K) Vx NK MK H).
Qed.

End SignFacts.

Module SelfFacts.
Import Binary64 Binary64Facts.
Local Open Scope Z_scope.
Local Unset Implicit Arguments.

(** A number divided by itself is 1. *)
Lemma SFdiv_self (s : bool) (m : positive) (e : Z) :
  SFdiv prec emax (S754_finite s m e) (S754_finite s m e) = int 1.
Proof.
  cbn [SFdiv]. rewrite xorb_nilpotent.
  assert (H : SFdiv_core_binary prec emax (Zpos m) e (Zpos m) e
              = (2 ^ 53, -53, loc_Exact)).
  { unfold SFdiv_core_binary.
    replace (Zdigits2 (Zpos m) + e - (Zdigits2 (Zpos m) + e)) with 0 by lia.
    rewrite Z.sub_diag.
    change (Z.min (fexp prec emax 0) 0) with (-53).
    change (0 - -53) with 53.
    rewrite Z.shiftl_mul_pow2 by lia.
    pose proof (Z_div_mod (Zpos m * 2 ^ 53) (Zpos m) ltac:(lia)) as Hdm.
    pose proof (Z.div_mul (2 ^ 53) (Zpos m) ltac:(lia)) as Hq.
    pose proof (Z.mod_mul (2 ^ 53) (Zpos m) ltac:(lia)) as Hr.
    rewrite (Z.mul_comm (2 ^ 53)) in Hq, Hr.
    unfold Z.div, Z.modulo in Hq, Hr.
    destruct (Z.div_eucl (Zpos m * 2 ^ 53) (Zpos m)) as [q r].
    rewrite Hq, Hr. unfold new_location.
    destruct (Z.even (Zpos m)); reflexivity. }
  rewrite H. vm_compute. reflexivity.
Qed.

Lemma SFsub_self (x : t) :
  is_zero x \/ has_mantissa x ->
  SFsub Binary64.prec Binary64.emax x x = S754_zero false.
Proof.
  intros [H|H]; destruct x as [[]|s| |s m e]; try contradiction;
    try reflexivity.
  cbn [SFsub]. rewrite Z.sub_diag. reflexivity.
Qed.

End SelfFacts.

Module RankFacts.
Import Binary64 Binary64Facts PriceFacts.
Local Open Scope Z_scope.
Local Unset Implicit Arguments.

(** ** The arithmetic of two emissions

    [N1] and [N2] are the exact products of a distance by two factors,
    the first at most four fifths of the second, in units of
    [2^-1074 * 2^-1074]; [X1] and [X2] are the products as computed,
    [P1] and [P2] their products by 100, [n1] and [n2] the whole numbers
    that [Math.round] makes of these, [Y1] and [Y2] the quotients by
    100. *)

Lemma products_ordered (N1 N2 X1 X2 : Z) :
  0 <= N1 -> 5 * N1 <= 4 * N2 ->
  near N1 one X1 -> near N2 one X2 ->
  X1 <= X2 /\ (2 ^ 50 <= X2 -> 8 * X1 <= 7 * X2).
Proof. unfold near, one. lia. Qed.

Lemma product_finite (K N : Z) :
  0 <= N <= (top - 1) * K -> 100 * K <= 97 * one -> ~ over N one.
Proof. unfold over, top, one. lia. Qed.

Lemma hundredths_ordered (X1 X2 P1 P2 n1 n2 : Z) :
  0 <= X1 -> X1 + 1 <= X2 -> (2 ^ 50 <= X2 -> 8 * X1 <= 7 * X2) ->
  near (X1 * 100) 1 P1 -> near (X2 * 100) 1 P2 ->
  half_up n1 P1 -> half_up n2 P2 ->
  n1 <= n2.
Proof. unfold near, half_up, one. lia. Qed.

Lemma large_ordered (X1 X2 P1 P2 n1 n2 Y1 Y2 : Z) :
  0 <= X1 -> (2 ^ 50 <= X2 -> 8 * X1 <= 7 * X2) ->
  near (X1 * 100) 1 P1 -> near (X2 * 100) 1 P2 ->
  half_up n1 P1 -> half_up n2 P2 ->
  near (n1 * one) 100 Y1 -> near (n2 * one) 100 Y2 ->
  2 ^ 40 <= n2 ->
  Y1 <= Y2.
Proof. unfold near, half_up, one. lia. Qed.

Lemma no_overflow_smaller (X1 X2 P2 : Z) :
  0 <= X1 <= X2 -> (2 ^ 50 <= X2 -> 8 * X1 <= 7 * X2) ->
  near (X2 * 100) 1 P2 -> P2 < top -> ~ over (X1 * 100) 1.
Proof. unfold near, over, top. lia. Qed.

(** ** Two roundings to hundredths *)

Lemma zero_le (z x : t) : is_zero z -> nonneg x -> (z <= x)%js = true.
Proof.
  intros Hz [_ Hs].
  destruct z as [sz|sz| |sz mz ez]; try contradiction.
  destruct x as [s|[]| |[] m e]; try contradiction; reflexivity.
Qed.

Lemma round_to_100_zero (x : t) : is_zero x -> is_zero (round_to 100 x).
Proof. destruct x as [[]|s| |s m e]; try contradiction; intros _; exact I. Qed.

Lemma round_to_100_le (x1 x2 : t) :
  nonneg x1 -> finite x1 -> nonneg x2 -> finite x2 ->
  scaled x1 <= scaled x2 ->
  (2 ^ 50 <= scaled x2 -> 8 * scaled x1 <= 7 * scaled x2) ->
  (round_to 100 x1 <= round_to 100 x2)%js = true.
Proof.
  intros N1 F1 N2 F2 Hle Hratio.
  pose proof (finite_range x1 N1 F1) as [H1 _].
  pose proof (round_to_100_nonneg x1 N1) as Ny1.
  pose proof (round_to_100_nonneg x2 N2) as Ny2.
  destruct (Z.eq_dec (scaled x1) 0) as [Hz|Hnz].
  { apply zero_le; [|exact Ny2].
    apply round_to_100_zero. exact (scaled_zero x1 N1 F1 Hz). }
  destruct (Z.eq_dec (scaled x1) (scaled x2)) as [Heq|Hne].
  { rewrite <- (scaled_inj x1 x2 N1 F1 N2 F2 Heq ltac:(lia)).
    change (SFleb (round_to 100 x1) (round_to 100 x1) = true).
    rewrite (SFleb_scaled _ _ (nonneg_proper _ Ny1) (nonneg_proper _ Ny1)).
    apply Z.leb_le. apply Z.le_refl. }
  assert (Hlt : scaled x1 + 1 <= scaled x2) by lia.
  destruct (round_to_100_cases x2 N2 F2)
    as [[-> _]|(P2 & n2 & a2 & HP2 & HR2 & Hn2 & Na2 & Fa2 & Sa2 & E2
                & _ & Fy2 & HY2)].
  { exact (le_infinity _ Ny1). }
  destruct (round_to_100_cases x1 N1 F1)
    as [[_ Hover]|(P1 & n1 & a1 & HP1 & HR1 & Hn1 & Na1 & Fa1 & Sa1 & E1
                   & _ & Fy1 & HY1)].
  { exfalso.
    exact (no_overflow_smaller (scaled x1) (scaled x2) P2
             (conj H1 Hle) Hratio HP2 (proj2 HR2) Hover). }
  change (SFleb (round_to 100 x1) (round_to 100 x2) = true).
  rewrite (SFleb_scaled _ _ (nonneg_proper _ Ny1) (nonneg_proper _ Ny2)).
  apply Z.leb_le.
  pose proof (hundredths_ordered (scaled x1) (scaled x2) P1 P2 n1 n2
                H1 Hlt Hratio HP1 HP2 Hn1 Hn2) as Hn.
  destruct (Z.eq_dec n1 n2) as [En|Nn].
  { rewrite E1, E2.
    assert (Esc : scaled a1 = scaled a2)
      by (rewrite Sa1, Sa2, En; reflexivity).
    rewrite (div_same a1 a2 Na1 Fa1 Na2 Fa2 Esc).
    apply Z.le_refl. }
  destruct (Z.lt_ge_cases n2 (2 ^ 41)) as [Hsmall|Hlarge].
  - exact (more_cents n1 n2 _ _ (proj1 Hn1) ltac:(lia) Hsmall HY1 HY2).
  - exact (large_ordered (scaled x1) (scaled x2) P1 P2 n1 n2 _ _
             H1 Hratio HP1 HP2 Hn1 Hn2 HY1 HY2 ltac:(lia)).
Qed.

(** The emissions of two modes, the factor of the first at most four
    fifths of the factor of the second, which is below 0.97. *)
Lemma emission_le (d k1 k2 : t) :
  nonneg d -> finite d ->
  nonneg k1 -> finite k1 -> nonneg k2 -> finite k2 ->
  5 * scaled k1 <= 4 * scaled k2 -> 100 * scaled k2 <= 97 * one ->
  (round_to 100 (d * k1) <= round_to 100 (d * k2))%js = true.
Proof.
  intros Nd Fd Nk1 Fk1 Nk2 Fk2 Hk Hk2.
  pose proof (finite_range d Nd Fd) as [HC HCt].
  pose proof (finite_range k1 Nk1 Fk1) as [HK1 _].
  pose proof (finite_range k2 Nk2 Fk2) as [HK2 _].
  assert (HN1 : 0 <= scaled d * scaled k1) by (apply Z.mul_nonneg_nonneg; lia).
  assert (HN2 : 0 <= scaled d * scaled k2) by (apply Z.mul_nonneg_nonneg; lia).
  assert (HN : 5 * (scaled d * scaled k1) <= 4 * (scaled d * scaled k2)).
  { rewrite !Z.mul_assoc, !(Z.mul_comm _ (scaled d)), <- !Z.mul_assoc.
    apply Z.mul_le_mono_nonneg_l; lia. }
  assert (HB1 : scaled d * scaled k1 <= (top - 1) * scaled k1)
    by (apply Z.mul_le_mono_nonneg_r; lia).
  assert (HB2 : scaled d * scaled k2 <= (top - 1) * scaled k2)
    by (apply Z.mul_le_mono_nonneg_r; lia).
  destruct (rounded_cases _ _ _ (SFmul_rounded d k1 Nd Fd Nk1 Fk1))
    as [(Nx1 & Fx1 & HX1)|[_ Hover]].
  2:{ exfalso.
      exact (product_finite (scaled k1) _ (conj HN1 HB1) ltac:(lia) Hover). }
  destruct (rounded_cases _ _ _ (SFmul_rounded d k2 Nd Fd Nk2 Fk2))
    as [(Nx2 & Fx2 & HX2)|[_ Hover]].
  2:{ exfalso.
      exact (product_finite (scaled k2) _ (conj HN2 HB2) Hk2 Hover). }
  destruct (products_ordered _ _ _ _ HN1 HN HX1 HX2) as [Hle Hratio].
  exact (round_to_100_le _ _ Nx1 Fx1 Nx2 Fx2 Hle Hratio).
Qed.

End RankFacts.

Module DecimalFacts.
Import Binary64 Binary64Facts PriceFacts EmissionFacts.
Local Open Scope Z_scope.
Local Unset Implicit Arguments.

(** ** Whole numbers *)

(** The number of the format that a whole number is, is what the
    conversion of that whole number gives. *)
Lemma of_Z_exact (m : positive) (e : Z) :
  0 <= e -> valid_binary prec emax (S754_finite false m e) = true ->
  of_Z (Zpos m * 2 ^ e) = S754_finite false m e.
Proof.
  intros He Hv.
  destruct (valid_finite false m e Hv) as [Hc Hb].
  destruct (valid_finite_range false m e Hv) as (_ & Hm & _).
  assert (Hpe : 0 < 2 ^ e) by (apply Z.pow_pos_nonneg; lia).
  assert (Hd : Zdigits2 (Zpos m * 2 ^ e) = Zdigits2 (Zpos m) + e)
    by (apply Zdigits2_shiftl; lia).
  destruct (Zpos m * 2 ^ e) as [|p|p] eqn:Ep; try lia.
  unfold of_Z. cbn [binary_normalize].
  assert (Hf : fexp prec emax (Zdigits2 (Zpos p) + 0) = e)
    by (rewrite Z.add_0_r, Hd; exact Hc).
  assert (Hr : rounded (Zpos p * 2 ^ (0 + 1074)) 1
                 (binary_round prec emax false p 0))
    by (apply binary_round_rounded; lia).
  pose proof (rounded_nonneg _ _ _ Hr) as Hnn.
  unfold binary_round in *.
  change (Zpos (digits2_pos p)) with (Zdigits2 (Zpos p)) in *.
  rewrite Hf in *.
  assert (Hal : shl_align p 0 e = (p, 0)).
  { unfold shl_align. destruct (e - 0) as [|d|d] eqn:Ed; trivial. lia. }
  rewrite Hal in *.
  assert (Hpre : 0 <= fexp prec emax (Zdigits2 (Zpos p) + 0)) by lia.
  pose proof (binary_round_aux_value false (Zpos p) 0 loc_Exact
                ltac:(lia) Hpre) as Hval.
  cbv zeta in Hval. rewrite Hf in Hval.
  pose proof (shr_fexp_recorded (Zpos p) 1 (Zpos p) 0 loc_Exact
                ltac:(lia) (located_exact (Zpos p) ltac:(lia)) Hpre) as Hrec.
  rewrite Hf, Z.sub_0_r, Z.mul_1_l in Hrec.
  pose proof (round_nearest_even_recorded (Zpos p) (2 ^ e) _ Hpe Hrec)
    as Hrne.
  cbv zeta in Hrne.
  set (m2 := round_nearest_even
               (shr_m (fst (shr_fexp prec emax (Zpos p) 0 loc_Exact)))
               (loc_of_shr_record
                  (fst (shr_fexp prec emax (Zpos p) 0 loc_Exact)))) in *.
  assert (Hm2 : m2 = Zpos m).
  { rewrite <- Ep in Hrne. destruct Hrne as [H1 H2].
    destruct (Z.lt_trichotomy m2 (Zpos m)) as [Hlt|[Heq|Hgt]]; trivial.
    - assert ((m2 + 1) * 2 ^ e <= Zpos m * 2 ^ e)
        by (apply Z.mul_le_mono_nonneg_r; lia).
      lia.
    - assert ((Zpos m + 1) * 2 ^ e <= m2 * 2 ^ e)
        by (apply Z.mul_le_mono_nonneg_r; lia).
      lia. }
  rewrite Hm2 in Hval.
  pose proof (scaled_finite_bound false m e Hv) as Hsb.
  assert (Htop : Zpos m * 2 ^ (e + 1074) < 2 ^ 2098).
  { apply Z.lt_le_trans with (2 ^ 53 * 2 ^ (e + 1074)).
    - apply Z.mul_lt_mono_pos_r; [apply Z.pow_pos_nonneg|]; lia.
    - rewrite <- Z.pow_add_r by lia. apply Z.pow_le_mono_r; lia. }
  destruct Hnn as [Hp Hs].
  destruct (binary_round_aux prec emax false (Zpos p) 0 loc_Exact)
    as [s|s| |s mr er] eqn:Er; try contradiction.
  - destruct Hval as [_ Hval]. lia.
  - destruct Hval as [_ Hval]. lia.
  - destruct Hval as [-> Hval].
    apply (scaled_inj (S754_finite false mr er) (S754_finite false m e)).
    + split; [exact Hp | exact I].
    + exact Hp.
    + split; [exact Hv | exact I].
    + exact Hv.
    + cbn [scaled cond_Zopp]. exact Hval.
    + cbn [scaled cond_Zopp]. lia.
Qed.

(** [Math.round] returns a whole number. *)
Lemma round_whole (x : t) :
  proper x -> finite x -> has_sign false x ->
  exists n : Z, 0 <= n /\ round x = of_Z n.
Proof.
  intros Px Fx Sx. destruct x as [s|s| |s m e]; try contradiction;
    cbn [has_sign] in Sx; subst s.
  - exists 0. split; [lia | reflexivity].
  - cbn [round]. destruct (Z.leb_spec 0 e) as [He|He].
    + exists (Zpos m * 2 ^ e). split.
      * apply Z.mul_nonneg_nonneg; [lia|]. apply Z.pow_nonneg. lia.
      * symmetry. exact (of_Z_exact m e He Px).
    + set (n := Z.shiftr (Zpos m~0 + 2 ^ (- e)) (1 - e)).
      assert (Hn : 0 <= n).
      { unfold n. apply Z.shiftr_nonneg.
        assert (0 < 2 ^ (- e)) by (apply Z.pow_pos_nonneg; lia). lia. }
      exists n. split; [exact Hn|].
      destruct (Z.eqb_spec n 0) as [->|_]; reflexivity.
Qed.

(** ** Numbers with the sign bit clear: [+0], the numbers above zero
    and [+Infinity] *)

Local Abbreviation plus x := (proper x /\ has_sign false x).

Lemma plus_nonneg (x : t) : plus x -> nonneg x.
Proof.
  intros [Px Sx]. split; [exact Px|].
  destruct x as [s|s| |s m e]; try contradiction; cbn [has_sign] in Sx;
    subst s; exact I.
Qed.

Lemma positive_plus (x : t) : proper x -> (x > int 0)%js = true -> plus x.
Proof.
  intros Px H. split; [exact Px|].
  destruct x as [s|[]| |[] m e]; try discriminate; try contradiction;
    reflexivity.
Qed.

Lemma mul_plus (x k : t) :
  plus x -> plus k -> has_mantissa k -> plus (x * k)%js.
Proof.
  intros Hx Hk Mk.
  pose proof (mul_nonneg_by x k (plus_nonneg x Hx) (plus_nonneg k Hk) Mk)
    as [Pr _].
  split; [exact Pr|].
  destruct Hx as [Px Sx], Hk as [Pk Sk].
  destruct k as [sk|sk| |sk mk ek]; try contradiction.
  cbn [has_sign] in Sk. subst sk.
  destruct x as [s|s| |s m e]; try contradiction;
    cbn [has_sign] in Sx; subst s; try reflexivity.
  destruct (valid_finite false _ _ Px) as [Cx Bx].
  destruct (valid_finite false _ _ Pk) as [Ck Bk].
  cbn [mul number SFmul xorb]. apply binary_round_aux_sign; [lia|].
  pose proof (Zdigits2_mul (Zpos m) (Zpos mk) ltac:(lia) ltac:(lia)) as Hd.
  change (Zpos (m * mk)) with (Zpos m * Zpos mk).
  pose proof (Zdigits2_pos (Zpos m) ltac:(lia)).
  pose proof (Zdigits2_pos (Zpos mk) ltac:(lia)).
  rewrite fexp_eq in *. lia.
Qed.

Lemma mul_plus_finite (x k : t) :
  plus x -> finite x -> plus k -> finite k -> plus (x * k)%js.
Proof.
  intros Hx Fx Hk Fk.
  destruct k as [sk|sk| |sk mk ek]; try contradiction.
  - destruct Hk as [_ Sk]. cbn [has_sign] in Sk. subst sk.
    destruct Hx as [_ Sx].
    destruct x as [s|s| |s m e]; try contradiction;
      cbn [has_sign] in Sx; subst s; split; reflexivity.
  - exact (mul_plus x _ Hx Hk I).
Qed.

Lemma div_plus (x k : t) :
  plus x -> plus k -> has_mantissa k -> plus (x / k)%js.
Proof.
  intros Hx Hk Mk.
  pose proof (div_nonneg_by x k (plus_nonneg x Hx) (plus_nonneg k Hk) Mk)
    as [Pr _].
  split; [exact Pr|].
  destruct Hx as [Px Sx], Hk as [Pk Sk].
  destruct k as [sk|sk| |sk mk ek]; try contradiction.
  cbn [has_sign] in Sk. subst sk.
  destruct x as [s|s| |s m e]; try contradiction;
    cbn [has_sign] in Sx; subst s; try reflexivity.
  destruct (valid_finite false _ _ Px) as [Cx Bx].
  destruct (valid_finite false _ _ Pk) as [Ck Bk].
  cbn [div number SFdiv xorb].
  pose proof (SFdiv_core_binary_spec m mk e ek Cx Ck) as Hc.
  destruct (SFdiv_core_binary prec emax (Zpos m) e (Zpos mk) ek)
    as [[q e'] l].
  destruct Hc as [Hq He].
  apply binary_round_aux_sign; [exact Hq | exact He].
Qed.

Lemma of_Z_plus (n : Z) : 0 <= n -> plus (of_Z n).
Proof.
  intros Hn. unfold of_Z. split; [apply binary_normalize_proper|].
  destruct n as [|p|p]; try lia; cbn [binary_normalize]; [reflexivity|].
  apply binary_round_proper.
Qed.

(** A rounding to decimals of a number with the sign bit clear is
    [+Infinity] or the number that a decimal literal denotes. *)
Lemma round_to_decimal (K : positive) (x : t) :
  plus (int (Zpos K)) -> has_mantissa (int (Zpos K)) ->
  int (Zpos K) = of_Z (Zpos K) ->
  plus x ->
  plus (round_to (Zpos K) x)
  /\ (round_to (Zpos K) x = S754_infinity false
      \/ exists n : Z, 0 <= n /\ round_to (Zpos K) x = lit n K).
Proof.
  intros HK MK EK Hx. unfold round_to.
  pose proof (mul_plus x _ Hx HK MK) as Hp.
  destruct (nonneg_cases _ (plus_nonneg _ Hp)) as [Fp|Ep].
  - destruct (round_whole _ (proj1 Hp) Fp (proj2 Hp)) as (n & Hn & En).
    change (Math_round (x * int (Zpos K))%js)
      with (round (x * int (Zpos K))%js).
    rewrite En. split.
    + apply div_plus; [apply of_Z_plus; exact Hn | exact HK | exact MK].
    + right. exists n. split; [exact Hn|]. rewrite EK. reflexivity.
  - rewrite Ep.
    change (Math_round (S754_infinity false)) with (S754_infinity false).
    destruct HK as [PK SK].
    destruct (int (Zpos K)) as [sk|sk| |sk mk ek]; try contradiction.
    cbn [has_sign] in SK. subst sk.
    split; [split; reflexivity | left; reflexivity].
Qed.

Lemma add_plus (x y : t) : plus x -> plus y -> plus (x + y)%js.
Proof.
  intros [Px Sx] [Py Sy].
  destruct x as [sx|sx| |sx mx ex]; try contradiction;
    cbn [has_sign] in Sx; subst sx;
    destruct y as [sy|sy| |sy my ey]; try contradiction;
    cbn [has_sign] in Sy; subst sy;
    try (split; [assumption || reflexivity | reflexivity]).
  cbn [add number SFadd cond_Zopp].
  split; [apply binary_normalize_proper|].
  set (ez := Z.min ex ey).
  destruct (shl_align mx ex ez) as [ax ex'].
  destruct (shl_align my ey ez) as [ay ey'].
  cbn [fst Z.add binary_normalize]. apply binary_round_proper.
Qed.

Lemma constant_plus (K : positive) :
  In K [2; 50; 100; 150; 1000; 10000]%positive ->
  plus (int (Zpos K)) /\ has_mantissa (int (Zpos K))
  /\ int (Zpos K) = of_Z (Zpos K).
Proof.
  intros HK. cbn [In] in HK.
  assert (H : exists (m : positive) (e : Z),
             @int t _ (Zpos K) = S754_finite false m e
             /\ valid_binary prec emax (S754_finite false m e) = true
             /\ of_Z (Zpos K) = S754_finite false m e).
  { destruct HK as [<-|[<-|[<-|[<-|[<-|[<-|[]]]]]]];
      eexists; eexists; (split; [vm_compute; reflexivity|]);
      split; vm_compute; reflexivity. }
  destruct H as (m & e & -> & Hv & ->).
  split; [split; [exact Hv | reflexivity]|]. split; [exact I | reflexivity].
Qed.

End DecimalFacts.

Module WholeFacts.
Import Binary64 Binary64Facts PriceFacts EmissionFacts DecimalFacts.
Local Open Scope Z_scope.
Local Unset Implicit Arguments.

(** ** Whole numbers of kilometres *)

(** A number of the format with the sign bit clear whose value is the
    whole number [n] is the conversion of [n]. *)
Lemma whole_of_Z (a : Binary64.t) (n : Z) :
  proper a -> finite a -> has_sign false a -> scaled a = n * one ->
  a = of_Z n.
Proof.
  intros Pa Fa Sa Hn. pose proof one_pos as HU.
  destruct a as [s|s| |s m e]; try contradiction;
    cbn [has_sign] in Sa; subst s.
  - cbn [scaled] in Hn. assert (n = 0) by lia. subst n. reflexivity.
  - destruct (valid_finite_range false m e Pa) as (He & Hm & _).
    cbn [scaled cond_Zopp] in Hn.
    destruct (Z.leb_spec 0 e) as [Hpos|Hneg].
    + assert (En : n = Zpos m * 2 ^ e).
      { rewrite Z.pow_add_r in Hn by lia. fold one in Hn.
        rewrite Z.mul_assoc in Hn.
        apply Z.mul_reg_r in Hn; lia. }
      rewrite En. symmetry. exact (of_Z_exact m e Hpos Pa).
    + assert (Hp : 0 < 2 ^ (e + 1074)) by (apply Z.pow_pos_nonneg; lia).
      assert (Hlt : 2 ^ (e + 1074) < one).
      { unfold one. apply Z.pow_lt_mono_r; lia. }
      assert (Hn0 : 0 < n) by nia.
      assert (Hn53 : n < 2 ^ 53) by nia.
      destruct n as [|p|p]; try lia.
      destruct (binary_round_exact p 0 ltac:(lia) Hn53) as (Nr & Fr & Sr).
      { change (2 ^ (0 + 1074)) with (2 ^ 1074).
        apply Z.lt_trans with (2 ^ 53 * 2 ^ 1074); [|reflexivity].
        apply Z.mul_lt_mono_pos_r; [reflexivity | exact Hn53]. }
      cbv zeta in Nr, Fr, Sr. unfold of_Z. cbn [binary_normalize].
      apply scaled_inj.
      * split; [exact Pa | exact I].
      * exact Pa.
      * exact Nr.
      * exact Fr.
      * cbn [scaled cond_Zopp]. rewrite Sr, Hn. reflexivity.
      * cbn [scaled cond_Zopp]. apply Z.mul_pos_pos; lia.
Qed.

(** The conversion of a whole number below [2^53]. *)
Lemma of_Z_whole (d : Z) :
  0 <= d < 2 ^ 53 ->
  nonneg (of_Z d) /\ finite (of_Z d) /\ scaled (of_Z d) = d * one.
Proof.
  intros Hd. destruct d as [|p|p]; try lia.
  - split; [split; [reflexivity | exact I]|]. split; reflexivity.
  - unfold of_Z. cbn [binary_normalize].
    apply (binary_round_exact p 0 ltac:(lia) ltac:(lia)).
    change (2 ^ (0 + 1074)) with (2 ^ 1074).
    apply Z.lt_trans with (2 ^ 53 * 2 ^ 1074); [|reflexivity].
    apply Z.mul_lt_mono_pos_r; [reflexivity | lia].
Qed.

(** [d] is a whole number of kilometres, [W] the whole number of
    hundredths that its exact emission is; [M] is [d] times the factor
    as the format has it, [X] the product as computed, [P] its product
    by 100 and [n] what [Math.round] makes of it. *)
Lemma whole_hundredths (d W M X P n : Z) :
  0 <= d < 2 ^ 40 -> 0 <= W <= 100 * d ->
  - (d * 2 ^ 1030) <= 100 * M - W * one <= d * 2 ^ 1030 ->
  near (one * M) one X -> near (X * 100) 1 P -> half_up n P ->
  n = W.
Proof. unfold near, half_up, one. lia. Qed.

Lemma whole_hundredths_finite (d W M X : Z) :
  0 <= d < 2 ^ 40 -> 0 <= W <= 100 * d ->
  - (d * 2 ^ 1030) <= 100 * M - W * one <= d * 2 ^ 1030 ->
  near (one * M) one X -> ~ over (X * 100) 1.
Proof. unfold near, over, top, one. lia. Qed.

(** The emission over a whole number [d = q * t] of kilometres, for a
    factor that is [c / (100 * q)]: [c * t] hundredths. *)
Lemma emission_whole (t q c : Z) (k : Binary64.t) :
  0 <= t -> 1 <= q <= 10 -> q * t < 2 ^ 40 -> 0 <= c <= 100 * q ->
  nonneg k -> finite k -> has_sign false k ->
  - 2 ^ 1030 <= 100 * q * scaled k - c * one <= 2 ^ 1030 ->
  round_to 100 (of_Z (q * t) * k)%js = lit (c * t) 100.
Proof.
  intros Ht Hq Hqt Hc Nk Fk Sk HK.
  set (d := q * t) in *.
  assert (Htd : t <= d).
  { unfold d. rewrite <- (Z.mul_1_l t) at 1.
    apply Z.mul_le_mono_nonneg_r; lia. }
  assert (Hd : 0 <= d < 2 ^ 40) by lia.
  destruct (of_Z_whole d ltac:(lia)) as (Nd & Fd & Sd).
  pose proof (of_Z_plus d ltac:(lia)) as Pd.
  set (x := (of_Z d * k)%js).
  set (M := d * scaled k).
  assert (HM : - (d * 2 ^ 1030) <= 100 * M - c * t * one <= d * 2 ^ 1030).
  { unfold M, d.
    replace (100 * (q * t * scaled k) - c * t * one)
      with (t * (100 * q * scaled k - c * one)) by ring.
    assert (- (t * 2 ^ 1030) <= t * (100 * q * scaled k - c * one)
            <= t * 2 ^ 1030).
    { split.
      - rewrite <- Z.mul_opp_r. apply Z.mul_le_mono_nonneg_l; lia.
      - apply Z.mul_le_mono_nonneg_l; lia. }
    fold d. lia. }
  assert (HW : 0 <= c * t <= 100 * d).
  { split; [apply Z.mul_nonneg_nonneg; lia|].
    unfold d. rewrite Z.mul_assoc.
    apply Z.mul_le_mono_nonneg_r; lia. }
  pose proof (SFmul_rounded (of_Z d) k Nd Fd Nk Fk) as Hr.
  rewrite Sd in Hr.
  replace (d * one * scaled k) with (one * M) in Hr by (unfold M; ring).
  fold x in Hr.
  assert (Px : proper x /\ has_sign false x).
  { apply mul_plus_finite; trivial. split; [exact (proj1 Nk) | exact Sk]. }
  destruct (rounded_cases _ _ _ Hr) as [(Nx & Fx & HX)|[_ Hover]].
  2:{ exfalso. unfold over, top, one in *. lia. }
  destruct (constant_plus 100 ltac:(cbn; tauto)) as (H100 & M100 & E100).
  destruct (round_to_100_cases x Nx Fx)
    as [[_ Hover]|(P & n & a & HP & HR & Hn & Na & Fa & Sa & Ey & _)].
  { exfalso.
    exact (whole_hundredths_finite d (c * t) M (scaled x)
             Hd HW HM HX Hover). }
  pose proof (whole_hundredths d (c * t) M (scaled x) P n
                Hd HW HM HX HP Hn) as En.
  rewrite En in *. clear En.
  destruct (Z.eq_dec (c * t) 0) as [Hz|Hnz].
  - (* nothing is emitted: a zero with the sign bit clear *)
    rewrite Hz in *.
    destruct (round_to_decimal 100 x H100 M100 E100 Px) as [[_ Sy] _].
    pose proof (scaled_zero a Na Fa ltac:(lia)) as Za.
    rewrite Ey in Sy |- *.
    destruct a as [sa|sa| |sa ma ea]; try contradiction.
    destruct H100 as [P100 S100].
    destruct (int 100) as [sk|sk| |sk mk ek] eqn:E; try contradiction.
    cbn [has_sign] in S100. subst sk.
    cbn [div number SFdiv xorb has_sign] in Sy |- *.
    rewrite xorb_false_r in Sy |- *. subst sa. reflexivity.
  - assert (Sa' : has_sign false a).
    { destruct Na as [_ Ha]. pose proof one_pos.
      destruct a as [sa|[]| |[] ma ea]; try contradiction;
        try reflexivity.
      cbn [scaled] in Sa. nia. }
    rewrite Ey, (whole_of_Z a (c * t) (proj1 Na) Fa Sa' Sa), E100.
    reflexivity.
Qed.

End WholeFacts.

Module IdempotentFacts.
Import Binary64 Binary64Facts PriceFacts EmissionFacts DecimalFacts WholeFacts.
Local Open Scope Z_scope.
Local Unset Implicit Arguments.

(** ** An amount in hundredths, rounded again *)

(** [Y] is the quotient of [n] by 100 as computed, [P] its product by
    100 and [n'] what [Math.round] makes of it. *)
Lemma hundredths_again (n Y P n' : Z) :
  0 <= n < 2 ^ 50 ->
  near (n * one) 100 Y -> near (Y * 100) 1 P -> half_up n' P ->
  n' = n.
Proof. unfold near, half_up, one. lia. Qed.

Lemma hundredths_again_finite (n Y : Z) :
  0 <= n < 2 ^ 50 -> near (n * one) 100 Y -> ~ over (Y * 100) 1.
Proof. unfold near, over, top, one. lia. Qed.

Lemma hundredths_finite (n : Z) :
  0 <= n < 2 ^ 50 -> ~ over (n * one) 100.
Proof. unfold over, top, one. lia. Qed.

(** Below [2^50] hundredths, rounding a rounded amount changes
    nothing. *)
Lemma round_to_100_again (n : Z) :
  0 <= n < 2 ^ 50 -> round_to 100 (lit n 100) = lit n 100.
Proof.
  intros Hn. pose proof one_pos as HU.
  destruct (constant_plus 100 ltac:(cbn; tauto)) as (H100 & M100 & E100).
  destruct (int_constant 100 ltac:(simpl; tauto)) as (N100 & _ & F100 & S100).
  destruct (of_Z_whole n ltac:(lia)) as (Nn & Fn & Sn).
  pose proof (of_Z_plus n ltac:(lia)) as Pn.
  change (lit n 100) with (SFdiv prec emax (of_Z n) (of_Z 100)).
  rewrite <- E100.
  change (SFdiv prec emax (of_Z n) (int 100)) with (of_Z n / int 100)%js.
  set (y := (of_Z n / int 100)%js).
  pose proof (div_const (of_Z n) (int 100) 100 Nn Fn N100 M100 S100
                ltac:(lia)) as Hy.
  rewrite Sn in Hy. fold y in Hy.
  pose proof (div_plus (of_Z n) (int 100) Pn H100 M100) as Py. fold y in Py.
  destruct (rounded_cases _ _ _ Hy) as [(Ny & Fy & HY)|[_ Hover]].
  2:{ exfalso. exact (hundredths_finite n Hn Hover). }
  destruct (round_to_100_cases y Ny Fy)
    as [[_ Hover]|(P & n' & a & HP & HR & Hn' & Na & Fa & Sa & Ey & _)].
  { exfalso. exact (hundredths_again_finite n (scaled y) Hn HY Hover). }
  pose proof (hundredths_again n (scaled y) P n' Hn HY HP Hn') as En.
  rewrite En in *. clear En.
  destruct (Z.eq_dec n 0) as [Hz|Hnz].
  - subst n. reflexivity.
  - assert (Sa' : has_sign false a).
    { destruct Na as [_ Ha].
      destruct a as [sa|[]| |[] ma ea]; try contradiction;
        try reflexivity.
      cbn [scaled] in Sa. nia. }
    rewrite Ey, (whole_of_Z a n (proj1 Na) Fa Sa' Sa). reflexivity.
Qed.

Lemma sub_zero (x z : t) :
  has_mantissa x -> is_zero z -> (x - z)%js = x.
Proof.
  intros Hx Hz. destruct x as [s|s| |s m e]; try contradiction.
  destruct z as [sz|sz| |sz mz ez]; try contradiction. reflexivity.
Qed.

(** The savings of an emission of zero against a baseline of [n]
    hundredths: the baseline, and 100 %. *)
Lemma savings_against_zero (n : Z) (z : t) :
  0 < n < 2 ^ 50 -> is_zero z ->
  calculateSavings z (lit n 100) = mkSavings (lit n 100) (int 100).
Proof.
  intros Hn Hz. pose proof one_pos as HU.
  destruct (int_constant 100 ltac:(simpl; tauto))
    as (N100 & M100 & F100 & S100).
  destruct (constant_plus 100 ltac:(cbn; tauto)) as (H100 & _ & E100).
  destruct (of_Z_whole n ltac:(lia)) as (Nn & Fn & Sn).
  assert (Hy : exists m e, (lit n 100 : t) = S754_finite false m e).
  { change (lit n 100) with (SFdiv prec emax (of_Z n) (of_Z 100)).
    rewrite <- E100.
    pose proof (div_const (of_Z n) (int 100) 100 Nn Fn N100 M100 S100
                  ltac:(lia)) as Hy.
    rewrite Sn in Hy.
    destruct (rounded_cases _ _ _ Hy) as [(Ny & Fy & HY)|[_ Hover]].
    2:{ exfalso. exact (hundredths_finite n ltac:(lia) Hover). }
    change (SFdiv prec emax (of_Z n) (int 100)) with (of_Z n / int 100)%js.
    destruct Ny as [_ Sy].
    destruct (of_Z n / int 100)%js as [s|[]| |[] m e];
      try contradiction; [|eauto].
    exfalso. cbn [scaled] in HY. unfold near, one in HY. lia. }
  destruct Hy as (m & e & Ey).
  unfold calculateSavings.
  assert (Esub : (lit n 100 - z)%js = lit n 100).
  { rewrite Ey. apply sub_zero; [exact I | exact Hz]. }
  rewrite Esub.
  change (Math_round (lit n 100 * int 100)%js / int 100)%js
    with (round_to 100 (lit n 100)).
  rewrite (round_to_100_again n ltac:(lia)).
  rewrite Ey.
  change (S754_finite false m e > int 0)%js with true. cbv iota.
  change (S754_finite false m e / S754_finite false m e)%js
    with (SFdiv prec emax (S754_finite false m e) (S754_finite false m e)).
  rewrite SelfFacts.SFdiv_self. f_equal; vm_compute; reflexivity.
Qed.

End IdempotentFacts.

Section EngineProperties.
Local Open Scope js_scope.

Lemma own_In {T} (table : list (JSString.t * T)) (key : JSString.t) (v : T) :
  own table key = Some v -> In v (map snd table).
Proof.
  induction table as [|[k w] table IH]; cbn [own map snd]; [discriminate|].
  destruct (eqb k key).
  - intros [= ->]. now left.
  - intros Hown. right. exact (IH Hown).
Qed.

(** The factors of [CONFIG] are finite and not negative. *)
Lemma EMISSION_FACTORS_nonneg (mode : JSString.t) (factor : Binary64.t) :
  own CONFIG.EMISSION_FACTORS mode = Some factor ->
  Binary64.nonneg factor /\ Binary64.finite factor.
Proof.
  intros Hown. apply own_In in Hown.
  cbn [CONFIG.EMISSION_FACTORS map snd In] in Hown.
  destruct Hown as [<-|[<-|[<-|[<-|[]]]]];
    (split; [split; [vm_compute; reflexivity | exact I]
            | vm_compute; reflexivity]).
Qed.

Lemma positive_le (x : Binary64.t) :
  (x > int 0)%js = true -> (int 0 <= x)%js = true.
Proof. destruct x as [[]|[]| |[] m e]; try discriminate; reflexivity. Qed.

Lemma calculateEmission_nonneg (distanceKm : Binary64.t)
    (transportMode : JSString.t) :
  Binary64.finite distanceKm ->
  (int 0 <= distanceKm)%js = true ->
  existsb (eqb transportMode) Object_prototype = false ->
  Binary64.nonneg (fst (calculateEmission distanceKm transportMode)).
Proof.
  intros Fd Hd Hmode.
  pose proof (EmissionFacts.le_nonneg distanceKm
                (Binary64Facts.finite_proper distanceKm Fd) Hd) as Nd.
  destruct (own CONFIG.EMISSION_FACTORS transportMode) as [factor|] eqn:Hown.
  - rewrite (calculateEmission_own distanceKm transportMode Hown).
    destruct (EMISSION_FACTORS_nonneg transportMode factor Hown) as [Nk Fk].
    apply PriceFacts.round_to_100_nonneg.
    exact (EmissionFacts.mul_nonneg distanceKm factor Nd Fd Nk Fk).
  - unfold calculateEmission, Get. rewrite Hown, Hmode.
    split; [reflexivity | exact I].
Qed.

(** X7: for a finite distance that is not negative and a mode that is
    not the name of a property of [Object.prototype], the emission that
    [calculateEmission] returns is not negative: a zero, a number above
    zero or [+Infinity], never NaN and never a number below zero. *)
Theorem calculateEmission_not_negative (distanceKm : Binary64.t)
    (transportMode : JSString.t) :
  Binary64.finite distanceKm ->
  (int 0 <= distanceKm)%js = true ->
  existsb (eqb transportMode) Object_prototype = false ->
  (int 0 <= fst (calculateEmission distanceKm transportMode))%js = true.
Proof.
  intros Fd Hd Hmode.
  exact (EmissionFacts.nonneg_le _
           (calculateEmission_nonneg distanceKm transportMode Fd Hd Hmode)).
Qed.

Lemma calculateEmission_not_negative_witness :
  (int 0 <= fst (calculateEmission (lit 25 10 : Binary64.t) (js "bus")))%js
  = true.
Proof.
  apply (calculateEmission_not_negative (lit 25 10) (js "bus"));
    vm_compute; reflexivity.
Defined.

(** Over a finite distance the bicycle, whose factor is 0, emits a
    zero. *)
Lemma bicycle_zero (distanceKm : Binary64.t) :
  Binary64.finite distanceKm ->
  Binary64.is_zero (round_to 100 (distanceKm * int 0)%js).
Proof.
  intros Fd.
  destruct distanceKm as [[]|[]| |[] m e]; try contradiction; exact I.
Qed.

(** X8: over every finite distance, of either sign, the emission of
    the bicycle is a zero. *)
Theorem calculateEmission_bicycle (distanceKm : Binary64.t) :
  Binary64.finite distanceKm ->
  Binary64.is_zero (fst (calculateEmission distanceKm (js "bicycle"))).
Proof.
  intros Fd.
  rewrite (calculateEmission_own distanceKm (js "bicycle")
             (factor := int 0) eq_refl).
  exact (bicycle_zero distanceKm Fd).
Qed.

Lemma calculateEmission_bicycle_witness :
  Binary64.is_zero
    (fst (calculateEmission (int (-1015) : Binary64.t) (js "bicycle"))).
Proof.
  apply (calculateEmission_bicycle (int (-1015))). vm_compute. reflexivity.
Defined.

(** X14: [savedKg] is above zero, which is when [renderResults] shows
    the savings card, only if the emission is strictly below the
    baseline. *)
Theorem calculateSavings_positive (emission baselineEmission : Binary64.t) :
  Binary64.proper emission -> Binary64.proper baselineEmission ->
  (savedKg (calculateSavings emission baselineEmission) > int 0)%js = true ->
  (emission < baselineEmission)%js = true.
Proof.
  intros Pe Pb H. unfold calculateSavings in H. cbn [savedKg] in H.
  change ((round_to 100 (baselineEmission - emission) > int 0)%js = true)
    in H.
  apply SignFacts.round_to_positive in H.
  - change (SFltb (S754_zero false)
              (SFsub Binary64.prec Binary64.emax baselineEmission emission)
            = true) in H.
    rewrite Binary64Facts.SFsub_positive in H by assumption. exact H.
  - split; [vm_compute; reflexivity | exact I].
  - exact I.
  - apply SignFacts.valid_sub; assumption.
Qed.

Lemma calculateSavings_positive_witness :
  ((lit 3827 100 : Binary64.t) < lit 516 10)%js = true.
Proof.
  apply (calculateSavings_positive (lit 3827 100) (lit 516 10));
    vm_compute; reflexivity.
Defined.

(** The credits of an emission that is not negative are not
    negative. *)
Lemma calculateCarbonCredits_nonneg (emissionKg : Binary64.t) :
  Binary64.nonneg emissionKg ->
  Binary64.nonneg (calculateCarbonCredits emissionKg).
Proof.
  intros Ne. unfold calculateCarbonCredits, CONFIG.KG_PER_CREDIT.
  change (Binary64.nonneg (round_to 10000 (emissionKg / int 1000)%js)).
  apply EmissionFacts.round_to_nonneg.
  - split; [vm_compute; reflexivity | exact I].
  - exact I.
  - apply EmissionFacts.div_nonneg_by; [exact Ne| |exact I].
    split; [vm_compute; reflexivity | exact I].
Qed.

(** The emissions of the four modes over a finite distance that is not
    negative. *)
Lemma emissions_ranked (d : Binary64.t) :
  Binary64.finite d -> (int 0 <= d) = true ->
  let e k := round_to 100 (d * k) in
  Binary64.is_zero (e (int 0))
  /\ Binary64.nonneg (e (lit 89 1000))
  /\ Binary64.nonneg (e (lit 12 100))
  /\ Binary64.nonneg (e (lit 96 100))
  /\ (e (lit 89 1000) <= e (lit 12 100)) = true
  /\ (e (lit 12 100) <= e (lit 96 100)) = true.
Proof.
  intros Fd Hd e.
  pose proof (bicycle_zero d Fd : Binary64.is_zero (e (int 0))) as H0.
  pose proof (EmissionFacts.le_nonneg d
                (Binary64Facts.finite_proper d Fd) Hd) as Nd.
  assert (K : forall n q,
             In (n, q) [(89%Z, 1000%positive); (12%Z, 100%positive);
                        (96%Z, 100%positive)] ->
             Binary64.nonneg (lit n q) /\ Binary64.finite (lit n q)).
  { intros n q Hin. cbn [In] in Hin.
    destruct Hin as [[= <- <-]|[[= <- <-]|[[= <- <-]|[]]]];
      (split; [split; [vm_compute; reflexivity | exact I]
              | vm_compute; reflexivity]). }
  destruct (K 89%Z 1000%positive ltac:(cbn; tauto)) as [N1 F1].
  destruct (K 12%Z 100%positive ltac:(cbn; tauto)) as [N2 F2].
  destruct (K 96%Z 100%positive ltac:(cbn; tauto)) as [N3 F3].
  split; [exact H0|].
  split; [exact (PriceFacts.round_to_100_nonneg _
                   (EmissionFacts.mul_nonneg d _ Nd Fd N1 F1))|].
  split; [exact (PriceFacts.round_to_100_nonneg _
                   (EmissionFacts.mul_nonneg d _ Nd Fd N2 F2))|].
  split; [exact (PriceFacts.round_to_100_nonneg _
                   (EmissionFacts.mul_nonneg d _ Nd Fd N3 F3))|].
  split.
  - apply (RankFacts.emission_le d _ _ Nd Fd N1 F1 N2 F2);
      vm_compute; discriminate.
  - apply (RankFacts.emission_le d _ _ Nd Fd N2 F2 N3 F3);
      vm_compute; discriminate.
Qed.

(** X9: over every finite distance that is not negative, the
    emissions of the four modes stand in the order of their factors,
    roundings included: bicycle, bus, car, truck, each at most the
    next. *)
Theorem calculateEmission_ranking (distanceKm : Binary64.t) :
  Binary64.finite distanceKm ->
  (int 0 <= distanceKm) = true ->
  let e (mode : string) := fst (calculateEmission distanceKm (js mode)) in
  (e "bicycle"%string <= e "bus"%string) = true
  /\ (e "bus"%string <= e "car"%string) = true
  /\ (e "car"%string <= e "truck"%string) = true.
Proof.
  intros Fd Hd e.
  destruct (emissions_ranked distanceKm Fd Hd)
    as (H0 & N1 & N2 & N3 & H12 & H23).
  split; [|split; [exact H12 | exact H23]].
  exact (RankFacts.zero_le _ _ H0 N1).
Qed.

Lemma calculateEmission_ranking_witness :
  let e (mode : string) :=
    fst (calculateEmission (lit 1 100 : Binary64.t) (js mode)) in
  (e "bicycle"%string <= e "bus"%string) = true
  /\ (e "bus"%string <= e "car"%string) = true
  /\ (e "car"%string <= e "truck"%string) = true.
Proof.
  apply (calculateEmission_ranking (lit 1 100)); vm_compute; reflexivity.
Defined.

Lemma le_not_above (a b : Binary64.t) :
  Binary64.proper a -> Binary64.proper b ->
  (a <= b) = true -> (a - b > int 0) = false.
Proof.
  intros Pa Pb.
  change (SFleb a b = true
          -> SFltb (S754_zero false)
               (SFsub Binary64.prec Binary64.emax a b) = false).
  rewrite Binary64Facts.SFsub_positive, Binary64Facts.SFltb_scaled,
    Binary64Facts.SFleb_scaled by assumption.
  lia.
Qed.

Lemma sort_four (A : Type) (key : A -> Binary64.t) (r0 r1 r2 r3 : A) :
  Binary64.proper (key r0) -> Binary64.proper (key r1) ->
  Binary64.proper (key r2) -> Binary64.proper (key r3) ->
  (key r0 <= key r2) = true -> (key r0 <= key r1) = true ->
  (key r2 <= key r1) = true -> (key r1 <= key r3) = true ->
  Array_sort (byKey key) [r0; r1; r2; r3]
  = if key r2 < key r1 then [r0; r2; r1; r3] else [r0; r1; r2; r3].
Proof.
  intros P0 P1 P2 P3 H02 H01 H21 H13.
  pose proof (Binary64Facts.le_trans _ _ _ P2 P1 P3 H21 H13) as H23.
  unfold Array_sort. cbn [fold_right insert]. unfold byKey.
  rewrite (le_not_above _ _ P2 P3 H23). cbn [insert].
  change ((key r1 - key r2 > int 0))
    with (SFltb (S754_zero false)
            (SFsub Binary64.prec Binary64.emax (key r1) (key r2))).
  rewrite Binary64Facts.SFsub_positive by assumption.
  change (SFltb (key r2) (key r1)) with (key r2 < key r1).
  destruct (key r2 < key r1).
  - cbn [insert]. rewrite (le_not_above _ _ P1 P3 H13).
    cbn [insert]. rewrite (le_not_above _ _ P0 P2 H02). reflexivity.
  - cbn [insert]. rewrite (le_not_above _ _ P0 P1 H01). reflexivity.
Qed.

(** X10: over every finite distance that is not negative,
    [calculateAllModes] lists the bicycle first and the truck last; the
    bus stands before the car exactly when its emission is strictly
    below that of the car, and behind it when the two are rounded to
    the same number. *)
Theorem calculateAllModes_order (distanceKm : Binary64.t) :
  Binary64.finite distanceKm ->
  (int 0 <= distanceKm) = true ->
  let bus := fst (calculateEmission distanceKm (js "bus")) in
  let car := fst (calculateEmission distanceKm (js "car")) in
  map mode (fst (calculateAllModes distanceKm))
  = if bus < car
    then [js "bicycle"; js "bus"; js "car"; js "truck"]
    else [js "bicycle"; js "car"; js "bus"; js "truck"].
Proof.
  intros Fd Hd bus car.
  destruct (emissions_ranked distanceKm Fd Hd)
    as (H0 & N1 & N2 & N3 & H12 & H23).
  cbv zeta in H0, N1, N2, N3, H12, H23.
  rewrite calculateAllModes_unfold. unfold fst at 1.
  unfold unsortedResults. cbv zeta.
  cbn [map CONFIG.EMISSION_FACTORS fst snd].
  change (@byEmission Binary64.t _) with (byKey (@emission Binary64.t)).
  assert (P0 : Binary64.nonneg (round_to 100 (distanceKm * int 0))).
  { split; [|destruct (round_to 100 (distanceKm * int 0)) as [s|s| |s m e];
              try contradiction; exact I].
    destruct (round_to 100 (distanceKm * int 0)) as [s|s| |s m e];
      try contradiction; reflexivity. }
  rewrite sort_four; cbn [emission].
  - change (round_to 100 (distanceKm * lit 89 1000)) with bus.
    change (round_to 100 (distanceKm * lit 12 100)) with car.
    destruct (bus < car); reflexivity.
  - exact (proj1 P0).
  - exact (proj1 N2).
  - exact (proj1 N1).
  - exact (proj1 N3).
  - exact (RankFacts.zero_le _ _ H0 N1).
  - exact (RankFacts.zero_le _ _ H0 N2).
  - exact H12.
  - exact H23.
Qed.

Lemma calculateAllModes_order_witness :
  let bus := fst (calculateEmission (int 430 : Binary64.t) (js "bus")) in
  let car := fst (calculateEmission (int 430 : Binary64.t) (js "car")) in
  map mode (fst (calculateAllModes (int 430 : Binary64.t)))
  = if bus < car
    then [js "bicycle"; js "bus"; js "car"; js "truck"]
    else [js "bicycle"; js "car"; js "bus"; js "truck"].
Proof.
  apply (calculateAllModes_order (int 430)); vm_compute; reflexivity.
Defined.

Lemma EMISSION_FACTORS_plus (mode : JSString.t) (factor : Binary64.t) :
  own CONFIG.EMISSION_FACTORS mode = Some factor ->
  Binary64.has_sign false factor.
Proof.
  intros Hown. apply own_In in Hown.
  cbn [CONFIG.EMISSION_FACTORS map snd In] in Hown.
  destruct Hown as [<-|[<-|[<-|[<-|[]]]]]; vm_compute; reflexivity.
Qed.

(** X11: for a finite distance above zero, as the validation of the
    form lets through, and a mode that is not the name of a property of
    [Object.prototype], the emission is [+Infinity] or the number that a
    literal with two decimals denotes: [n / 100] for a whole number
    [n >= 0]. *)
Theorem calculateEmission_two_decimals (distanceKm : Binary64.t)
    (transportMode : JSString.t) :
  Binary64.finite distanceKm ->
  (distanceKm > int 0) = true ->
  existsb (eqb transportMode) Object_prototype = false ->
  let emission := fst (calculateEmission distanceKm transportMode) in
  emission = S754_infinity false
  \/ exists n : Z, (0 <= n)%Z /\ emission = lit n 100.
Proof.
  intros Fd Hd Hmode. cbv zeta.
  pose proof (DecimalFacts.positive_plus distanceKm
                (Binary64Facts.finite_proper distanceKm Fd) Hd) as Pd.
  destruct (own CONFIG.EMISSION_FACTORS transportMode) as [factor|] eqn:Hown.
  - rewrite (calculateEmission_own distanceKm transportMode Hown).
    destruct (EMISSION_FACTORS_nonneg transportMode factor Hown) as [Nk Fk].
    pose proof (EMISSION_FACTORS_plus transportMode factor Hown) as Sk.
    destruct (DecimalFacts.constant_plus 100 ltac:(cbn; tauto))
      as (H100 & M100 & E100).
    unfold fst.
    apply (DecimalFacts.round_to_decimal 100 _ H100 M100 E100).
    exact (DecimalFacts.mul_plus_finite distanceKm factor Pd Fd
             (conj (proj1 Nk) Sk) Fk).
  - unfold calculateEmission, Get. rewrite Hown, Hmode.
    right. exists 0%Z. split; [lia | reflexivity].
Qed.

Lemma calculateEmission_two_decimals_witness :
  let emission := fst (calculateEmission (int 430 : Binary64.t) (js "bus")) in
  emission = S754_infinity false
  \/ exists n : Z, (0 <= n)%Z /\ emission = lit n 100.
Proof.
  apply (calculateEmission_two_decimals (int 430) (js "bus"));
    vm_compute; reflexivity.
Defined.

(** X15: for an emission that is [+0], above zero or [+Infinity], the
    credits that [calculateCarbonCredits] returns are [+Infinity] or the
    number that a literal with four decimals denotes: [n / 10000] for a
    whole number [n >= 0]. *)
Theorem calculateCarbonCredits_four_decimals (emissionKg : Binary64.t) :
  Binary64.proper emissionKg -> Binary64.has_sign false emissionKg ->
  let credits := calculateCarbonCredits emissionKg in
  credits = S754_infinity false
  \/ exists n : Z, (0 <= n)%Z /\ credits = lit n 10000.
Proof.
  intros Pe Se. cbv zeta.
  unfold calculateCarbonCredits, CONFIG.KG_PER_CREDIT.
  destruct (DecimalFacts.constant_plus 1000 ltac:(cbn; tauto))
    as (H1000 & M1000 & _).
  destruct (DecimalFacts.constant_plus 10000 ltac:(cbn; tauto))
    as (H10000 & M10000 & E10000).
  apply (DecimalFacts.round_to_decimal 10000 _ H10000 M10000 E10000).
  exact (DecimalFacts.div_plus emissionKg _ (conj Pe Se) H1000 M1000).
Qed.

Lemma calculateCarbonCredits_four_decimals_witness :
  let credits := calculateCarbonCredits (lit 3827 100 : Binary64.t) in
  credits = S754_infinity false
  \/ exists n : Z, (0 <= n)%Z /\ credits = lit n 10000.
Proof.
  apply (calculateCarbonCredits_four_decimals (lit 3827 100));
    vm_compute; reflexivity.
Defined.

(** X16: for a number of credits that is [+0], above zero or
    [+Infinity], each of the three prices of [estimateCreditPrice] is
    [+Infinity] or the number that a literal with two decimals denotes:
    [n / 100] for a whole number [n >= 0]. *)
Theorem estimateCreditPrice_two_decimals (credits : Binary64.t) :
  Binary64.proper credits -> Binary64.has_sign false credits ->
  let p := estimateCreditPrice credits in
  Forall (fun price =>
            price = S754_infinity false
            \/ exists n : Z, (0 <= n)%Z /\ price = lit n 100)
         [min p; max p; average p].
Proof.
  intros Pc Sc. rewrite estimateCreditPrice_unfold. cbv zeta.
  cbn [min max average].
  unfold CONFIG.PRICE_MIN_BRL, CONFIG.PRICE_MAX_BRL.
  destruct (DecimalFacts.constant_plus 2 ltac:(cbn; tauto))
    as (H2 & M2 & _).
  destruct (DecimalFacts.constant_plus 50 ltac:(cbn; tauto))
    as (H50 & M50 & _).
  destruct (DecimalFacts.constant_plus 150 ltac:(cbn; tauto))
    as (H150 & M150 & _).
  destruct (DecimalFacts.constant_plus 100 ltac:(cbn; tauto))
    as (H100 & M100 & E100).
  pose proof (DecimalFacts.mul_plus credits _ (conj Pc Sc) H50 M50) as X1.
  pose proof (DecimalFacts.mul_plus credits _ (conj Pc Sc) H150 M150) as X2.
  destruct (DecimalFacts.round_to_decimal 100 _ H100 M100 E100 X1)
    as [Y1 D1].
  destruct (DecimalFacts.round_to_decimal 100 _ H100 M100 E100 X2)
    as [Y2 D2].
  pose proof (DecimalFacts.div_plus _ _
                (DecimalFacts.add_plus _ _ Y1 Y2) H2 M2) as Hh.
  destruct (DecimalFacts.round_to_decimal 100 _ H100 M100 E100 Hh)
    as [_ D3].
  apply Forall_cons; [exact D1|]. apply Forall_cons; [exact D2|].
  apply Forall_cons; [exact D3|]. apply Forall_nil.
Qed.

Lemma estimateCreditPrice_two_decimals_witness :
  let p := estimateCreditPrice (lit 3 100 : Binary64.t) in
  Forall (fun price =>
            price = S754_infinity false
            \/ exists n : Z, (0 <= n)%Z /\ price = lit n 100)
         [min p; max p; average p].
Proof.
  apply (estimateCreditPrice_two_decimals (lit 3 100));
    vm_compute; reflexivity.
Defined.

(** X13: a finite emission compared with itself saves nothing:
    [calculateSavings(x, x)] has [savedKg] and [percentage] both 0, as
    when the mode chosen is the car. *)
Theorem calculateSavings_same (x : Binary64.t) :
  Binary64.finite x ->
  calculateSavings x x = mkSavings (int 0) (int 0).
Proof.
  intros Hx. unfold calculateSavings.
  change ((x - x)%js) with (SFsub Binary64.prec Binary64.emax x x).
  rewrite SelfFacts.SFsub_self
    by (destruct x; try contradiction; [now left | now right]).
  destruct x as [s|s| |[] m e]; try contradiction; reflexivity.
Qed.

Lemma calculateSavings_same_witness :
  calculateSavings (lit 516 10 : Binary64.t) (lit 516 10)
  = mkSavings (int 0) (int 0).
Proof. apply calculateSavings_same. reflexivity. Defined.

(** X12: whenever the emission of the car is above zero and finite,
    the result that [calculateAllModes] holds for the car has
    [percentageVsCar] exactly 100. *)
Theorem calculateAllModes_car_100 (distanceKm : Binary64.t) :
  let carEmission := fst (calculateEmission distanceKm (js "car")) in
  (carEmission > int 0)%js = true ->
  carEmission <> S754_infinity false ->
  In (mkModeResult (js "car") carEmission (int 100))
     (fst (calculateAllModes distanceKm)).
Proof.
  intros e Hpos Hfin. rewrite calculateAllModes_unfold. unfold fst.
  eapply Permutation_in; [symmetry; apply Array_sort_Permutation|].
  unfold unsortedResults. cbv zeta.
  change (fst (calculateEmission distanceKm (js "car")))
    with (round_to 100 (distanceKm * lit 12 100)%js) in e.
  fold e. rewrite Hpos.
  cbn [map CONFIG.EMISSION_FACTORS]. right. left.
  cbn [fst snd]. fold e. f_equal.
  assert (He : exists m ex, e = S754_finite false m ex).
  { destruct e as [s|[]| |[] m ex]; try discriminate; try contradiction;
      eauto. }
  destruct He as (m & ex & ->).
  change ((S754_finite false m ex / S754_finite false m ex)%js)
    with (SFdiv Binary64.prec Binary64.emax (S754_finite false m ex)
            (S754_finite false m ex)).
  rewrite SelfFacts.SFdiv_self. vm_compute. reflexivity.
Qed.

Lemma calculateAllModes_car_100_witness :
  let carEmission :=
    fst (calculateEmission (int 430 : Binary64.t) (js "car")) in
  In (mkModeResult (js "car") carEmission (int 100))
     (fst (calculateAllModes (int 430 : Binary64.t))).
Proof.
  apply (calculateAllModes_car_100 (int 430));
    [vm_compute; reflexivity | vm_compute; discriminate].
Defined.

(** X20: over a whole number [d] of kilometres, up to 10^12, the
    emission is exact to the hundredth: 0 for the bicycle, [0.12 d] for
    the car, [0.96 d] for the truck and, when [d] is a multiple of ten,
    [0.089 d] for the bus, each the number that the literal with two
    decimals denotes. *)
Theorem calculateEmission_whole_km (d : Z) :
  (0 <= d <= 1000000000000)%Z ->
  let e (mode : string) :=
    fst (calculateEmission (Binary64.of_Z d) (js mode)) in
  e "bicycle"%string = int 0
  /\ e "car"%string = lit (12 * d) 100
  /\ e "truck"%string = lit (96 * d) 100
  /\ forall t : Z, d = (10 * t)%Z -> e "bus"%string = lit (89 * t) 100.
Proof.
  intros Hd e. unfold e.
  assert (Hown : forall (mode : string) (k : Binary64.t),
             own CONFIG.EMISSION_FACTORS (js mode) = Some k ->
             fst (calculateEmission (Binary64.of_Z d) (js mode))
             = round_to 100 (Binary64.of_Z d * k)
             /\ Binary64.nonneg k /\ Binary64.finite k
             /\ Binary64.has_sign false k).
  { intros mode k Hk. rewrite (calculateEmission_own _ _ Hk).
    destruct (EMISSION_FACTORS_nonneg _ _ Hk) as [Nk Fk].
    pose proof (EMISSION_FACTORS_plus _ _ Hk) as Sk.
    split; [reflexivity|]. split; [exact Nk|]. split; [exact Fk | exact Sk]. }
  assert (Hd40 : (1 * d < 2 ^ 40)%Z) by lia.
  split; [|split; [|split]].
  - destruct (Hown "bicycle"%string (int 0) eq_refl) as (-> & Nk & Fk & Sk).
    pose proof (WholeFacts.emission_whole d 1 0 (int 0)
                  ltac:(lia) ltac:(lia) Hd40 ltac:(lia) Nk Fk Sk
                  ltac:(vm_compute; split; discriminate)) as H.
    rewrite Z.mul_1_l in H. exact H.
  - destruct (Hown "car"%string (lit 12 100) eq_refl) as (-> & Nk & Fk & Sk).
    pose proof (WholeFacts.emission_whole d 1 12 (lit 12 100)
                  ltac:(lia) ltac:(lia) Hd40 ltac:(lia) Nk Fk Sk
                  ltac:(vm_compute; split; discriminate)) as H.
    rewrite Z.mul_1_l in H. exact H.
  - destruct (Hown "truck"%string (lit 96 100) eq_refl) as (-> & Nk & Fk & Sk).
    pose proof (WholeFacts.emission_whole d 1 96 (lit 96 100)
                  ltac:(lia) ltac:(lia) Hd40 ltac:(lia) Nk Fk Sk
                  ltac:(vm_compute; split; discriminate)) as H.
    rewrite Z.mul_1_l in H. exact H.
  - intros t Ht.
    destruct (Hown "bus"%string (lit 89 1000) eq_refl) as (-> & Nk & Fk & Sk).
    rewrite Ht.
    exact (WholeFacts.emission_whole t 10 89 (lit 89 1000)
             ltac:(lia) ltac:(lia) ltac:(lia) ltac:(lia) Nk Fk Sk
             ltac:(vm_compute; split; discriminate)).
Qed.

Lemma calculateEmission_whole_km_witness :
  let e (mode : string) :=
    fst (calculateEmission (Binary64.of_Z 430) (js mode)) in
  e "bicycle"%string = int 0
  /\ e "car"%string = lit (12 * 430) 100
  /\ e "truck"%string = lit (96 * 430) 100
  /\ forall t : Z, 430%Z = (10 * t)%Z -> e "bus"%string = lit (89 * t) 100.
Proof.
  apply (calculateEmission_whole_km 430). lia.
Defined.

(** X23: over a whole number of kilometres from 1 to 10^12, the
    savings of the bicycle against the car are the whole emission of
    the car, unchanged by the second rounding, and 100 %. *)
Theorem calculateSavings_bicycle (d : Z) :
  (1 <= d <= 1000000000000)%Z ->
  let e (mode : string) :=
    fst (calculateEmission (Binary64.of_Z d) (js mode)) in
  calculateSavings (e "bicycle"%string) (e "car"%string)
  = mkSavings (e "car"%string) (int 100).
Proof.
  intros Hd e. unfold e.
  rewrite !(calculateEmission_own (Binary64.of_Z d) (js "bicycle")
              (factor := int 0) eq_refl).
  rewrite !(calculateEmission_own (Binary64.of_Z d) (js "car")
              (factor := lit 12 100) eq_refl).
  unfold fst.
  destruct (EMISSION_FACTORS_nonneg (js "car") (lit 12 100) eq_refl)
    as [Nk Fk].
  pose proof (EMISSION_FACTORS_plus (js "car") (lit 12 100) eq_refl) as Sk.
  pose proof (WholeFacts.emission_whole d 1 12 (lit 12 100)
                ltac:(lia) ltac:(lia) ltac:(lia) ltac:(lia) Nk Fk Sk
                ltac:(vm_compute; split; discriminate)) as Hcar.
  rewrite Z.mul_1_l in Hcar. rewrite Hcar.
  apply IdempotentFacts.savings_against_zero; [lia|].
  apply bicycle_zero. apply (WholeFacts.of_Z_whole d). lia.
Qed.

Lemma calculateSavings_bicycle_witness :
  let e (mode : string) :=
    fst (calculateEmission (Binary64.of_Z 430) (js mode)) in
  calculateSavings (e "bicycle"%string) (e "car"%string)
  = mkSavings (e "car"%string) (int 100).
Proof.
  apply (calculateSavings_bicycle 430). lia.
Defined.

End EngineProperties.

Section Consistency.
Context {T} `{Number T}.
Local Open Scope js_scope.

(** X21: whatever the Number type, every result of [calculateAllModes]
    holds, for its mode, the emission that [calculateEmission] returns
    for that mode over the same distance: the figure of the results
    card and the figure of the comparison agree. *)
Theorem calculateAllModes_consistent (distanceKm : T) (r : ModeResult T) :
  In r (fst (calculateAllModes distanceKm)) ->
  emission r = fst (calculateEmission distanceKm (mode r)).
Proof.
  intros Hin. rewrite calculateAllModes_unfold in Hin. unfold fst in Hin.
  apply (Permutation_in _ (Array_sort_Permutation _ _)) in Hin.
  unfold unsortedResults in Hin. cbv zeta in Hin.
  cbn [map CONFIG.EMISSION_FACTORS In] in Hin.
  destruct Hin as [<-|[<-|[<-|[<-|[]]]]]; reflexivity.
Qed.

End Consistency.

Lemma calculateAllModes_consistent_witness :
  let r := mkModeResult (js "bus") (lit 3827 100 : Binary64.t)
             (lit 7417 100) in
  emission r = fst (calculateEmission (int 430) (mode r)).
Proof.
  intros r. apply (calculateAllModes_consistent (int 430) r).
  vm_compute. right. left. reflexivity.
Defined.

(* ================================================================== *)
(** * Further properties of the form and of the comparison view *)
(* ================================================================== *)

Section FormProperties.
Local Open Scope js_scope.

Lemma empty_nil (s : JSString.t) : App.empty s = true <-> s = [].
Proof. destruct s; cbn [App.empty]; split; congruence. Qed.

Lemma empty_not_nil (s : JSString.t) : App.empty s = false <-> s <> [].
Proof. destruct s; cbn [App.empty]; split; congruence. Qed.

(** The test [!distance || distance <= 0] of the validation fails
    exactly for the numbers above zero. *)
Lemma invalid_distance (distance : Binary64.t) :
  falsy distance || (distance <= int 0) = negb (distance > int 0).
Proof. destruct distance as [[]|[]| |[] m e]; reflexivity. Qed.

(** [renderResults] throws for the modes of which [TRANSPORT_MODES]
    knows nothing, and for no other. *)
Lemma renderResults_throws (mode : JSString.t) :
  UI.renderResults mode = UI.Throws
  <-> Get CONFIG.TRANSPORT_MODES mode = Undefined.
Proof.
  unfold UI.renderResults, UI.modeData_icon.
  destruct (Get CONFIG.TRANSPORT_MODES mode);
    split; congruence.
Qed.

Lemma renderResults_returns (mode : JSString.t) :
  UI.renderResults mode = UI.Returns
  <-> Get CONFIG.TRANSPORT_MODES mode <> Undefined.
Proof.
  unfold UI.renderResults, UI.modeData_icon.
  destruct (Get CONFIG.TRANSPORT_MODES mode);
    split; congruence.
Qed.

(** [renderComparison] returns on the results of [calculateAllModes],
    whose modes are those of the factor table, all of them modes of
    [TRANSPORT_MODES]. *)
Lemma renderComparison_returns {T} `{Number T} (distance : T)
    (selectedMode : JSString.t) :
  UI.renderComparison (fst (calculateAllModes distance)) selectedMode
  = UI.Returns.
Proof.
  unfold UI.renderComparison.
  assert (Hall : forallb
            (fun m : ModeResult T =>
               match UI.modeData_icon (mode m) with
               | UI.Returns => true
               | UI.Throws => false
               end) (fst (calculateAllModes distance)) = true).
  { apply forallb_forall. intros r Hin.
    rewrite calculateAllModes_unfold in Hin. unfold fst in Hin.
    apply (Permutation_in _ (Array_sort_Permutation _ _)) in Hin.
    unfold unsortedResults in Hin. cbv zeta in Hin.
    cbn [map CONFIG.EMISSION_FACTORS In] in Hin.
    destruct Hin as [<-|[<-|[<-|[<-|[]]]]]; reflexivity. }
  rewrite Hall. reflexivity.
Qed.

(** The three alerts differ. *)
Lemma alerts_differ :
  js "⚠️ Por favor, preencha os campos de origem e destino."
  <> js "⚠️ Por favor, preencha a distância com um valor maior que zero."
  /\ js "⚠️ Por favor, preencha os campos de origem e destino."
     <> js "❌ Ocorreu um erro ao processar o cálculo. Por favor, tente novamente."
  /\ js "⚠️ Por favor, preencha a distância com um valor maior que zero."
     <> js "❌ Ocorreu um erro ao processar o cálculo. Por favor, tente novamente.".
Proof. repeat split; vm_compute; discriminate. Qed.

(** What [handleFormSubmit] ends in, by the case of its input. *)
Lemma handleFormSubmit_cases
    (originValue destinationValue : JSString.t) (distance : Binary64.t)
    (selectedTransport : JSString.t) :
  let outcome :=
    fst (App.handleFormSubmit originValue destinationValue distance
           selectedTransport) in
  ((trim originValue = [] \/ trim destinationValue = [])
   /\ outcome = App.Alert (js
        "⚠️ Por favor, preencha os campos de origem e destino."))
  \/ (trim originValue <> [] /\ trim destinationValue <> []
      /\ (distance > int 0) = false
      /\ outcome = App.Alert (js
           "⚠️ Por favor, preencha a distância com um valor maior que zero."))
  \/ (trim originValue <> [] /\ trim destinationValue <> []
      /\ (distance > int 0) = true
      /\ Get CONFIG.TRANSPORT_MODES selectedTransport = Undefined
      /\ outcome = App.Alert (js
           "❌ Ocorreu um erro ao processar o cálculo. Por favor, tente novamente."))
  \/ (trim originValue <> [] /\ trim destinationValue <> []
      /\ (distance > int 0) = true
      /\ Get CONFIG.TRANSPORT_MODES selectedTransport <> Undefined
      /\ outcome
         = App.Calculated
             (fst (calculateEmission distance selectedTransport))
             (calculateSavings
                (fst (calculateEmission distance selectedTransport))
                (fst (calculateEmission distance (js "car"))))
             (fst (calculateAllModes distance))
             (calculateCarbonCredits
                (fst (calculateEmission distance selectedTransport)))
             (estimateCreditPrice
                (calculateCarbonCredits
                   (fst (calculateEmission distance selectedTransport))))).
Proof.
  cbv zeta. unfold App.handleFormSubmit. cbv zeta.
  rewrite invalid_distance.
  destruct (App.empty (trim originValue)) eqn:Eo.
  { apply empty_nil in Eo. left. split; [left; exact Eo | reflexivity]. }
  destruct (App.empty (trim destinationValue)) eqn:Ed.
  { apply empty_nil in Ed. left. split; [right; exact Ed | reflexivity]. }
  apply empty_not_nil in Eo. apply empty_not_nil in Ed.
  cbn [orb]. right.
  destruct (distance > int 0) eqn:Hd; cbn [negb].
  2:{ left. repeat split; trivial. }
  right.
  pose proof (renderComparison_returns distance selectedTransport) as Hcmp.
  unfold bind, ret, console_error.
  destruct (calculateEmission distance selectedTransport) as [e1 o1].
  destruct (calculateEmission distance (js "car")) as [e2 o2].
  destruct (calculateAllModes distance) as [all o3].
  cbn [fst] in *. rewrite Hcmp.
  destruct (UI.renderResults selectedTransport) eqn:Hr.
  - right. apply (proj1 (renderResults_returns selectedTransport)) in Hr.
    repeat split; trivial.
  - left. apply (proj1 (renderResults_throws selectedTransport)) in Hr.
    repeat split; trivial.
Qed.

(** A mode that neither table has: [calculateEmission] writes to the
    console and returns 0, the calculation goes on, [renderResults]
    throws on [modeData.icon] and the [catch] block alerts. *)
Example handleFormSubmit_plane :
  App.handleFormSubmit (js "São Paulo, SP") (js "Santos, SP")
    (int 70 : Binary64.t) (js "plane")
  = (App.Alert (js
       "❌ Ocorreu um erro ao processar o cálculo. Por favor, tente novamente."),
     [ js "Invalid transport mode: plane";
       js "Erro ao processar cálculo:" ]).
Proof. vm_compute. reflexivity. Qed.

(** X17: [handleFormSubmit] ends in exactly one of four ways. It
    alerts that origin and destination must be given when one of them
    is empty once trimmed; it alerts that the distance must be above
    zero when both are given and the distance is not above zero (NaN,
    which [parseFloat] returns for an empty field, a zero or a negative
    number); it calculates and then alerts that an error occurred, from
    its [catch] block, when both are given, the distance is above zero
    and [CONFIG.TRANSPORT_MODES] has nothing for the mode, so that
    [renderResults] throws; in every other case, [+Infinity] included,
    it hands the calculated values to the renderers. *)
Theorem handleFormSubmit_validation
    (originValue destinationValue : JSString.t) (distance : Binary64.t)
    (selectedTransport : JSString.t) :
  let outcome :=
    fst (App.handleFormSubmit originValue destinationValue distance
           selectedTransport) in
  (outcome = App.Alert (js
     "⚠️ Por favor, preencha os campos de origem e destino.")
   <-> trim originValue = [] \/ trim destinationValue = [])
  /\ (outcome = App.Alert (js
        "⚠️ Por favor, preencha a distância com um valor maior que zero.")
      <-> trim originValue <> [] /\ trim destinationValue <> []
          /\ (distance > int 0) = false)
  /\ (outcome = App.Alert (js
        "❌ Ocorreu um erro ao processar o cálculo. Por favor, tente novamente.")
      <-> trim originValue <> [] /\ trim destinationValue <> []
          /\ (distance > int 0) = true
          /\ Get CONFIG.TRANSPORT_MODES selectedTransport = Undefined)
  /\ ((exists e s all c p, outcome = App.Calculated e s all c p)
      <-> trim originValue <> [] /\ trim destinationValue <> []
          /\ (distance > int 0) = true
          /\ Get CONFIG.TRANSPORT_MODES selectedTransport <> Undefined).
Proof.
  intros outcome.
  pose proof (handleFormSubmit_cases originValue destinationValue distance
                selectedTransport) as C.
  pose proof alerts_differ as D.
  cbv zeta in C. fold outcome in C. clearbody outcome. revert C D.
  generalize (js "⚠️ Por favor, preencha os campos de origem e destino.").
  generalize
    (js "⚠️ Por favor, preencha a distância com um valor maior que zero.").
  generalize
    (js "❌ Ocorreu um erro ao processar o cálculo. Por favor, tente novamente.").
  intros m3 m2 m1 C (D12 & D13 & D23).
  destruct C
    as [(Hb & E)|[(Ho & Hd & Hn & E)|[(Ho & Hd & Hp & Hu & E)
                                     |(Ho & Hd & Hp & Hdef & E)]]];
    rewrite E; clear E outcome.
  - split; [|split; [|split]].
    + split; [intros _; exact Hb | reflexivity].
    + split; [intros H; congruence | intros (Ho & Hd & _); tauto].
    + split; [intros H; congruence | intros (Ho & Hd & _); tauto].
    + split; [intros (e & s & a & c & p & H); discriminate
             | intros (Ho & Hd & _); tauto].
  - split; [|split; [|split]].
    + split; [intros H; congruence | tauto].
    + split; [intros _; tauto | reflexivity].
    + split; [intros H; congruence | intros (_ & _ & Hp & _); congruence].
    + split; [intros (e & s & a & c & p & H); discriminate
             | intros (_ & _ & Hp & _); congruence].
  - split; [|split; [|split]].
    + split; [intros H; congruence | tauto].
    + split; [intros H; congruence | intros (_ & _ & Hn); congruence].
    + split; [intros _; tauto | reflexivity].
    + split; [intros (e & s & a & c & p & H); discriminate
             | intros (_ & _ & _ & Hdef); contradiction].
  - split; [|split; [|split]].
    + split; [intros H; discriminate | tauto].
    + split; [intros H; discriminate | intros (_ & _ & Hn); congruence].
    + split; [intros H; discriminate
             | intros (_ & _ & _ & Hu); contradiction].
    + split; [intros _; tauto | intros _; eauto 6].
Qed.



Section Autofill.
Variable toLowerCase : JSString.t -> JSString.t.
Hypothesis toLowerCase_on_latin1 :
  forall s, isLatin1 s = true -> toLowerCase s = toLowerCase_latin1 s.

(** X22: whenever [findDistance] finds a distance for two labels, the
    form submitted with these labels and that distance passes the
    validation of [handleFormSubmit]: neither label is blank and the
    distance is above zero. For a mode that [CONFIG.TRANSPORT_MODES]
    has something for, the renderers are then handed the emission of
    [calculateEmission] over the distance found; for any other mode
    [renderResults] throws and the submission ends in the alert of the
    [catch] block. *)
Theorem handleFormSubmit_autofilled (origin destination : JSString.t)
    (d : Z) (selectedTransport : JSString.t) :
  RoutesDB.findDistance toLowerCase origin destination = Some d ->
  let outcome :=
    fst (App.handleFormSubmit origin destination (Binary64.of_Z d)
           selectedTransport) in
  (Get CONFIG.TRANSPORT_MODES selectedTransport <> Undefined ->
   exists savings allModesComparison carbonCredits creditPricing,
     outcome
     = App.Calculated
         (fst (calculateEmission (Binary64.of_Z d) selectedTransport))
         savings allModesComparison carbonCredits creditPricing)
  /\ (Get CONFIG.TRANSPORT_MODES selectedTransport = Undefined ->
      outcome = App.Alert (js
        "❌ Ocorreu um erro ao processar o cálculo. Por favor, tente novamente.")).
Proof.
  intros Hf outcome.
  assert (Ho : trim origin <> []).
  { intros E.
    rewrite (findDistance_blank_left toLowerCase toLowerCase_on_latin1
               origin destination E) in Hf. discriminate. }
  assert (Hd : trim destination <> []).
  { intros E.
    rewrite (findDistance_blank_right toLowerCase toLowerCase_on_latin1
               destination origin E) in Hf. discriminate. }
  pose proof (findDistance_range toLowerCase toLowerCase_on_latin1
                origin destination d Hf) as Hrange.
  assert (Hpos : (Binary64.of_Z d > int 0) = true).
  { change (SFltb (S754_zero false)
              (binary_normalize Binary64.prec Binary64.emax d 0 false)
            = true).
    rewrite Binary64Facts.SFltb_zero_normalize by lia.
    apply Z.ltb_lt. lia. }
  destruct (handleFormSubmit_cases origin destination (Binary64.of_Z d)
              selectedTransport)
    as [([Hb|Hb] & _)|[(_ & _ & Hn & _)|[(_ & _ & _ & Hu & E)
                                        |(_ & _ & _ & Hdef & E)]]];
    try contradiction; try congruence;
    fold outcome in E; rewrite E.
  - split; [intros Hdef; contradiction | intros _; reflexivity].
  - split; [intros _; eauto | intros Hu; contradiction].
Qed.

End Autofill.

Lemma handleFormSubmit_autofilled_witness :
  let outcome :=
    fst (App.handleFormSubmit (js "recife") (js " Olinda, PE")
           (Binary64.of_Z 8) (js "bus")) in
  exists savings allModesComparison carbonCredits creditPricing,
    outcome
    = App.Calculated
        (fst (calculateEmission (Binary64.of_Z 8) (js "bus")))
        savings allModesComparison carbonCredits creditPricing.
Proof.
  refine (proj1 (handleFormSubmit_autofilled toLowerCase_latin1
                   (fun s _ => eq_refl) (js "recife") (js " Olinda, PE")
                   8 (js "bus") _) _).
  - vm_compute. reflexivity.
  - vm_compute. discriminate.
Defined.

Lemma percentage_of_zero (z c : Binary64.t) :
  Binary64.is_zero z -> (c > int 0) = true ->
  Binary64.is_zero (Math_round ((z / c) * int 10000) / int 100).
Proof.
  intros Hz Hc.
  destruct z as [sz|sz| |sz mz ez]; try contradiction.
  destruct c as [s|[]| |[] m e]; try discriminate; destruct sz; exact I.
Qed.

Lemma getBarColor_zero (z : Binary64.t) :
  Binary64.is_zero z -> UI.getBarColor z = js "#10b981".
Proof. destruct z as [[]|s| |s m e]; try contradiction; reflexivity. Qed.

Lemma percentage_of_self (c : Binary64.t) :
  (c > int 0) = true -> c <> S754_infinity false ->
  Math_round ((c / c) * int 10000) / int 100 = int 100.
Proof.
  intros Hc Hfin.
  destruct c as [s|[]| |[] m e]; try discriminate; try contradiction.
  change ((S754_finite false m e / S754_finite false m e))
    with (SFdiv Binary64.prec Binary64.emax (S754_finite false m e)
            (S754_finite false m e)).
  rewrite SelfFacts.SFdiv_self. vm_compute. reflexivity.
Qed.

Lemma getBarColor_NaN : UI.getBarColor (NaN : Binary64.t) = js "#ef4444".
Proof. reflexivity. Qed.

(** X19: in the comparison that [renderComparison] draws from the
    results of [calculateAllModes] over a finite distance, the bar of
    the bicycle is green; the bar of the car is green when the car emits
    nothing, orange when its emission is above zero and finite, and red
    when its emission is [+Infinity], the percentage then being NaN. *)
Theorem comparison_bar_colors (distanceKm : Binary64.t)
    (r : ModeResult Binary64.t) :
  Binary64.finite distanceKm ->
  In r (fst (calculateAllModes distanceKm)) ->
  (mode r = js "bicycle" ->
   UI.getBarColor (percentageVsCar r) = js "#10b981")
  /\ (mode r = js "car" ->
      ((emission r > int 0) = false ->
       UI.getBarColor (percentageVsCar r) = js "#10b981")
      /\ ((emission r > int 0) = true ->
          emission r <> S754_infinity false ->
          UI.getBarColor (percentageVsCar r) = js "#f97316")
      /\ (emission r = S754_infinity false ->
          UI.getBarColor (percentageVsCar r) = js "#ef4444")).
Proof.
  intros Fd Hin. rewrite calculateAllModes_unfold in Hin. unfold fst in Hin.
  apply (Permutation_in _ (Array_sort_Permutation _ _)) in Hin.
  pose proof (bicycle_zero distanceKm Fd) as H0.
  unfold unsortedResults in Hin. cbv zeta in Hin.
  cbn [map CONFIG.EMISSION_FACTORS fst snd In] in Hin.
  set (car := round_to 100 (distanceKm * lit 12 100)) in *.
  destruct Hin as [<-|[<-|[<-|[<-|[]]]]]; cbn [mode emission percentageVsCar].
  - split; [intros _|intros E; vm_compute in E; discriminate].
    destruct (car > int 0) eqn:Hcar.
    + apply getBarColor_zero, percentage_of_zero; assumption.
    + reflexivity.
  - split; [intros E; vm_compute in E; discriminate|intros _].
    split; [|split].
    + intros ->. reflexivity.
    + intros Hcar Hfin. rewrite Hcar.
      rewrite (percentage_of_self car Hcar Hfin). reflexivity.
    + intros ->. reflexivity.
  - split; intros E; vm_compute in E; discriminate.
  - split; intros E; vm_compute in E; discriminate.
Qed.

Lemma comparison_bar_colors_witness :
  let r := mkModeResult (js "car") (lit 516 10 : Binary64.t) (int 100) in
  UI.getBarColor (percentageVsCar r) = js "#f97316".
Proof.
  intros r.
  refine (proj1 (proj2 (proj2 (comparison_bar_colors (int 430) r _ _)
                          eq_refl)) _ _).
  - vm_compute. reflexivity.
  - vm_compute. right. right. left. reflexivity.
  - vm_compute. reflexivity.
  - vm_compute. discriminate.
Defined.

End FormProperties.
